(** * A verification development for the stock-polling bot

    The development embeds four parts of the repository:
    - the [PriorityQueue] class of the scheduler (base rotation with a
      priority overlay, line-cutting and throttling),
    - the parts of [StockBot] that build the rotation and decide whether an
      observation changed,
    - the parts of [ProxyManager] that retry cloud calls and assign regions,
    - the two [async] functions of [ProxyManager] that create and cache the
      task definition and the security group of a region, run by
      concurrent callers.

    The models come first, one module for each part; the properties follow
    in a module of facts for each model.

    JavaScript numbers are integers in every place modelled here and are
    represented by [Z]; [null] and [undefined] are [None]. *)

From stdpp Require Import gmap strings list fin_maps pretty.
From Stdlib Require Import ZArith Lia Sorted.
From Equations Require Import Equations.
From Equations.Prop Require Import Logic.

Local Open Scope Z_scope.

(** ** JavaScript helpers *)

Module JS.

(** Truthiness of a value that is a string, [null] or [undefined]:
    the empty string is falsy. *)
Definition truthy (r : option string) : bool :=
  match r with
  | Some s => negb (String.eqb s "")
  | None => false
  end.

(** [Array.prototype.indexOf]: the first index holding [x], [-1] if none. *)
Fixpoint indexOf_from (l : list string) (x : string) (i : Z) : Z :=
  match l with
  | [] => -1
  | y :: l' => if String.eqb y x then i else indexOf_from l' x (i + 1)
  end.

Definition indexOf (l : list string) (x : string) : Z := indexOf_from l x 0.

(** [arr[i]] for a numeric index: [undefined] outside the array. *)
Definition at_index {A} (l : list A) (i : Z) : option A :=
  if decide (0 ≤ i) then l !! Z.to_nat i else None.

(** [arr.length]. *)
Definition len {A} (l : list A) : Z := Z.of_nat (length l).

(** [x || d] where [x] is a number or [undefined]: [0] is falsy too. *)
Definition or_default (x : option Z) (d : Z) : Z :=
  match x with
  | Some v => if decide (v = 0) then d else v
  | None => d
  end.

End JS.

(** ** A JavaScript [Map] with string keys

    A [Map] iterates in insertion order, [set] on a present key keeps the
    key's position, [delete] removes the entry.  The order matters to the
    scheduler because the candidates are collected by iterating the map and
    then sorted by a stable sort. *)

Module OMap.
Section Ops.
Context {V : Type}.

Fixpoint get (m : list (string * V)) (k : string) : option V :=
  match m with
  | [] => None
  | (k', v) :: m' => if String.eqb k' k then Some v else get m' k
  end.

Definition has (m : list (string * V)) (k : string) : bool :=
  match get m k with Some _ => true | None => false end.

Fixpoint set (m : list (string * V)) (k : string) (v : V) : list (string * V) :=
  match m with
  | [] => [(k, v)]
  | (k', v') :: m' =>
      if String.eqb k' k then (k, v) :: m' else (k', v') :: set m' k v
  end.

Fixpoint delete (m : list (string * V)) (k : string) : list (string * V) :=
  match m with
  | [] => []
  | (k', v') :: m' =>
      if String.eqb k' k then m' else (k', v') :: delete m' k
  end.
End Ops.
End OMap.

(** ** The priority queue with line-cutting *)

Module PriorityQueue.

(** The value stored in [priorityMap]: [{ priority, addedAt }]. *)
Record Info := mkInfo { priority : Z; addedAt : Z }.

#[export] Instance Info_eq_dec : EqDecision Info.
Proof. solve_decision. Defined.

(** An element of [readyPriorityUrls]: [{ url, ...info }]. *)
Record Ready := mkReady { r_url : string; r_priority : Z; r_addedAt : Z }.

Record t := mk {
  urls : list string;
  currentIndex : Z;
  priorityMap : list (string * Info);
  lastPriorityCheck : gmap string Z;
  maxLineCuts : Z;
  priorityCheckInterval : Z
}.

(** [constructor()]. *)
Definition new : t :=
  {| urls := []; currentIndex := 0; priorityMap := [];
     lastPriorityCheck := ∅; maxLineCuts := 5;
     priorityCheckInterval := 30000 |}.

(** [initialize(urls)]. *)
Definition initialize (us : list string) (q : t) : t :=
  {| urls := us; currentIndex := 0; priorityMap := [];
     lastPriorityCheck := ∅; maxLineCuts := maxLineCuts q;
     priorityCheckInterval := priorityCheckInterval q |}.

Definition with_priorities (q : t) (pm : list (string * Info))
    (lc : gmap string Z) : t :=
  {| urls := urls q; currentIndex := currentIndex q; priorityMap := pm;
     lastPriorityCheck := lc; maxLineCuts := maxLineCuts q;
     priorityCheckInterval := priorityCheckInterval q |}.

Definition with_index (q : t) (i : Z) : t :=
  {| urls := urls q; currentIndex := i; priorityMap := priorityMap q;
     lastPriorityCheck := lastPriorityCheck q; maxLineCuts := maxLineCuts q;
     priorityCheckInterval := priorityCheckInterval q |}.

(** [setPriority(url, priority, reason)]; [now] is the value of
    [Date.now()] during the call.  The reason is only logged. *)
Definition setPriority (url : string) (p : Z) (now : Z) (q : t) : t :=
  if decide (p = 0) then
    if OMap.has (priorityMap q) url then
      with_priorities q (OMap.delete (priorityMap q) url)
                      (base.delete url (lastPriorityCheck q))
    else q
  else
    match OMap.get (priorityMap q) url with
    | Some existing =>
        if decide (priority existing = p) then
          with_priorities q
            (OMap.set (priorityMap q) url (mkInfo (priority existing) now))
            (lastPriorityCheck q)
        else
          with_priorities q (OMap.set (priorityMap q) url (mkInfo p now))
                          (lastPriorityCheck q)
    | None =>
        with_priorities q (OMap.set (priorityMap q) url (mkInfo p now))
                        (lastPriorityCheck q)
    end.

(** The table [maxCutsForPriority] of [canCutInLine]. *)
Definition maxCutsForPriority (q : t) (p : Z) : option Z :=
  if decide (p = 1) then Some (maxLineCuts q * 2)
  else if decide (p = 2) then Some (maxLineCuts q)
  else if decide (p = 3) then Some (maxLineCuts q / 2)
  else None.

(** The [cutDistance] computed by [canCutInLine] for an index found by
    [indexOf]. *)
Definition cutDistance (q : t) (urlIndex : Z) : Z :=
  if decide (urlIndex >= currentIndex q) then urlIndex - currentIndex q
  else (JS.len (urls q) - currentIndex q) + urlIndex.

Definition canCutInLine (q : t) (url : string) (p : Z) : bool :=
  let urlIndex := JS.indexOf (urls q) url in
  if decide (urlIndex = -1) then false
  else bool_decide
         (cutDistance q urlIndex ≤ JS.or_default (maxCutsForPriority q p) 0).

(** The comparator given to [sort]. *)
Definition compare (a b : Ready) : Z :=
  if decide (r_priority a ≠ r_priority b) then r_priority a - r_priority b
  else r_addedAt a - r_addedAt b.

(** [Array.prototype.sort] is a stable sort; with a comparator that is a
    total preorder its result is the one of stable insertion. *)
Fixpoint insert_sorted (a : Ready) (l : list Ready) : list Ready :=
  match l with
  | [] => [a]
  | b :: l' =>
      if decide (compare a b ≤ 0) then a :: b :: l'
      else b :: insert_sorted a l'
  end.

Fixpoint sort (l : list Ready) : list Ready :=
  match l with
  | [] => []
  | a :: l' => insert_sorted a (sort l')
  end.

(** The throttle test of the first loop of [getNextPriorityUrl]. *)
Definition isReady (now : Z) (q : t) (url : string) : bool :=
  let lastCheck := JS.or_default (lastPriorityCheck q !! url) 0 in
  bool_decide (now - lastCheck >= priorityCheckInterval q).

Fixpoint collectReady (now : Z) (q : t) (m : list (string * Info))
    : list Ready :=
  match m with
  | [] => []
  | (url, info) :: m' =>
      if isReady now q url
      then mkReady url (priority info) (addedAt info) :: collectReady now q m'
      else collectReady now q m'
  end.

Definition readyPriorityUrls (now : Z) (q : t) : list Ready :=
  collectReady now q (priorityMap q).

(** The second loop of [getNextPriorityUrl]: the first element that can
    cut in line. *)
Fixpoint firstCutter (q : t) (l : list Ready) : option Ready :=
  match l with
  | [] => None
  | r :: l' =>
      if canCutInLine q (r_url r) (r_priority r) then Some r
      else firstCutter q l'
  end.

(** [getNextPriorityUrl()]. *)
Definition getNextPriorityUrl (now : Z) (q : t) : option string * t :=
  let ready := readyPriorityUrls now q in
  match ready with
  | [] => (None, q)
  | _ =>
      match firstCutter q (sort ready) with
      | Some r =>
          (Some (r_url r),
           with_priorities q (priorityMap q)
             (<[r_url r := now]> (lastPriorityCheck q)))
      | None => (None, q)
      end
  end.

(** [getNextUrl()]. *)
Definition getNextUrl (now : Z) (q : t) : option string * t :=
  if decide (JS.len (urls q) = 0) then (None, q)
  else
    let '(priorityUrl, q1) := getNextPriorityUrl now q in
    if JS.truthy priorityUrl then (priorityUrl, q1)
    else
      (JS.at_index (urls q1) (currentIndex q1),
       with_index q1 (Z.rem (currentIndex q1 + 1) (JS.len (urls q1)))).

Definition getPriorityName (p : Z) : string :=
  if decide (p = 1) then "HIGH"
  else if decide (p = 2) then "MEDIUM"
  else if decide (p = 3) then "LOW"
  else "UNKNOWN".

(** The object returned by [getStatus()].  [cycle] is [None] when the
    division by [urls.length] is a division by zero, whose JavaScript
    result is not a finite number. *)
Record Status := mkStatus {
  totalUrls : Z;
  currentPosition : Z;
  cycle : option Z;
  priorityStats : gmap string Z
}.

Fixpoint countPriorities (m : list (string * Info)) (stats : gmap string Z)
    : gmap string Z :=
  match m with
  | [] => stats
  | (_, info) :: m' =>
      let name := getPriorityName (priority info) in
      countPriorities m'
        (<[name := JS.or_default (stats !! name) 0 + 1]> stats)
  end.

(** [getStatus()]; [Math.floor(a / b)] is [a / b] on [Z] for [b > 0]. *)
Definition getStatus (q : t) : Status :=
  {| totalUrls := JS.len (urls q);
     currentPosition := currentIndex q + 1;
     cycle := if decide (JS.len (urls q) = 0) then None
              else Some (currentIndex q / JS.len (urls q) + 1);
     priorityStats := countPriorities (priorityMap q) ∅ |}.

End PriorityQueue.

(** ** The stock bot: rotation building and change detection *)

Module StockBot.

(** *** [interleaveUrls] *)

Record Product := mkProduct {
  baseUrl : string;
  count : Z;
  spuExtId : Z;
  p_urls : list string
}.

(** [queue.length > 0]. *)
Definition nonEmpty (queue : list string) : bool :=
  match queue with [] => false | _ => true end.

(** One execution of the [for] loop: every queue that is not empty gives
    its first element ([shift]), in the order of the queues. *)
Fixpoint takeHeads (queues : list (list string))
    : list string * list (list string) :=
  match queues with
  | [] => ([], [])
  | queue :: rest =>
      let '(taken, rest') := takeHeads rest in
      match queue with
      | [] => (taken, [] :: rest')
      | x :: queue' => (x :: taken, queue' :: rest')
      end
  end.

(** The number of URLs still queued; it decreases at every turn of the
    [while] loop. *)
Definition remaining (queues : list (list string)) : nat :=
  length (concat queues).

Lemma takeHeads_remaining_le queues :
  (remaining (takeHeads queues).2 ≤ remaining queues)%nat.
Proof.
  unfold remaining. induction queues as [|queue queues IH]; [done|].
  cbn. destruct (takeHeads queues) as [taken rest].
  destruct queue; cbn in *; rewrite ?length_app; lia.
Qed.

Lemma takeHeads_remaining_lt queues :
  existsb nonEmpty queues = true →
  (remaining (takeHeads queues).2 < remaining queues)%nat.
Proof.
  induction queues as [|queue queues IH]; [done|]. cbn.
  pose proof (takeHeads_remaining_le queues) as Hle. unfold remaining in *.
  destruct (takeHeads queues) as [taken rest]. destruct queue; cbn in *.
  - intros H. specialize (IH H). lia.
  - intros _. rewrite !length_app. lia.
Qed.

(** The [while (urlQueues.some(queue => queue.length > 0))] loop. *)
Equations? interleaveLoop (urlQueues : list (list string))
    (interleavedUrls : list string) : list string
    by wf (remaining urlQueues) lt :=
  interleaveLoop urlQueues interleavedUrls
    with inspect (existsb nonEmpty urlQueues) := {
    | exist _ true Hsome =>
        interleaveLoop (takeHeads urlQueues).2
                       (interleavedUrls ++ (takeHeads urlQueues).1)
    | exist _ false Hnone => interleavedUrls }.
Proof. by apply takeHeads_remaining_lt. Qed.

(** [interleaveUrls()]: the rotation handed to the priority queue. *)
Definition interleaveUrls (products : list Product)
    (queue : PriorityQueue.t) : PriorityQueue.t :=
  PriorityQueue.initialize (interleaveLoop (p_urls <$> products) []) queue.

(** *** Stock entries

    A stock entry is an object with string-valued properties; an entry
    read from a TSV file has the properties named by the file's header. *)

Definition stateKeys : list string :=
  ["state0"; "state1"; "state2"; "state3"; "state4"; "state5"].

(** [Array.prototype.join]: [undefined] elements read as empty strings. *)
Definition join (sep : string) (l : list (option string)) : string :=
  match l with
  | [] => ""
  | x :: l' =>
      foldl (λ acc y, acc +:+ sep +:+ default "" y) (default "" x) l'
  end.

(** [hasDataChanged(existingEntry, newEntry)]. *)
Definition hasDataChanged (existingEntry : option (gmap string string))
    (newEntry : gmap string string) : bool :=
  match existingEntry with
  | None => true
  | Some existing =>
      let oldStates := join " " ((λ k, existing !! k) <$> stateKeys) in
      let newStates := join " " ((λ k, newEntry !! k) <$> stateKeys) in
      negb (String.eqb oldStates newStates)
      || negb (bool_decide (existing !! "stock" = newEntry !! "stock"))
  end.

(** *** [processStockData] *)

(** An element of [box_list]. *)
Record Box := mkBox {
  position : Z;
  state : Z;
  box_no : option string
}.

Record Data := mkData { spu_ext_id : Z; box_list : option (list Box) }.

(** The JSON answer handed to [processStockData]. *)
Record Extracted := mkExtracted { data : option Data }.

(** What the bot does to the outside: rewriting the TSV file of a product
    ([fs.writeFile] in [updateTsvFile]) and handing an update to the web
    server ([webServer.broadcastUpdate], which sends it to the clients that
    are connected). *)
Inductive Effect :=
| WriteTsv (spu : Z) (content : string)
| BroadcastUpdate (spu : Z) (url : string) (entry : gmap string string).

Record t := mk {
  stockData : gmap Z (list (string * gmap string string));
  priorityQueue : PriorityQueue.t;
  webServer : bool
}.

Definition tab : string := String (Ascii.ascii_of_nat 9) "".
Definition newline : string := String (Ascii.ascii_of_nat 10) "".

Definition headers : list string :=
  ["url"; "state0"; "state1"; "state2"; "state3"; "state4"; "state5";
   "stock"; "lastChecked"].

(** [s || ''] for a string or [undefined]. *)
Definition or_empty (s : option string) : string := default "" s.

(** The text written by [updateTsvFile]. *)
Definition tsvContent (urlMap : list (string * gmap string string)) : string :=
  let headerLine := join tab (Some <$> headers) in
  let dataLines :=
    (λ e : string * gmap string string,
       join tab ((λ h, Some (or_empty (e.2 !! h))) <$> headers)) <$> urlMap in
  join newline (Some <$> (headerLine :: dataLines)).

(** [updateTsvFile(spuExtId)]: nothing is written for a missing or empty
    map. *)
Definition updateTsvFile (spu : Z) (st : t) : list Effect :=
  match stockData st !! spu with
  | None => []
  | Some [] => []
  | Some urlMap => [WriteTsv spu (tsvContent urlMap)]
  end.

Section Process.
(** Library functions and the environment: [String.prototype.trim],
    [Number.prototype.toString], and the map that
    [loadExistingTsvData] builds from the TSV file of a product (empty
    when there is no file). *)
Variable trim : string → string.
Variable toString : Z → string.
Variable loadExistingTsvData : Z → list (string * gmap string string).

(** [box.position >= 1 && box.position <= 6]. *)
Definition inWindow (box : Box) : bool :=
  bool_decide (1 ≤ position box) && bool_decide (position box ≤ 6).

(** [box.box_no && box.box_no.trim() !== '']. *)
Definition hasBoxNo (box : Box) : bool :=
  match box_no box with
  | Some s => negb (String.eqb s "") && negb (String.eqb (trim s) "")
  | None => false
  end.

(** [updateUrlPriority(url, extractedData)] for a present [box_list]. *)
Definition updateUrlPriority (url : string) (boxList : list Box)
    (now : Z) (q : PriorityQueue.t) : PriorityQueue.t :=
  let hasReserved :=
    existsb (λ b, inWindow b && bool_decide (state b = 2)) boxList in
  let hasInStock :=
    existsb (λ b, inWindow b && bool_decide (state b = 0) && hasBoxNo b)
            boxList in
  if hasReserved && hasInStock then PriorityQueue.setPriority url 1 now q
  else if hasReserved then PriorityQueue.setPriority url 2 now q
  else if hasInStock then PriorityQueue.setPriority url 3 now q
  else PriorityQueue.setPriority url 0 now q.

(** The six state slots filled by the [forEach] of [processStockData]. *)
Definition collectStates (boxList : list Box) : list string :=
  foldl (λ states b,
           if inWindow b
           then <[Z.to_nat (position b - 1) := toString (state b)]> states
           else states)
        (replicate 6 "") boxList.

Definition collectHasStock (boxList : list Box) : bool :=
  existsb (λ b, inWindow b && hasBoxNo b) boxList.

Definition stockEntry (url : string) (boxList : list Box)
    (lastChecked : string) : gmap string string :=
  let states := collectStates boxList in
  <["url" := url]>
  (<["state0" := or_empty (states !! 0%nat)]>
  (<["state1" := or_empty (states !! 1%nat)]>
  (<["state2" := or_empty (states !! 2%nat)]>
  (<["state3" := or_empty (states !! 3%nat)]>
  (<["state4" := or_empty (states !! 4%nat)]>
  (<["state5" := or_empty (states !! 5%nat)]>
  (<["stock" := if collectHasStock boxList then "true" else "false"]>
  (<["lastChecked" := lastChecked]> ∅)))))))).

(** The state after the load step: the product's map is read from its
    file the first time the product is met. *)
Definition ensureLoaded (spu : Z) (st : t) : t :=
  match stockData st !! spu with
  | Some _ => st
  | None =>
      mk (<[spu := loadExistingTsvData spu]> (stockData st))
         (priorityQueue st) (webServer st)
  end.

(** The map of a product once loaded. *)
Definition urlMapOf (spu : Z) (st : t) : list (string * gmap string string) :=
  default [] (stockData (ensureLoaded spu st) !! spu).

(** [processStockData(extractedData, url, proxyRegion)].  [now] is
    [Date.now()] and [lastChecked] is [new Date().toISOString()] at the
    call; the region is only logged.  The result is the new state and
    the effects of the call in the order they happen.  The file system is
    taken to work: reading and writing the TSV file do not throw. *)
Definition processStockData (extractedData : Extracted) (url : string)
    (now : Z) (lastChecked : string) (st : t) : t * list Effect :=
  match data extractedData with
  | None => (st, [])
  | Some d =>
      match box_list d with
      | None => (st, [])
      | Some boxList =>
          let spu := spu_ext_id d in
          let st1 :=
            mk (stockData st)
               (updateUrlPriority url boxList now (priorityQueue st))
               (webServer st) in
          let entry := stockEntry url boxList lastChecked in
          let st2 := ensureLoaded spu st1 in
          let urlMap := default [] (stockData st2 !! spu) in
          let existingEntry := OMap.get urlMap url in
          let dataChanged := hasDataChanged existingEntry entry in
          let st3 :=
            if dataChanged
            then mk (<[spu := OMap.set urlMap url entry]> (stockData st2))
                    (priorityQueue st2) (webServer st2)
            else st2 in
          let written :=
            if dataChanged then updateTsvFile spu st3 else [] in
          let broadcast :=
            if webServer st3 then [BroadcastUpdate spu url entry] else [] in
          (st3, written ++ broadcast)
      end
  end.
End Process.

End StockBot.

(** ** The proxy manager: retries and region assignment *)

Module ProxyManager.

Record RetryConfig := mkRetryConfig {
  maxRetries : Z;
  baseDelay : Z;
  maxDelay : Z
}.

(** [this.retryConfig] as set by the constructor. *)
Definition retryConfig : RetryConfig :=
  {| maxRetries := 4; baseDelay := 1500; maxDelay := 15000 |}.

(** What is read of a thrown error: [error.message] and [error.code]. *)
Record Error := mkError {
  message : option string;
  code : option string
}.

(** [String.prototype.includes]. *)
Fixpoint includes (s sub : string) : bool :=
  String.prefix sub s ||
  match s with
  | EmptyString => false
  | String _ s' => includes s' sub
  end.

(** [s?.includes(sub)], read as a condition. *)
Definition opt_includes (s : option string) (sub : string) : bool :=
  match s with
  | Some s => includes s sub
  | None => false
  end.

Definition retryableErrors : list string :=
  ["Too many concurrent attempts"; "Throttling"; "RequestLimitExceeded";
   "ServiceUnavailable"; "InternalError"; "Rate exceeded"].

(** [shouldRetryError(error)]. *)
Definition shouldRetryError (error : Error) : bool :=
  existsb (λ retryableError,
             opt_includes (message error) retryableError
             || opt_includes (code error) retryableError)
          retryableErrors.

Section Retry.
(** The operation acts on a world [W] and returns a result or throws;
    [delay ms] is the passing of [ms] milliseconds. *)
Context {W R : Type}.
Variable config : RetryConfig.
Variable operation : W → (R + Error) * W.
Variable delay : Z → W → W.

(** What can be observed of one run: every invocation of the operation
    with its result, and every wait. *)
Inductive Event :=
| Attempt (attempt : Z) (result : R + Error)
| Wait (ms : Z).

(** The run ends by returning a value or by throwing; [throw lastError]
    after a loop that never ran throws [undefined]. *)
Inductive Outcome :=
| Returned (r : R)
| Thrown (e : option Error).

(** The [for] loop, with [n] the number of iterations left before
    [attempt <= maxRetries] fails. *)
Fixpoint retryLoop (n : nat) (attempt : Z) (lastError : option Error)
    (w : W) : Outcome * W * list Event :=
  match n with
  | O => (Thrown lastError, w, [])
  | S n' =>
      let '(result, w1) := operation w in
      match result with
      | inl r => (Returned r, w1, [Attempt attempt result])
      | inr error =>
          if negb (shouldRetryError error)
             || bool_decide (attempt = maxRetries config)
          then (Thrown (Some error), w1, [Attempt attempt result])
          else
            let ms := Z.min (baseDelay config * 2 ^ (attempt - 1))
                            (maxDelay config) in
            let '(out, w2, log) :=
              retryLoop n' (attempt + 1) (Some error) (delay ms w1) in
            (out, w2, Attempt attempt result :: Wait ms :: log)
      end
  end.

(** [retryWithBackoff(operation, operationName, region)]; the name and
    the region are only logged. *)
Definition retryWithBackoff (w : W) : Outcome * W * list Event :=
  retryLoop (Z.to_nat (maxRetries config)) 1 None w.
End Retry.

Arguments Event R : clear implicits.
Arguments Outcome R : clear implicits.
Arguments Attempt {R}.
Arguments Wait {R}.
Arguments Returned {R}.
Arguments Thrown {R}.

(** *** Regions *)

(** [this.regions] as set by the constructor. *)
Definition defaultRegions : list string :=
  ["us-east-1"; "us-east-2"; "us-west-1"; "ca-central-1"].

(** The fields behind the round-robin; the index is [None] once it is
    [NaN]. *)
Record Regions := mkRegions {
  regions : list string;
  currentRegionIndex : option Z
}.

Definition newRegions : Regions :=
  {| regions := defaultRegions; currentRegionIndex := Some 0 |}.

(** [a % b] on numbers that are integers or [NaN]; the remainder by zero
    is [NaN]. *)
Definition js_rem (a : option Z) (b : Z) : option Z :=
  match a with
  | Some a => if decide (b = 0) then None else Some (Z.rem a b)
  | None => None
  end.

(** [arr[i]] where [i] may be [NaN]. *)
Definition at_opt (l : list string) (i : option Z) : option string :=
  match i with
  | Some i => JS.at_index l i
  | None => None
  end.

(** [getNextRegion()]. *)
Definition getNextRegion (pm : Regions) : option string * Regions :=
  (at_opt (regions pm) (currentRegionIndex pm),
   {| regions := regions pm;
      currentRegionIndex :=
        js_rem ((λ i, i + 1) <$> currentRegionIndex pm)
               (JS.len (regions pm)) |}).

(** [regions || this.regions]: only [null] (or a missing argument) is
    falsy, every array is truthy. *)
Definition availableRegions (pm : Regions) (supplied : option (list string))
    : list string :=
  match supplied with
  | Some l => l
  | None => regions pm
  end.

(** The first loop of [createProxies(count, regions)]: the region of each
    of the [count] proxies, [None] where the array read gives
    [undefined]. *)
Definition targetRegions (pm : Regions) (count : Z)
    (supplied : option (list string)) : list (option string) :=
  let available := availableRegions pm supplied in
  (λ i : nat,
     let regionIndex := js_rem (Some (Z.of_nat i)) (JS.len available) in
     at_opt available regionIndex) <$> seq 0 (Z.to_nat count).

End ProxyManager.

(** ** The proxy manager: per-region resources and concurrent callers

    [createTaskDefinition] and [ensureSecurityGroup] are [async] functions.
    A call runs without interruption from one [await] to the next; between
    two such segments other calls may run.  A caller is therefore a state
    that names the [await] it is suspended at, one step of a caller is the
    segment up to its next [await], and a schedule is the order in which
    the segments of the callers and the completions of the pending
    creations happen.  A step that is not possible (the awaited promise is
    still pending) leaves everything as it is, so that every behaviour of
    the program is the run of some schedule.

    The cloud is taken to answer every request: a lookup of the security
    group of a region finds the group if it exists, a creation request for
    a group that exists is refused with "already exists" (which
    [createNewSecurityGroup] answers by looking the group up), and the
    registration of a task definition ends with the result given by
    [registerTaskDefinition]. *)

Module RegionResources.
Import ProxyManager.

(** The state of the promise returned by one call of
    [createTaskDefinitionWithMutex(region)]. *)
Inductive PromiseState :=
| Pending
| Fulfilled (taskDefinitionArn : string)
| Rejected (error : Error).

Record Promise := mkPromise {
  pr_region : string;
  pr_state : PromiseState
}.

(** The fields of the manager read and written by the two functions, the
    promises made so far (a promise is named by its index), and what the
    cloud has seen: the regions for which a creation of a task definition
    was started, the security groups that exist, and the regions of the
    [CreateSecurityGroup] requests. *)
Record World := mkWorld {
  taskDefinitionCache : gmap string string;
  securityGroupCache : gmap string string;
  taskDefinitionMutex : gmap string nat;
  globalTaskDefinitionLock : option nat;
  promises : list Promise;
  startedCreations : list string;
  cloudGroups : gmap string string;
  createGroupCalls : list string
}.

(** A manager as the constructor leaves it, in an account without security
    groups. *)
Definition fresh : World :=
  {| taskDefinitionCache := ∅; securityGroupCache := ∅;
     taskDefinitionMutex := ∅; globalTaskDefinitionLock := None;
     promises := []; startedCreations := [];
     cloudGroups := ∅; createGroupCalls := [] |}.

(** A call of one of the two functions, by the [await] it is suspended at. *)
Inductive Caller :=
| TdStart (region : string)
| TdAwaitMutex (region : string) (p : nat)
| TdAwaitGlobal (region : string) (p : nat)
| TdAwaitCreation (region : string) (p : nat)
| SgStart (region : string)
| SgAwaitFind (region : string)
| SgAwaitUpdate (region : string) (groupId : string)
| SgAwaitCreate (region : string)
| Finished (result : string + Error).

(** The value or the error of a settled promise. *)
Definition settled (w : World) (p : nat) : option (string + Error) :=
  match promises w !! p with
  | Some (mkPromise _ (Fulfilled arn)) => Some (inl arn)
  | Some (mkPromise _ (Rejected e)) => Some (inr e)
  | _ => None
  end.

(** [createTaskDefinition] from the [while (this.globalTaskDefinitionLock)]
    loop on: wait for the global lock if it is taken; otherwise start the
    creation, record its promise as the mutex of the region and as the
    global lock, and wait for it. *)
Definition enterCreation (region : string) (w : World) : Caller * World :=
  match globalTaskDefinitionLock w with
  | Some p => (TdAwaitGlobal region p, w)
  | None =>
      let p := length (promises w) in
      (TdAwaitCreation region p,
       {| taskDefinitionCache := taskDefinitionCache w;
          securityGroupCache := securityGroupCache w;
          taskDefinitionMutex := <[region := p]> (taskDefinitionMutex w);
          globalTaskDefinitionLock := Some p;
          promises := promises w ++ [mkPromise region Pending];
          startedCreations := startedCreations w ++ [region];
          cloudGroups := cloudGroups w;
          createGroupCalls := createGroupCalls w |})
  end.

(** The [finally] block of [createTaskDefinition]. *)
Definition releaseMutexes (region : string) (p : nat) (w : World) : World :=
  {| taskDefinitionCache := taskDefinitionCache w;
     securityGroupCache := securityGroupCache w;
     taskDefinitionMutex := base.delete region (taskDefinitionMutex w);
     globalTaskDefinitionLock :=
       if decide (globalTaskDefinitionLock w = Some p) then None
       else globalTaskDefinitionLock w;
     promises := promises w;
     startedCreations := startedCreations w;
     cloudGroups := cloudGroups w;
     createGroupCalls := createGroupCalls w |}.

(** [this.securityGroupCache.set(region, id)], after the cloud was left
    with the groups [groups] and the creation requests [calls]. *)
Definition cacheGroup (region groupId : string) (groups : gmap string string)
    (calls : list string) (w : World) : World :=
  {| taskDefinitionCache := taskDefinitionCache w;
     securityGroupCache := <[region := groupId]> (securityGroupCache w);
     taskDefinitionMutex := taskDefinitionMutex w;
     globalTaskDefinitionLock := globalTaskDefinitionLock w;
     promises := promises w;
     startedCreations := startedCreations w;
     cloudGroups := groups;
     createGroupCalls := calls |}.

Section Steps.
(** The result of the registration started for promise [p] in a region,
    after the retries, and the identifier the cloud gives to a new group. *)
Variable registerTaskDefinition : string → nat → string + Error.
Variable newGroupId : string → string.

(** One segment of a caller; [None] when the caller cannot move. *)
Definition callerStep (c : Caller) (w : World) : option (Caller * World) :=
  match c with
  | TdStart region =>
      match taskDefinitionCache w !! region with
      | Some arn => Some (Finished (inl arn), w)
      | None =>
          match taskDefinitionMutex w !! region with
          | Some p => Some (TdAwaitMutex region p, w)
          | None => Some (enterCreation region w)
          end
      end
  | TdAwaitMutex region p =>
      match settled w p with
      | None => None
      | Some (inr e) => Some (Finished (inr e), w)
      | Some (inl _) =>
          match taskDefinitionCache w !! region with
          | Some arn => Some (Finished (inl arn), w)
          | None => Some (enterCreation region w)
          end
      end
  | TdAwaitGlobal region p =>
      match settled w p with
      | None => None
      | Some (inr e) => Some (Finished (inr e), w)
      | Some (inl _) => Some (enterCreation region w)
      end
  | TdAwaitCreation region p =>
      match settled w p with
      | None => None
      | Some result => Some (Finished result, releaseMutexes region p w)
      end
  | SgStart region =>
      match securityGroupCache w !! region with
      | Some groupId => Some (Finished (inl groupId), w)
      | None => Some (SgAwaitFind region, w)
      end
  | SgAwaitFind region =>
      match cloudGroups w !! region with
      | Some groupId => Some (SgAwaitUpdate region groupId, w)
      | None => Some (SgAwaitCreate region, w)
      end
  | SgAwaitUpdate region groupId =>
      Some (Finished (inl groupId),
            cacheGroup region groupId (cloudGroups w) (createGroupCalls w) w)
  | SgAwaitCreate region =>
      let calls := createGroupCalls w ++ [region] in
      match cloudGroups w !! region with
      | Some groupId =>
          Some (Finished (inl groupId),
                cacheGroup region groupId (cloudGroups w) calls w)
      | None =>
          let groupId := newGroupId region in
          Some (Finished (inl groupId),
                cacheGroup region groupId
                  (<[region := groupId]> (cloudGroups w)) calls w)
      end
  | Finished _ => None
  end.

(** The end of [createTaskDefinitionWithMutex] for the pending promise [p]:
    on success the ARN is cached and the promise fulfilled, otherwise the
    promise is rejected. *)
Definition complete (p : nat) (w : World) : option World :=
  match promises w !! p with
  | Some (mkPromise region Pending) =>
      match registerTaskDefinition region p with
      | inl arn =>
          Some {| taskDefinitionCache :=
                    <[region := arn]> (taskDefinitionCache w);
                  securityGroupCache := securityGroupCache w;
                  taskDefinitionMutex := taskDefinitionMutex w;
                  globalTaskDefinitionLock := globalTaskDefinitionLock w;
                  promises :=
                    <[p := mkPromise region (Fulfilled arn)]> (promises w);
                  startedCreations := startedCreations w;
                  cloudGroups := cloudGroups w;
                  createGroupCalls := createGroupCalls w |}
      | inr e =>
          Some {| taskDefinitionCache := taskDefinitionCache w;
                  securityGroupCache := securityGroupCache w;
                  taskDefinitionMutex := taskDefinitionMutex w;
                  globalTaskDefinitionLock := globalTaskDefinitionLock w;
                  promises :=
                    <[p := mkPromise region (Rejected e)]> (promises w);
                  startedCreations := startedCreations w;
                  cloudGroups := cloudGroups w;
                  createGroupCalls := createGroupCalls w |}
      end
  | _ => None
  end.

(** What happens next: caller [i] runs its next segment, or the creation
    behind promise [p] ends. *)
Inductive Move :=
| Run (i : nat)
| Complete (p : nat).

Definition step (cfg : World * list Caller) (m : Move) : World * list Caller :=
  match m with
  | Run i =>
      match cfg.2 !! i with
      | Some c =>
          match callerStep c cfg.1 with
          | Some (c', w') => (w', <[i := c']> cfg.2)
          | None => cfg
          end
      | None => cfg
      end
  | Complete p =>
      match complete p cfg.1 with
      | Some w' => (w', cfg.2)
      | None => cfg
      end
  end.

Definition exec (schedule : list Move) (cfg : World * list Caller)
    : World * list Caller :=
  foldl step cfg schedule.
End Steps.

End RegionResources.

(** ** The stock bot: reading the TSV files and creating the workers *)

Module StockStore.
Import StockBot.

(** [String.prototype.split] with a separator of one character: the pieces
    between the separators, one piece more than there are separators. *)
Fixpoint split (sep : Ascii.ascii) (s : string) : list string :=
  match s with
  | EmptyString => [""]
  | String c s' =>
      if Ascii.eqb c sep then "" :: split sep s'
      else
        match split sep s' with
        | piece :: pieces => String c piece :: pieces
        | [] => [String c ""]
        end
  end.

Definition tabChar : Ascii.ascii := Ascii.ascii_of_nat 9.
Definition newlineChar : Ascii.ascii := Ascii.ascii_of_nat 10.

Section Load.
(** [String.prototype.trim]. *)
Variable trim : string → string.

(** [line.trim()] as a condition: the trimmed line is not empty. *)
Definition notBlank (line : string) : bool := negb (String.eqb (trim line) "").

(** The object built by [headers.forEach((header, index) => ...)]. *)
Definition readEntry (fileHeaders values : list string) : gmap string string :=
  foldl (λ entry '(index, header),
           <[header := or_empty (values !! index)]> entry)
        ∅ (imap (λ index header, (index, header)) fileHeaders).

(** The loop over the data lines: an entry with a truthy [url] is stored
    under that URL. *)
Definition readRows (fileHeaders rows : list string)
    : list (string * gmap string string) :=
  foldl (λ urlMap line,
           let entry := readEntry fileHeaders (split tabChar line) in
           match entry !! "url" with
           | Some url =>
               if String.eqb url "" then urlMap else OMap.set urlMap url entry
           | None => urlMap
           end)
        [] rows.

(** [loadExistingTsvData(spuExtId)], as the map it stores for the product;
    [file] is the content of the product's TSV file, [None] when reading it
    throws. *)
Definition loadExistingTsvData (file : option string)
    : list (string * gmap string string) :=
  match file with
  | None => []
  | Some content =>
      match List.filter notBlank (split newlineChar content) with
      | [] => []
      | [_] => []
      | headerLine :: rows => readRows (split tabChar headerLine) rows
      end
  end.
End Load.

(** *** Workers *)

(** A [PageWorker] as the constructor leaves it: its number and the proxy
    it is bound to ([undefined] is [None]). *)
Record PageWorker (P : Type) := mkPageWorker {
  w_id : Z;
  w_proxy : option P
}.
Arguments mkPageWorker {P}.
Arguments w_id {P}.
Arguments w_proxy {P}.

(** [initializeWorkers(urlCount)]: the list [this.workers] after the call.
    Creating the pages of the workers is taken to succeed. *)
Definition initializeWorkers {P} (urlCount : Z) (proxies : list P)
    (workers : list (PageWorker P)) : list (PageWorker P) :=
  let workerCount := Z.min urlCount (JS.len proxies) in
  workers ++
  ((λ i : nat, mkPageWorker (Z.of_nat i + 1) (proxies !! i))
     <$> seq 0 (Z.to_nat workerCount)).

End StockStore.

(** ** The fleet: region choice of the command line, validation, teardown
    and the batches of [createProxies] *)

Module Fleet.
Import ProxyManager.

(** *** The regions chosen by the command line *)

Definition commaChar : Ascii.ascii := Ascii.ascii_of_nat 44.

(** [options.regions ? options.regions.split(',') : null] of
    [createProxiesParallel]: the option is a string or missing, and the
    empty string is falsy. *)
Definition cliRegions (optionRegions : option string) : option (list string) :=
  if JS.truthy optionRegions
  then StockStore.split commaChar <$> optionRegions
  else None.

(** [options.regions ? options.regions.split(',')[i % options.regions.split(',').length] : null]
    of [createProxiesSequential]. *)
Definition cliRegion (optionRegions : option string) (i : nat) : option string :=
  match cliRegions optionRegions with
  | Some pieces =>
      at_opt pieces (js_rem (Some (Z.of_nat i)) (JS.len pieces))
  | None => None
  end.

(** The region used by [createProxy(region)]:
    [region || this.getNextRegion()]. *)
Definition createProxyRegion (region : option string) (pm : Regions)
    : option string * Regions :=
  if JS.truthy region then (region, pm) else getNextRegion pm.

(** The regions that the [for] loop of [createProxiesSequential] hands to
    [createSingleProxy], for the iterations listed. *)
Fixpoint sequentialLoop (optionRegions : option string) (iterations : list nat)
    (pm : Regions) : list (option string) * Regions :=
  match iterations with
  | [] => ([], pm)
  | i :: rest =>
      let '(region, pm1) :=
        createProxyRegion (cliRegion optionRegions i) pm in
      let '(regions, pm2) := sequentialLoop optionRegions rest pm1 in
      (region :: regions, pm2)
  end.

Definition sequentialRegions (optionRegions : option string) (count : Z)
    (pm : Regions) : list (option string) * Regions :=
  sequentialLoop optionRegions (seq 0 (Z.to_nat count)) pm.

(** *** The proxies that the manager knows *)

Record Proxy := mkProxy {
  p_url : string;
  p_region : string;
  p_serviceName : string;
  p_publicIp : string;
  p_createdAt : option string
}.

(** An element of [response.services]. *)
Record Service := mkService {
  s_status : option string;
  s_runningCount : option Z
}.

(** The readings of the clock during one call of [saveState]: the value
    of [new Date().toISOString()] when the proxy at index [i] is written,
    and the one stored as [lastUpdated]. *)
Record Clock := mkClock {
  createdAtFor : nat → string;
  updatedAt : string
}.

(** The state handed to [fs.writeFile]: the proxies with their [url],
    [region], [serviceName], [publicIp] and [createdAt], and
    [lastUpdated]. *)
Record StateFile := mkStateFile {
  savedProxies : list Proxy;
  lastUpdated : string
}.

(** The manager's list and what it handed to [fs.writeFile], oldest
    first.  A failing write is only logged by [saveState]. *)
Record Manager := mkManager {
  activeProxies : list Proxy;
  saves : list StateFile
}.

(** The object written for a proxy: [createdAt] is
    [proxy.createdAt || new Date().toISOString()], so a missing or empty
    one is replaced by the time of the write. *)
Definition savedProxy (now : string) (proxy : Proxy) : Proxy :=
  mkProxy (p_url proxy) (p_region proxy) (p_serviceName proxy)
          (p_publicIp proxy)
          (if JS.truthy (p_createdAt proxy) then p_createdAt proxy
           else Some now).

(** [saveState()]; the list of the manager itself is not changed. *)
Definition saveState (clock : Clock) (pm : Manager) : Manager :=
  mkManager (activeProxies pm)
    (saves pm ++
     [mkStateFile
        (imap (λ i proxy, savedProxy (createdAtFor clock i) proxy)
              (activeProxies pm))
        (updatedAt clock)]).

(** [service?.status === 'ACTIVE' && service.runningCount > 0] for
    [service = response.services[0]]; [None] is a request that threw. *)
Definition serviceActive (response : option (list Service)) : bool :=
  match response with
  | Some (service :: _) =>
      bool_decide (s_status service = Some "ACTIVE") &&
      match s_runningCount service with
      | Some n => bool_decide (0 < n)
      | None => false
      end
  | _ => false
  end.

(** [validateActiveProxies()]; [describe i proxy] is the answer to the
    request sent for the proxy at index [i], and [clock] the readings of
    the clock if the state is saved. *)
Definition validateActiveProxies
    (describe : nat → Proxy → option (list Service)) (clock : Clock)
    (pm : Manager) : Manager :=
  let results :=
    imap (λ i proxy,
            if serviceActive (describe i proxy) then Some proxy else None)
         (activeProxies pm) in
  let newValidProxies := omap id results in
  if decide (JS.len newValidProxies ≠ JS.len (activeProxies pm))
  then saveState clock (mkManager newValidProxies (saves pm))
  else pm.



(** *** The two phases of [createProxies] *)

(** [this.maxConcurrentOperations] as set by the constructor. *)
Definition maxConcurrentOperations : Z := 5.

(** [arr.slice(from, to)] for [0 <= from <= to]. *)
Definition slice {A} (l : list A) (from to : Z) : list A :=
  take (Z.to_nat to - Z.to_nat from) (drop (Z.to_nat from) l).

Section Create.
(** Service specifications, proxy objects and errors; the two functions
    give the way the promises of [createServiceWithProgress(region,
    serviceNum, total)] and [waitForServiceReadiness(spec, readinessNum,
    total)] settle.  A rejection reason is an error object, so that
    reading its message for the log does not throw. *)
Context {Spec Ready Err : Type}.
Variable createServiceWithProgress : option string → Z → Z → Spec + Err.
Variable waitForServiceReadiness : Spec → Z → Z → Ready + Err.

(** What the manager asks for, in order. *)
Inductive Event :=
| ServiceRequested (region : option string) (serviceNum : Z)
| Delay (ms : Z)
| ReadinessRequested (spec : Spec) (readinessNum : Z).

Record Phase1 := mkPhase1 {
  serviceSpecs : list Spec;
  serviceErrors : list Err;
  events : list Event
}.

(** The body of [batchResults.forEach]. *)
Definition settle (acc : Phase1) (result : Spec + Err) : Phase1 :=
  match result with
  | inl spec =>
      mkPhase1 (serviceSpecs acc ++ [spec]) (serviceErrors acc) (events acc)
  | inr reason =>
      mkPhase1 (serviceSpecs acc) (serviceErrors acc ++ [reason]) (events acc)
  end.

(** One batch: the requests are started in order, then the settled
    results are read in order. *)
Definition runBatch (count i : Z) (batch : list (option string))
    (acc : Phase1) : Phase1 :=
  let started :=
    mkPhase1 (serviceSpecs acc) (serviceErrors acc)
      (events acc ++
       imap (λ index region,
               ServiceRequested region (i + Z.of_nat index + 1)) batch) in
  foldl settle started
    (imap (λ index region,
             createServiceWithProgress region (i + Z.of_nat index + 1) count)
          batch).

Definition wait (ms : Z) (acc : Phase1) : Phase1 :=
  mkPhase1 (serviceSpecs acc) (serviceErrors acc) (events acc ++ [Delay ms]).

(** The [for (let i = 0; i < actualCount; i += this.maxConcurrentOperations)]
    loop, from index [i] on. *)
Equations? phase1 (count i : Z) (targetRegions : list (option string))
    (acc : Phase1) : Phase1 by wf (Z.to_nat (count - i)) lt :=
  phase1 count i targetRegions acc with decide (i < count) := {
    | left _ =>
        phase1 count (i + maxConcurrentOperations) targetRegions
          (let acc1 :=
             runBatch count i
               (slice targetRegions i (i + maxConcurrentOperations)) acc in
           if decide (i + maxConcurrentOperations < count)
           then wait 1000 acc1 else acc1)
    | right _ => acc }.
Proof. unfold maxConcurrentOperations. lia. Qed.

(** What [createProxies] returns and what it counted. *)
Record Created := mkCreated {
  successfulProxies : list Ready;
  failedServices : list Err;
  failedReadiness : list Err;
  requested : list Event
}.

Definition fulfilled {A} (result : A + Err) : option A :=
  match result with inl value => Some value | inr _ => None end.

Definition rejected {A} (result : A + Err) : option Err :=
  match result with inl _ => None | inr reason => Some reason end.

(** [createProxies(count, regions)] once the execution role is there:
    [executionRole] is the error thrown by [preCreateInfrastructure], if
    any. *)
Definition createProxies (executionRole : option Err) (pm : Regions)
    (count : Z) (regions : option (list string)) : Err + Created :=
  match executionRole with
  | Some error => inl error
  | None =>
      let targetRegions := ProxyManager.targetRegions pm count regions in
      let created := phase1 count 0 targetRegions (mkPhase1 [] [] []) in
      let specs := serviceSpecs created in
      let readinessResults :=
        imap (λ index spec,
                waitForServiceReadiness spec (Z.of_nat index + 1) (JS.len specs))
             specs in
      inr (mkCreated
             (omap fulfilled readinessResults)
             (serviceErrors created)
             (omap rejected readinessResults)
             (events created ++
              imap (λ index spec,
                      ReadinessRequested spec (Z.of_nat index + 1)) specs))
  end.
End Create.

(** *** Waiting for the task of a service *)

(** A task of the answer to [DescribeTasks], with what
    [extractPublicIpFromTask] finds for it. *)
Record Task := mkTask {
  lastStatus : string;
  taskPublicIp : option string
}.

(** The [for] loop over the tasks: the address of the first running task
    that has one. *)
Fixpoint firstRunningIp (tasks : list Task) : option string :=
  match tasks with
  | [] => None
  | task :: rest =>
      if String.eqb (lastStatus task) "RUNNING" && JS.truthy (taskPublicIp task)
      then taskPublicIp task
      else firstRunningIp rest
  end.

Inductive Waited :=
| Found (publicIp : string)
| TimedOut
| OutOfFuel.

Section Wait.
(** [poll k] is what the requests of iteration [k] give: the tasks of the
    service ([None] when a request threw), and [duration k] the
    milliseconds from the test of the [while] of iteration [k] to the
    next test. *)
Variable poll : nat → option (list Task).
Variable duration : nat → Z.

(** The [while (Date.now() - startTime < maxWaitTime)] loop from
    iteration [k] on, [elapsed] milliseconds after the start; the result
    comes with the number of iterations made. *)
Fixpoint waitLoop (fuel : nat) (maxWaitTime : Z) (k : nat) (elapsed : Z)
    : Waited * nat :=
  match fuel with
  | O => (OutOfFuel, k)
  | S fuel' =>
      if decide (elapsed < maxWaitTime) then
        match firstRunningIp (default [] (poll k)) with
        | Some publicIp => (Found publicIp, S k)
        | None => waitLoop fuel' maxWaitTime (S k) (elapsed + duration k)
        end
      else (TimedOut, k)
  end.

(** [waitForTaskRunning(region, serviceName)] with the default
    [maxWaitTime]. *)
Definition waitForTaskRunning (fuel : nat) : Waited * nat :=
  waitLoop fuel 300000 0 0.
End Wait.

Arguments Event Spec : clear implicits.
Arguments Phase1 Spec Err : clear implicits.
Arguments Created Spec Ready Err : clear implicits.
Arguments ServiceRequested {Spec}.
Arguments Delay {Spec}.
Arguments ReadinessRequested {Spec}.
End Fleet.

(** ** The web server: the connected clients and [broadcastUpdate] *)

Module WebServer.
Section Server.
(** A client is the response object of one request to [/events]. *)
Context {Client : Type} `{EqDecision Client}.

(** What happens to [this.clients]: a request to [/events] adds its
    response, the [close] event of the request deletes it, and
    [broadcastUpdate] writes the message to every client; [delivered]
    tells for which clients [client.write] does not throw. *)
Inductive Op :=
| Connect (client : Client)
| Close (client : Client)
| BroadcastUpdate (delivered : Client → bool).

(** [Set.prototype.add]: the set keeps the order of insertion. *)
Definition add (clients : list Client) (client : Client) : list Client :=
  if decide (client ∈ clients) then clients else clients ++ [client].

(** [Set.prototype.delete]. *)
Definition delete (clients : list Client) (client : Client) : list Client :=
  filter (λ c, c ≠ client) clients.

(** [broadcastUpdate(spuExtId, url, entry)]: the clients that stay and the
    clients written to, in order.  With no client nothing is written. *)
Definition broadcastUpdate (delivered : Client → bool) (clients : list Client)
    : list Client * list Client :=
  let clientsToRemove := List.filter (λ c, negb (delivered c)) clients in
  (foldl delete clients clientsToRemove, clients).

(** The clients after an operation and the clients written to by it. *)
Definition step (clients : list Client) (op : Op) : list Client * list Client :=
  match op with
  | Connect client => (add clients client, [])
  | Close client => (delete clients client, [])
  | BroadcastUpdate delivered => broadcastUpdate delivered clients
  end.

(** The clients after the operations, and the writes of each operation. *)
Fixpoint run (clients : list Client) (ops : list Op)
    : list Client * list (list Client) :=
  match ops with
  | [] => (clients, [])
  | op :: rest =>
      let '(clients1, writes) := step clients op in
      let '(clients2, log) := run clients1 rest in
      (clients2, writes :: log)
  end.
End Server.
End WebServer.

(** * Properties of the priority queue *)

Module PriorityQueueFacts.
Import PriorityQueue.

(** The position of a target in the base rotation: its first occurrence. *)
Definition position (us : list string) (u : string) (i : nat) : Prop :=
  us !! i = Some u ∧ ∀ j, (j < i)%nat → us !! j ≠ Some u.

(** [u] sits [d] forward steps from the cursor, counted circularly. *)
Definition stepsAhead (q : t) (u : string) (d : Z) : Prop :=
  ∃ i, position (urls q) u i ∧
       d = (Z.of_nat i - currentIndex q) `mod` JS.len (urls q).

(** The cut limits for a base limit of 5. *)
Definition cutLimit5 (p : Z) : Z :=
  if decide (p = 1) then 10
  else if decide (p = 2) then 5
  else if decide (p = 3) then 2
  else 0.

(** The cursor of a queue built by [initialize] and moved by [getNextUrl]. *)
Definition cursorInRange (q : t) : Prop :=
  (urls q = [] ∧ currentIndex q = 0) ∨
  0 ≤ currentIndex q < JS.len (urls q).

Definition lastCheckedAt (q : t) (u : string) : Z :=
  default 0 (lastPriorityCheck q !! u).

Definition throttleElapsed (now : Z) (q : t) (u : string) : Prop :=
  priorityCheckInterval q ≤ now - lastCheckedAt q u.

(** [a] comes no later than [b] in the order of the comparator. *)
Definition precedes (pa ta pb tb : Z) : Prop :=
  pa < pb ∨ (pa = pb ∧ ta ≤ tb).

Definition strictlyPrecedes (pa ta pb tb : Z) : Prop :=
  pa < pb ∨ (pa = pb ∧ ta < tb).

(** Calls made on a queue. *)
Inductive op :=
| SetPriority (url : string) (tier : Z) (now : Z)
| Next (now : Z).

Definition apply_op (q : t) (o : op) : t :=
  match o with
  | SetPriority u p now => setPriority u p now q
  | Next now => (getNextUrl now q).2
  end.

Definition run (ops : list op) (q : t) : t := foldl apply_op q ops.

(** *** Strings and [indexOf] *)

Lemma eqb_true_iff (a b : string) : String.eqb a b = true ↔ a = b.
Proof. apply String.eqb_eq. Qed.

Lemma indexOf_from_range us u k :
  JS.indexOf_from us u k = -1 ∨
  k ≤ JS.indexOf_from us u k < k + JS.len us.
Proof.
  revert k. induction us as [|y us IH]; intros k; [by left|].
  cbn [JS.indexOf_from]. unfold JS.len. cbn [length].
  destruct (String.eqb y u); [right; lia|].
  destruct (IH (k + 1)) as [->|H]; [by left|right].
  unfold JS.len in H. lia.
Qed.

Lemma indexOf_from_position us u k i :
  0 ≤ k →
  JS.indexOf_from us u k = i → i ≠ -1 →
  position us u (Z.to_nat (i - k)).
Proof.
  revert k i. induction us as [|y us IH]; intros k i Hk Hi Hne.
  - cbn in Hi. lia.
  - cbn [JS.indexOf_from] in Hi. destruct (String.eqb y u) eqn:E.
    + apply eqb_true_iff in E. subst. replace (i - i) with 0 by lia.
      split; [done|]. intros j Hj. cbn in Hj. lia.
    + assert (y ≠ u) as Hyu.
      { intros ->. rewrite String.eqb_refl in E. done. }
      destruct (indexOf_from_range us u (k + 1)) as [H|H]; [lia|].
      specialize (IH (k + 1) i ltac:(lia) Hi Hne) as [IH1 IH2].
      replace (Z.to_nat (i - k)) with (S (Z.to_nat (i - (k + 1)))) by lia.
      split; [done|]. intros [|j] Hj; cbn.
      * congruence.
      * apply IH2. lia.
Qed.

Lemma position_indexOf_from us u k i :
  position us u i → JS.indexOf_from us u k = k + Z.of_nat i.
Proof.
  revert k i. induction us as [|y us IH]; intros k i [H1 H2].
  - done.
  - cbn [JS.indexOf_from]. destruct i as [|i].
    + cbn in H1. injection H1 as ->. rewrite String.eqb_refl. lia.
    + destruct (String.eqb y u) eqn:E.
      * apply eqb_true_iff in E. subst. exfalso.
        apply (H2 0%nat); [lia|done].
      * rewrite (IH (k + 1) i); [lia|]. split; [done|].
        intros j Hj. apply (H2 (S j)). lia.
Qed.

Lemma position_lt us u i : position us u i → (i < length us)%nat.
Proof. intros [H _]. by apply lookup_lt_Some in H. Qed.

Lemma position_fun us u i j : position us u i → position us u j → i = j.
Proof.
  intros [Hi Hi'] [Hj Hj'].
  destruct (Nat.lt_trichotomy i j) as [H|[H|H]]; [|done|].
  - by destruct (Hj' i H).
  - by destruct (Hi' j H).
Qed.

(** *** The comparator and the sort *)

Lemma compare_le_iff a b :
  compare a b ≤ 0 ↔
  precedes (r_priority a) (r_addedAt a) (r_priority b) (r_addedAt b).
Proof. unfold compare, precedes. case_decide; lia. Qed.

Lemma compare_total a b : compare a b ≤ 0 ∨ compare b a ≤ 0.
Proof. unfold compare. repeat case_decide; lia. Qed.

Lemma compare_trans a b c :
  compare a b ≤ 0 → compare b c ≤ 0 → compare a c ≤ 0.
Proof. rewrite !compare_le_iff. unfold precedes. lia. Qed.

Lemma elem_of_insert_sorted x a l :
  x ∈ insert_sorted a l ↔ x = a ∨ x ∈ l.
Proof.
  induction l as [|b l IH]; cbn [insert_sorted].
  - rewrite elem_of_cons. tauto.
  - case_decide; rewrite !elem_of_cons, ?IH; tauto.
Qed.

Lemma elem_of_sort x l : x ∈ sort l ↔ x ∈ l.
Proof.
  induction l as [|a l IH]; cbn [sort]; [done|].
  rewrite elem_of_insert_sorted, elem_of_cons, IH. tauto.
Qed.

Definition ordered (a b : Ready) : Prop := compare a b ≤ 0.

Lemma insert_sorted_ordered a l :
  StronglySorted ordered l → StronglySorted ordered (insert_sorted a l).
Proof.
  induction 1 as [|b l Hl IH Hb]; cbn [insert_sorted].
  - repeat constructor.
  - case_decide as Hab.
    + constructor; [by constructor|]. constructor; [done|].
      eapply Forall_impl; [exact Hb|]. intros c Hc.
      by eapply compare_trans.
    + constructor; [done|]. apply Forall_forall. intros c Hc.
      apply elem_of_insert_sorted in Hc as [->|Hc].
      * destruct (compare_total a b); [done|]. done.
      * rewrite Forall_forall in Hb. by apply Hb.
Qed.

Lemma insert_sorted_Permutation a l : insert_sorted a l ≡ₚ a :: l.
Proof.
  induction l as [|b l IH]; cbn [insert_sorted]; [done|].
  case_decide; [done|]. rewrite IH. apply Permutation_swap.
Qed.

Lemma sort_Permutation l : sort l ≡ₚ l.
Proof.
  induction l as [|a l IH]; cbn [sort]; [done|].
  by rewrite insert_sorted_Permutation, IH.
Qed.

Lemma sort_ordered l : StronglySorted ordered (sort l).
Proof.
  induction l; cbn [sort]; [constructor|]. by apply insert_sorted_ordered.
Qed.

(** The sort is stable: elements that compare equal keep their order, so
    the sorted list is the same as the input when the input is ordered. *)
Lemma sort_of_ordered l : StronglySorted ordered l → sort l = l.
Proof.
  induction 1 as [|a l Hl IH Ha]; [done|]. cbn [sort]. rewrite IH.
  destruct l as [|b l]; [done|]. cbn [insert_sorted].
  apply Forall_cons in Ha as [Hab _]. by rewrite decide_True.
Qed.

Lemma firstCutter_spec q l r :
  firstCutter q l = Some r →
  r ∈ l ∧ canCutInLine q (r_url r) (r_priority r) = true.
Proof.
  induction l as [|x l IH]; [done|]. cbn [firstCutter].
  destruct (canCutInLine q (r_url x) (r_priority x)) eqn:E.
  - intros [= <-]. split; [left|done].
  - intros H. destruct (IH H). split; [by right|done].
Qed.

Lemma firstCutter_least q l r :
  StronglySorted ordered l →
  firstCutter q l = Some r →
  ∀ r', r' ∈ l → canCutInLine q (r_url r') (r_priority r') = true →
        ordered r r'.
Proof.
  induction 1 as [|x l Hl IH Hx]; [done|]. cbn [firstCutter].
  destruct (canCutInLine q (r_url x) (r_priority x)) eqn:E.
  - intros [= <-] r' Hr' _. apply elem_of_cons in Hr' as [->|Hr'].
    + destruct (compare_total x x); done.
    + rewrite Forall_forall in Hx. by apply Hx.
  - intros H r' Hr' Hc. apply elem_of_cons in Hr' as [->|Hr'].
    + congruence.
    + by apply IH.
Qed.

Lemma firstCutter_some q l r :
  r ∈ l → canCutInLine q (r_url r) (r_priority r) = true →
  is_Some (firstCutter q l).
Proof.
  induction l as [|x l IH]; [by intros ?%elem_of_nil|]. cbn [firstCutter].
  intros Hr Hc. destruct (canCutInLine q (r_url x) (r_priority x)) eqn:E;
    [by eexists|].
  apply elem_of_cons in Hr as [->|Hr]; [congruence|]. by apply IH.
Qed.

(** *** The throttle filter *)

Lemma isReady_iff now q u : isReady now q u = true ↔ throttleElapsed now q u.
Proof.
  unfold isReady, throttleElapsed, lastCheckedAt, JS.or_default.
  rewrite bool_decide_eq_true.
  destruct (lastPriorityCheck q !! u) as [v|]; cbn; [case_decide|]; lia.
Qed.

Lemma elem_of_collectReady now q m r :
  r ∈ collectReady now q m ↔
  (r_url r, mkInfo (r_priority r) (r_addedAt r)) ∈ m ∧
  isReady now q (r_url r) = true.
Proof.
  induction m as [|[u [p a]] m IH]; cbn [collectReady].
  - rewrite !elem_of_nil. tauto.
  - destruct (isReady now q u) eqn:E.
    + rewrite elem_of_cons, IH, elem_of_cons. split.
      * intros [->|[H1 H2]]; cbn; [by split; [left|]|by split; [right|]].
      * intros [[H|H] H2]; [left|by right].
        destruct r; cbn in *. congruence.
    + rewrite IH, elem_of_cons. split.
      * intros [H1 H2]. by split; [right|].
      * intros [[H|H] H2]; [|done]. congruence.
Qed.

(** *** Cut distance *)

Definition withinCutLimit5 (q : t) (u : string) (p : Z) : Prop :=
  ∃ d, stepsAhead q u d ∧ d ≤ cutLimit5 p.

Lemma indexOf_position us u :
  JS.indexOf us u ≠ -1 →
  0 ≤ JS.indexOf us u < JS.len us ∧
  position us u (Z.to_nat (JS.indexOf us u)).
Proof.
  intros Hne. unfold JS.indexOf in *.
  destruct (indexOf_from_range us u 0) as [H|H]; [done|]. split; [lia|].
  pose proof (indexOf_from_position us u 0 _ ltac:(lia) eq_refl Hne) as Hp.
  by rewrite Z.sub_0_r in Hp.
Qed.

Lemma position_indexOf us u i :
  position us u i → JS.indexOf us u = Z.of_nat i.
Proof.
  intros H. unfold JS.indexOf. by rewrite (position_indexOf_from us u 0 i).
Qed.

Lemma cutDistance_mod q i :
  0 ≤ currentIndex q < JS.len (urls q) → 0 ≤ i < JS.len (urls q) →
  cutDistance q i = (i - currentIndex q) `mod` JS.len (urls q).
Proof.
  intros Hc Hi. unfold cutDistance. case_decide.
  - rewrite Z.mod_small; lia.
  - rewrite <- (Z.mod_add _ 1) by lia. rewrite Z.mod_small; lia.
Qed.

Lemma cursor_of_position q u i :
  cursorInRange q → position (urls q) u i →
  0 ≤ currentIndex q < JS.len (urls q).
Proof.
  intros [[Hu _]|H] Hp; [|done]. apply position_lt in Hp.
  rewrite Hu in Hp. cbn in Hp. lia.
Qed.

Lemma or_default_maxCuts5 q p :
  maxLineCuts q = 5 →
  JS.or_default (maxCutsForPriority q p) 0 = cutLimit5 p.
Proof.
  intros H. unfold maxCutsForPriority, cutLimit5, JS.or_default. rewrite H.
  repeat case_decide; try done; lia.
Qed.

Lemma canCutInLine_steps q u p :
  cursorInRange q →
  canCutInLine q u p = true ↔
  ∃ d, stepsAhead q u d ∧ d ≤ JS.or_default (maxCutsForPriority q p) 0.
Proof.
  intros Hq. unfold canCutInLine. split.
  - case_decide as Hidx; [done|]. rewrite bool_decide_eq_true. intros Hd.
    destruct (indexOf_position _ _ Hidx) as [Hr Hp].
    pose proof (cursor_of_position _ _ _ Hq Hp) as Hc.
    exists (cutDistance q (JS.indexOf (urls q) u)). split; [|done].
    exists (Z.to_nat (JS.indexOf (urls q) u)). split; [done|].
    rewrite Z2Nat.id by lia. by apply cutDistance_mod.
  - intros (d & (i & Hp & ->) & Hd).
    pose proof (cursor_of_position _ _ _ Hq Hp) as Hc.
    pose proof (position_lt _ _ _ Hp) as Hi.
    rewrite (position_indexOf _ _ _ Hp). rewrite decide_False by lia.
    rewrite bool_decide_eq_true, cutDistance_mod; [done|done|].
    unfold JS.len. lia.
Qed.

Lemma canCutInLine_within5 q u p :
  maxLineCuts q = 5 → cursorInRange q →
  canCutInLine q u p = true ↔ withinCutLimit5 q u p.
Proof.
  intros H5 Hq. rewrite canCutInLine_steps by done.
  unfold withinCutLimit5. by rewrite or_default_maxCuts5.
Qed.

Lemma stepsAhead_fun q u d d' : stepsAhead q u d → stepsAhead q u d' → d = d'.
Proof.
  intros (i & Hi & ->) (j & Hj & ->). by rewrite (position_fun _ _ _ _ Hi Hj).
Qed.

Lemma stepsAhead_lookup q u d :
  cursorInRange q → stepsAhead q u d →
  0 ≤ d < JS.len (urls q) ∧
  JS.at_index (urls q) ((currentIndex q + d) `mod` JS.len (urls q)) = Some u.
Proof.
  intros Hq (i & Hp & ->).
  pose proof (cursor_of_position _ _ _ Hq Hp) as Hc.
  pose proof (position_lt _ _ _ Hp) as Hi.
  split; [apply Z.mod_pos_bound; lia|].
  rewrite Zplus_mod_idemp_r.
  replace (currentIndex q + (Z.of_nat i - currentIndex q)) with (Z.of_nat i)
    by lia.
  rewrite Z.mod_small by (unfold JS.len; lia).
  unfold JS.at_index. rewrite decide_True by lia.
  rewrite Nat2Z.id. apply Hp.
Qed.

(** *** The selection made by [getNextPriorityUrl] *)

Lemma getNextPriorityUrl_unfold now q :
  getNextPriorityUrl now q =
  match firstCutter q (sort (readyPriorityUrls now q)) with
  | Some r =>
      (Some (r_url r),
       with_priorities q (priorityMap q)
         (<[r_url r := now]> (lastPriorityCheck q)))
  | None => (None, q)
  end.
Proof.
  unfold getNextPriorityUrl. by destruct (readyPriorityUrls now q).
Qed.

(** What is known of a returned candidate: it is a live record that passed
    the throttle test and the line-cutting test, and it comes no later in
    the comparator's order than every other record that passed both. *)
Lemma getNextPriorityUrl_some now q u q' :
  getNextPriorityUrl now q = (Some u, q') →
  ∃ info,
    (u, info) ∈ priorityMap q ∧
    isReady now q u = true ∧
    canCutInLine q u (priority info) = true ∧
    q' = with_priorities q (priorityMap q) (<[u := now]> (lastPriorityCheck q)) ∧
    ∀ v infov, (v, infov) ∈ priorityMap q →
      isReady now q v = true → canCutInLine q v (priority infov) = true →
      precedes (priority info) (addedAt info) (priority infov) (addedAt infov).
Proof.
  rewrite getNextPriorityUrl_unfold.
  destruct (firstCutter _ _) as [r|] eqn:Hf; [|done]. intros [= <- <-].
  destruct (firstCutter_spec _ _ _ Hf) as [Hin Hcut].
  apply elem_of_sort, elem_of_collectReady in Hin as [Hin Hready].
  eexists. split; [exact Hin|]. cbn. repeat split; [done..|].
  intros v [pv av] Hv Hrv Hcv.
  pose proof (firstCutter_least _ _ _ (sort_ordered _) Hf (mkReady v pv av))
    as Hle.
  apply compare_le_iff in Hle; [done| |done].
  apply elem_of_sort, elem_of_collectReady. by split.
Qed.

Lemma getNextPriorityUrl_first now q u info :
  (u, info) ∈ priorityMap q →
  isReady now q u = true →
  canCutInLine q u (priority info) = true →
  (∀ v infov, (v, infov) ∈ priorityMap q → (v, infov) ≠ (u, info) →
     isReady now q v = true → canCutInLine q v (priority infov) = true →
     strictlyPrecedes (priority info) (addedAt info)
                      (priority infov) (addedAt infov)) →
  (getNextPriorityUrl now q).1 = Some u.
Proof.
  intros Hin Hr Hc Hothers. rewrite getNextPriorityUrl_unfold.
  destruct info as [p a].
  assert (mkReady u p a ∈ sort (readyPriorityUrls now q)) as Hmem.
  { apply elem_of_sort, elem_of_collectReady. by split. }
  destruct (firstCutter_some q _ _ Hmem Hc) as [r Hf]. rewrite Hf. cbn.
  destruct (firstCutter_spec _ _ _ Hf) as [Hrin Hrcut].
  pose proof (firstCutter_least _ _ _ (sort_ordered _) Hf _ Hmem Hc) as Hle.
  apply compare_le_iff in Hle. cbn in Hle.
  apply elem_of_sort, elem_of_collectReady in Hrin as [Hrin Hrr].
  destruct (decide ((r_url r, mkInfo (r_priority r) (r_addedAt r)) = (u, mkInfo p a)))
    as [Heq|Hne]; [congruence|].
  specialize (Hothers _ _ Hrin Hne Hrr Hrcut). cbn in Hothers.
  unfold precedes, strictlyPrecedes in *. lia.
Qed.

(** *** Invariants of the calls *)

Record sameSetup (q q' : t) : Prop := {
  same_urls : urls q' = urls q;
  same_cuts : maxLineCuts q' = maxLineCuts q;
  same_interval : priorityCheckInterval q' = priorityCheckInterval q
}.

Lemma sameSetup_refl q : sameSetup q q.
Proof. by split. Qed.

Lemma sameSetup_trans q1 q2 q3 :
  sameSetup q1 q2 → sameSetup q2 q3 → sameSetup q1 q3.
Proof. intros [] []. split; congruence. Qed.

Lemma setPriority_setup u p now q : sameSetup q (setPriority u p now q).
Proof.
  unfold setPriority. repeat (case_decide || case_match); by split.
Qed.

Lemma setPriority_index u p now q :
  currentIndex (setPriority u p now q) = currentIndex q.
Proof. unfold setPriority. by repeat (case_decide || case_match). Qed.

Lemma getNextPriorityUrl_setup now q : sameSetup q (getNextPriorityUrl now q).2.
Proof. rewrite getNextPriorityUrl_unfold. case_match; by split. Qed.

Lemma getNextPriorityUrl_index now q :
  currentIndex (getNextPriorityUrl now q).2 = currentIndex q.
Proof. rewrite getNextPriorityUrl_unfold. by case_match. Qed.

Lemma getNextPriorityUrl_priorityMap now q :
  priorityMap (getNextPriorityUrl now q).2 = priorityMap q.
Proof. rewrite getNextPriorityUrl_unfold. by case_match. Qed.

Lemma getNextUrl_setup now q : sameSetup q (getNextUrl now q).2.
Proof.
  unfold getNextUrl. case_decide; [apply sameSetup_refl|].
  pose proof (getNextPriorityUrl_setup now q) as Hs.
  destruct (getNextPriorityUrl now q) as [r q1]. cbn in Hs.
  destruct (JS.truthy r); [done|]. destruct Hs. by split.
Qed.

Lemma getNextUrl_cursor now q :
  cursorInRange q → cursorInRange (getNextUrl now q).2.
Proof.
  intros Hq. unfold getNextUrl. case_decide as Hlen; [done|].
  pose proof (getNextPriorityUrl_setup now q) as [Hu _ _].
  pose proof (getNextPriorityUrl_index now q) as Hi.
  destruct (getNextPriorityUrl now q) as [r q1]. cbn in Hu, Hi.
  assert (0 ≤ currentIndex q < JS.len (urls q)) as Hc.
  { destruct Hq as [[H _]|H]; [|done]. rewrite H in Hlen. done. }
  destruct (JS.truthy r); cbn.
  - right. by rewrite Hu, Hi.
  - right. cbn. rewrite Hu, Hi. rewrite Z.rem_mod_nonneg by lia.
    apply Z.mod_pos_bound. lia.
Qed.

Lemma apply_op_setup q o : sameSetup q (apply_op q o).
Proof. destruct o; [apply setPriority_setup|apply getNextUrl_setup]. Qed.

Lemma apply_op_cursor q o : cursorInRange q → cursorInRange (apply_op q o).
Proof.
  destruct o as [u p now|now]; cbn; [|apply getNextUrl_cursor].
  pose proof (setPriority_setup u p now q) as [Hu _ _].
  unfold cursorInRange. by rewrite Hu, setPriority_index.
Qed.

Lemma run_invariant ops q :
  cursorInRange q → sameSetup q (run ops q) ∧ cursorInRange (run ops q).
Proof.
  revert q. induction ops as [|o ops IH]; intros q Hq; cbn.
  - split; [apply sameSetup_refl|done].
  - destruct (IH (apply_op q o) (apply_op_cursor _ _ Hq)) as [H1 H2].
    split; [|done]. eapply sameSetup_trans; [apply apply_op_setup|done].
Qed.

Lemma initialize_cursor us q : cursorInRange (initialize us q).
Proof.
  unfold cursorInRange. cbn. destruct us; [by left|right].
  unfold JS.len. cbn [length]. lia.
Qed.

Lemma run_from_new us ops :
  let q := run ops (initialize us new) in
  urls q = us ∧ maxLineCuts q = 5 ∧ priorityCheckInterval q = 30000 ∧
  cursorInRange q.
Proof.
  cbn. destruct (run_invariant ops (initialize us new)) as [[H1 H2 H3] H4];
    [apply initialize_cursor|]. done.
Qed.

(** *** Example queues *)

Definition rotation12 : list string :=
  ["u0"; "u1"; "u2"; "u3"; "u4"; "u5"; "u6"; "u7"; "u8"; "u9"; "u10"; "u11"].

(** One tier-1 record, ten steps ahead of the cursor. *)
Definition single_hot : t :=
  setPriority "u10" 1 100 (initialize rotation12 new).

(** Two tier-1 records within the cut limit; [u3] was promoted first. *)
Definition two_hot : t :=
  setPriority "u10" 1 200 (setPriority "u3" 1 100 (initialize rotation12 new)).

Lemma rotation12_u10 : stepsAhead single_hot "u10" 10.
Proof.
  exists 10%nat. split; [|reflexivity]. split; [reflexivity|].
  intros j Hj. do 10 (destruct j as [|j]; [cbn; discriminate|]). lia.
Qed.

(** *** Line-cutting bound *)

(** C1 (as amended).  In every queue state with [maxLineCuts = 5] a target
    returned by [getNextPriorityUrl] is a live priority record whose
    position lies [d] circular forward steps from the cursor with [d] at
    most the cut limit of its tier (10, 5 and 2 for tiers 1, 2 and 3).  A
    tier-1 record exactly 10 steps ahead whose throttle window has elapsed
    is the one returned when every other record that passes the throttle
    and the distance test comes strictly later in the order (tier, then
    promotion time). *)
Theorem line_cutting_bound (q : t) (now : Z) :
  maxLineCuts q = 5 → cursorInRange q →
  (∀ u q', getNextPriorityUrl now q = (Some u, q') →
     ∃ info d,
       (u, info) ∈ priorityMap q ∧ stepsAhead q u d ∧
       0 ≤ d ≤ cutLimit5 (priority info) ∧
       JS.at_index (urls q)
         ((currentIndex q + d) `mod` JS.len (urls q)) = Some u) ∧
  (∀ u info,
     (u, info) ∈ priorityMap q → priority info = 1 →
     stepsAhead q u 10 → throttleElapsed now q u →
     (∀ v infov,
        (v, infov) ∈ priorityMap q → (v, infov) ≠ (u, info) →
        throttleElapsed now q v → withinCutLimit5 q v (priority infov) →
        strictlyPrecedes (priority info) (addedAt info)
                         (priority infov) (addedAt infov)) →
     (getNextPriorityUrl now q).1 = Some u).
Proof.
  intros H5 Hq. split.
  - intros u q' Hret.
    destruct (getNextPriorityUrl_some _ _ _ _ Hret)
      as (info & Hin & _ & Hcut & _ & _).
    apply (canCutInLine_within5 _ _ _ H5 Hq) in Hcut as (d & Hd & Hle).
    destruct (stepsAhead_lookup _ _ _ Hq Hd) as [Hd0 Hat].
    exists info, d. repeat split; [done|done|lia|done|done].
  - intros u info Hin Hp Hd Hthr Hothers.
    apply (getNextPriorityUrl_first now q u info Hin).
    + by apply isReady_iff.
    + apply (canCutInLine_within5 _ _ _ H5 Hq). exists 10. split; [done|].
      by rewrite Hp.
    + intros v infov Hv Hne Hrv Hcv. apply (Hothers v infov Hv Hne).
      * by apply isReady_iff.
      * by apply (canCutInLine_within5 _ _ _ H5 Hq).
Qed.

Lemma line_cutting_bound_witness :
  maxLineCuts single_hot = 5 ∧ cursorInRange single_hot ∧
  (getNextPriorityUrl 40000 single_hot).1 = Some "u10".
Proof.
  assert (maxLineCuts single_hot = 5) as H5 by reflexivity.
  assert (cursorInRange single_hot) as Hq
    by (right; change (0 ≤ 0 < 12); lia).
  split; [exact H5|]. split; [exact Hq|].
  apply (proj2 (line_cutting_bound single_hot 40000 H5 Hq)
               "u10" (mkInfo 1 100)).
  - apply list_elem_of_singleton. reflexivity.
  - reflexivity.
  - exact rotation12_u10.
  - change (30000 ≤ 40000 - 0). lia.
  - intros v infov Hv Hne. apply list_elem_of_singleton in Hv. congruence.
Defined.

(** The second half of C1 as it is written fails: a tier-1 record that is
    exactly 10 steps ahead and past its throttle window is not returned
    when another tier-1 record within its limit was promoted earlier. *)
Lemma tier1_at_limit_not_always_returned :
  ¬ (∀ (q : t) (now : Z) (u : string) (info : Info),
       maxLineCuts q = 5 → cursorInRange q →
       (u, info) ∈ priorityMap q → priority info = 1 →
       stepsAhead q u 10 → throttleElapsed now q u →
       (getNextPriorityUrl now q).1 = Some u).
Proof.
  intros H.
  specialize (H two_hot 40000 "u10" (mkInfo 1 200)).
  assert ((getNextPriorityUrl 40000 two_hot).1 = Some "u3") as Hres
    by reflexivity.
  rewrite Hres in H. discriminate H.
  - reflexivity.
  - right. change (0 ≤ 0 < 12). lia.
  - apply elem_of_cons. right. apply list_elem_of_singleton. reflexivity.
  - reflexivity.
  - destruct rotation12_u10 as (i & Hi & Hd). by exists i.
  - change (30000 ≤ 40000 - 0). lia.
Qed.

(** *** Priority hits and the base cursor *)

Definition abcd : t := initialize ["A"; "B"; "C"; "D"] new.

(** [C] promoted to tier 1 at time 0. *)
Definition abcd_hot : t := setPriority "C" 1 0 abcd.

(** The state after [C] was handed out as a priority target at [now]. *)
Definition abcd_checked (now : Z) : t :=
  mk ["A"; "B"; "C"; "D"] 0 [("C", mkInfo 1 0)] (<["C" := now]> ∅) 5 30000.

Lemma abcd_hot_priority now :
  30000 ≤ now → getNextPriorityUrl now abcd_hot = (Some "C", abcd_checked now).
Proof.
  intros Hn. rewrite getNextPriorityUrl_unfold.
  change (readyPriorityUrls now abcd_hot)
    with (if isReady now abcd_hot "C" then [mkReady "C" 1 0] else []).
  replace (isReady now abcd_hot "C") with true; [reflexivity|].
  symmetry. apply isReady_iff. change (30000 ≤ now - 0). lia.
Qed.

Lemma abcd_checked_throttled now now' :
  30000 ≤ now → now' - now < 30000 →
  getNextPriorityUrl now' (abcd_checked now) = (None, abcd_checked now).
Proof.
  intros Hn Hn'. rewrite getNextPriorityUrl_unfold.
  change (readyPriorityUrls now' (abcd_checked now))
    with (if isReady now' (abcd_checked now) "C"
          then [mkReady "C" 1 0] else []).
  replace (isReady now' (abcd_checked now) "C") with false; [reflexivity|].
  symmetry. apply not_true_is_false. rewrite isReady_iff.
  unfold throttleElapsed, lastCheckedAt.
  cbn [lastPriorityCheck abcd_checked priorityCheckInterval].
  rewrite lookup_insert_eq. cbn. lia.
Qed.

(** C2.  When [getNextUrl] hands out a priority target it records the
    time of the check for that target and changes nothing else: the base
    cursor, the rotation and the priority records stay as they were.  In
    the rotation [A,B,C,D] with the cursor at [A] and [C] promoted to
    tier 1 at time 0, a call after the throttle interval returns [C] and
    leaves the cursor at [A]; the following call, made before [C] is due
    again, returns [A] and moves the cursor to [B]. *)
Theorem priority_hit_keeps_cursor :
  (∀ (q : t) (now : Z) (u : string) (q' : t),
     urls q ≠ [] →
     getNextPriorityUrl now q = (Some u, q') →
     JS.truthy (Some u) = true →
     getNextUrl now q = (Some u, q') ∧
     currentIndex q' = currentIndex q ∧
     urls q' = urls q ∧
     priorityMap q' = priorityMap q ∧
     lastPriorityCheck q' = <[u := now]> (lastPriorityCheck q)) ∧
  (∀ now now' : Z,
     30000 ≤ now → now' - now < 30000 →
     ∃ q1 q2,
       getNextUrl now abcd_hot = (Some "C", q1) ∧
       currentIndex q1 = 0 ∧
       JS.at_index (urls q1) (currentIndex q1) = Some "A" ∧
       getNextUrl now' q1 = (Some "A", q2) ∧
       currentIndex q2 = 1 ∧
       JS.at_index (urls q2) (currentIndex q2) = Some "B").
Proof.
  split.
  - intros q now u q' Hne Hret Htruthy. split.
    + unfold getNextUrl. rewrite decide_False.
      * by rewrite Hret, Htruthy.
      * unfold JS.len. destruct (urls q); [done|]. cbn [length]. lia.
    + destruct (getNextPriorityUrl_some _ _ _ _ Hret)
        as (info & _ & _ & _ & -> & _). done.
  - intros now now' Hn Hn'.
    exists (abcd_checked now), (with_index (abcd_checked now) 1).
    split.
    { unfold getNextUrl. rewrite decide_False by done.
      by rewrite abcd_hot_priority. }
    split; [reflexivity|]. split; [reflexivity|]. split.
    { unfold getNextUrl. rewrite decide_False by done.
      by rewrite abcd_checked_throttled. }
    split; reflexivity.
Qed.

Lemma priority_hit_keeps_cursor_witness :
  getNextUrl 40000 abcd_hot = (Some "C", abcd_checked 40000) ∧
  currentIndex (abcd_checked 40000) = currentIndex abcd_hot.
Proof.
  destruct (proj1 priority_hit_keeps_cursor abcd_hot 40000 "C"
              (abcd_checked 40000)) as (H1 & H2 & _).
  - discriminate.
  - reflexivity.
  - reflexivity.
  - split; [exact H1|exact H2].
Defined.

(** *** Order of selection *)

(** The queue reached from a fresh rotation by a sequence of calls. *)
Definition reached (us : list string) (ops : list op) : t :=
  run ops (initialize us new).

(** The candidates in the order in which [getNextPriorityUrl] tries them. *)
Definition candidates (now : Z) (q : t) : list Ready :=
  sort (readyPriorityUrls now q).

(** Never checked, or last checked at least 30 seconds before [now]. *)
Definition dueAt (now : Z) (q : t) (u : string) : Prop :=
  lastPriorityCheck q !! u = None ∨
  ∃ t, lastPriorityCheck q !! u = Some t ∧ 30000 ≤ now - t.

Lemma throttleElapsed_dueAt now q u :
  priorityCheckInterval q = 30000 → throttleElapsed now q u → dueAt now q u.
Proof.
  unfold throttleElapsed, lastCheckedAt, dueAt. intros ->.
  destruct (lastPriorityCheck q !! u) as [t|]; [|by left].
  right. exists t. by split.
Qed.

Lemma ordered_precedes l :
  StronglySorted ordered l →
  StronglySorted
    (λ a b, precedes (r_priority a) (r_addedAt a) (r_priority b) (r_addedAt b))
    l.
Proof.
  induction 1 as [|a l Hl IH Ha]; constructor; [done|].
  eapply Forall_impl; [exact Ha|]. intros b Hb. by apply compare_le_iff.
Qed.

(** C3.  In every state reached from a fresh rotation by [setPriority]
    (and [getNextUrl]) calls, the candidates of [getNextPriorityUrl] are
    live records that were never checked or were last checked at least 30
    seconds ago, and they are tried by tier ascending and, within a tier, by
    promotion time ascending.  A returned target is one of them and comes
    no later in that order than every record that passes the throttle and
    the cut-distance tests; so its tier is neither 2 nor 3 while a tier-1
    record passes both tests. *)
Theorem tier1_never_skipped (us : list string) (ops : list op) (now : Z) :
  (∀ r, r ∈ candidates now (reached us ops) →
     (r_url r, mkInfo (r_priority r) (r_addedAt r))
       ∈ priorityMap (reached us ops) ∧
     dueAt now (reached us ops) (r_url r)) ∧
  StronglySorted
    (λ a b, precedes (r_priority a) (r_addedAt a) (r_priority b) (r_addedAt b))
    (candidates now (reached us ops)) ∧
  (∀ (u : string) (q' : t),
     getNextPriorityUrl now (reached us ops) = (Some u, q') →
     ∃ info,
       mkReady u (priority info) (addedAt info)
         ∈ candidates now (reached us ops) ∧
       (∀ v infov,
          (v, infov) ∈ priorityMap (reached us ops) →
          throttleElapsed now (reached us ops) v →
          withinCutLimit5 (reached us ops) v (priority infov) →
          precedes (priority info) (addedAt info)
                   (priority infov) (addedAt infov)) ∧
       ((∃ v infov,
           (v, infov) ∈ priorityMap (reached us ops) ∧ priority infov = 1 ∧
           throttleElapsed now (reached us ops) v ∧
           withinCutLimit5 (reached us ops) v 1) →
        priority info ≠ 2 ∧ priority info ≠ 3)).
Proof.
  destruct (run_from_new us ops) as (_ & H5 & H30 & Hq).
  fold (reached us ops) in H5, H30, Hq. split; [|split].
  - intros r Hr. apply elem_of_sort, elem_of_collectReady in Hr as [Hin Hr].
    split; [done|]. apply throttleElapsed_dueAt; [done|]. by apply isReady_iff.
  - apply ordered_precedes, sort_ordered.
  - intros u q' Hret.
    destruct (getNextPriorityUrl_some _ _ _ _ Hret)
      as (info & Hin & Hready & _ & _ & Hleast).
    assert (∀ v infov,
              (v, infov) ∈ priorityMap (reached us ops) →
              throttleElapsed now (reached us ops) v →
              withinCutLimit5 (reached us ops) v (priority infov) →
              precedes (priority info) (addedAt info)
                       (priority infov) (addedAt infov)) as Hord.
    { intros v infov Hv Ht Hc. apply (Hleast v infov Hv).
      - by apply isReady_iff.
      - by apply canCutInLine_within5. }
    exists info. split; [|split; [done|]].
    + apply elem_of_sort, elem_of_collectReady. cbn. by destruct info.
    + intros (v & infov & Hv & Hp & Ht & Hc).
      rewrite <- Hp in Hc. specialize (Hord v infov Hv Ht Hc).
      unfold precedes in Hord. lia.
Qed.

Lemma tier1_never_skipped_witness :
  ∃ info,
    mkReady "B" (priority info) (addedAt info)
      ∈ candidates 40000
          (reached ["A"; "B"; "C"; "D"]
                   [SetPriority "C" 2 0; SetPriority "B" 1 5]) ∧
    priority info ≠ 2.
Proof.
  destruct (proj2 (proj2 (tier1_never_skipped ["A"; "B"; "C"; "D"]
                            [SetPriority "C" 2 0; SetPriority "B" 1 5] 40000))
              "B"
              (with_priorities
                 (reached ["A"; "B"; "C"; "D"]
                          [SetPriority "C" 2 0; SetPriority "B" 1 5])
                 [("C", mkInfo 2 0); ("B", mkInfo 1 5)]
                 (<["B" := 40000]> ∅)))
    as (info & Hin & _ & Htier).
  - reflexivity.
  - exists info. split; [exact Hin|]. apply Htier.
    exists "B", (mkInfo 1 5). split.
    + apply elem_of_cons. right. apply list_elem_of_singleton. reflexivity.
    + split; [reflexivity|]. split.
      * change (30000 ≤ 40000 - 0). lia.
      * exists 1. split; [|change (1 ≤ 10); lia]. exists 1%nat.
        split; [|reflexivity].
        split; [reflexivity|]. intros j Hj.
        destruct j as [|j]; [cbn; discriminate|lia].
Defined.

(** *** The reported cycle *)

(** [k] calls of [getNextUrl] at the given times. *)
Definition pulls (times : list Z) (q : t) : t := run (Next <$> times) q.

Lemma getNextUrl_base now q :
  priorityMap q = [] → 0 ≤ currentIndex q < JS.len (urls q) →
  getNextUrl now q =
  (JS.at_index (urls q) (currentIndex q),
   with_index q ((currentIndex q + 1) `mod` JS.len (urls q))).
Proof.
  intros Hpm Hc. unfold getNextUrl. rewrite decide_False by lia.
  rewrite getNextPriorityUrl_unfold. unfold readyPriorityUrls.
  rewrite Hpm. cbn. by rewrite Z.rem_mod_nonneg by lia.
Qed.

Lemma pulls_cursor times q :
  priorityMap q = [] → 0 ≤ currentIndex q < JS.len (urls q) →
  currentIndex (pulls times q) =
    (currentIndex q + JS.len times) `mod` JS.len (urls q) ∧
  urls (pulls times q) = urls q.
Proof.
  revert q. induction times as [|now times IH]; intros q Hpm Hc.
  - cbn. unfold JS.len at 1. cbn. rewrite Z.add_0_r, Z.mod_small; done.
  - change (pulls (now :: times) q) with (pulls times (getNextUrl now q).2).
    rewrite getNextUrl_base by done. cbn [snd].
    destruct (IH (with_index q ((currentIndex q + 1) `mod` JS.len (urls q))))
      as [H1 H2]; [done| |].
    { cbn. apply Z.mod_pos_bound. lia. }
    rewrite H1, H2. cbn [currentIndex urls with_index]. split; [|done].
    rewrite Zplus_mod_idemp_l. f_equal. unfold JS.len. cbn [length]. lia.
Qed.

(** C8, what the code does.  The cursor is reduced modulo the length of
    the rotation at every base pull, so after [k] pulls over [n] targets it
    is [k mod n] and not monotonic; [getStatus] reports that position plus
    one and, in every reachable state of a rotation that is not empty, the
    cycle [1], where the claim has [floor(k/n) + 1]. *)
Theorem status_cycle_is_always_one (u : string) (us : list string) :
  (∀ times : list Z,
     currentIndex (pulls times (initialize (u :: us) new)) =
       JS.len times `mod` JS.len (u :: us) ∧
     currentPosition (getStatus (pulls times (initialize (u :: us) new))) =
       JS.len times `mod` JS.len (u :: us) + 1) ∧
  (∀ ops : list op,
     cycle (getStatus (reached (u :: us) ops)) = Some 1).
Proof.
  split.
  - intros times.
    destruct (pulls_cursor times (initialize (u :: us) new)) as [H1 H2].
    { done. }
    { cbn. unfold JS.len. cbn [length]. lia. }
    cbn [currentIndex urls initialize] in H1. rewrite Z.add_0_l in H1.
    split; [done|]. cbn [getStatus currentPosition]. by rewrite H1.
  - intros ops. destruct (run_from_new (u :: us) ops) as (Hu & _ & _ & Hq).
    fold (reached (u :: us) ops) in Hu, Hq.
    unfold getStatus, cursorInRange in *. cbn [cycle]. rewrite Hu in *.
    destruct Hq as [[Hnil _]|Hc]; [discriminate Hnil|].
    rewrite decide_False by (unfold JS.len; cbn [length]; lia).
    by rewrite Z.div_small.
Qed.

(** After a full rotation of two targets the reported cycle is still 1,
    where [floor(k/n) + 1] is 2. *)
Example status_cycle_after_full_rotation :
  cycle (getStatus (pulls [1000; 2000] (initialize ["A"; "B"] new))) = Some 1
  ∧ 2 / 2 + 1 = 2.
Proof. split; reflexivity. Qed.

End PriorityQueueFacts.

(** * Properties of the stock bot *)

Module StockBotFacts.
Import StockBot.

(** *** Fair interleaving *)

(** The [j]-th element of every list that has one, in the order of the
    lists. *)
Definition column (groups : list (list string)) (j : nat) : list string :=
  omap (λ g, g !! j) groups.

Definition longest (groups : list (list string)) : nat :=
  foldr (λ g n, (length g `max` n)%nat) 0%nat groups.

Definition roundRobin (groups : list (list string)) : list string :=
  concat (column groups <$> seq 0 (longest groups)).

Lemma takeHeads_column queues :
  takeHeads queues = (column queues 0, tail <$> queues).
Proof.
  induction queues as [|g queues IH]; [done|]. cbn [takeHeads].
  rewrite IH. by destruct g.
Qed.

Lemma column_tail queues j : column (tail <$> queues) j = column queues (S j).
Proof.
  unfold column. induction queues as [|g queues IH]; [done|].
  cbn. rewrite IH. by destruct g.
Qed.

Lemma longest_tail queues :
  longest (tail <$> queues) = pred (longest queues).
Proof.
  induction queues as [|g queues IH]; [done|].
  change (longest (tail <$> g :: queues))
    with (length (tail g) `max` longest (tail <$> queues))%nat.
  change (longest (g :: queues)) with (length g `max` longest queues)%nat.
  rewrite IH. destruct g; cbn [tail length]; lia.
Qed.

Lemma longest_cons g queues :
  longest (g :: queues) = (length g `max` longest queues)%nat.
Proof. reflexivity. Qed.

Lemma longest_zero queues :
  existsb nonEmpty queues = false → longest queues = 0%nat.
Proof.
  induction queues as [|g queues IH]; [done|].
  rewrite longest_cons. cbn [existsb].
  destruct g; cbn [nonEmpty orb length]; [|done]. intros H. by rewrite IH.
Qed.

Lemma longest_pos queues :
  existsb nonEmpty queues = true → (0 < longest queues)%nat.
Proof.
  induction queues as [|g queues IH]; [done|].
  rewrite longest_cons. cbn [existsb].
  destruct g; cbn [nonEmpty orb length]; [|lia].
  intros H. specialize (IH H). lia.
Qed.

Lemma roundRobin_done queues :
  existsb nonEmpty queues = false → roundRobin queues = [].
Proof. intros H. unfold roundRobin. by rewrite longest_zero. Qed.

Lemma roundRobin_turn queues :
  existsb nonEmpty queues = true →
  roundRobin queues = column queues 0 ++ roundRobin (tail <$> queues).
Proof.
  intros H. unfold roundRobin. rewrite longest_tail.
  pose proof (longest_pos _ H) as Hpos.
  destruct (longest queues) as [|n]; [lia|]. cbn [pred seq fmap list_fmap concat].
  f_equal. f_equal. rewrite <- fmap_S_seq, <- list_fmap_compose.
  apply list_fmap_ext. intros _ j _. cbn. symmetry. apply column_tail.
Qed.

Lemma interleaveLoop_roundRobin queues acc :
  interleaveLoop queues acc = acc ++ roundRobin queues.
Proof.
  funelim (interleaveLoop queues acc).
  - rewrite H. rewrite takeHeads_column. cbn [fst snd].
    rewrite <- app_assoc. f_equal. symmetry. by apply roundRobin_turn.
  - rewrite roundRobin_done by done. by rewrite app_nil_r.
Qed.

(** C9.  The rotation built by [interleaveUrls] takes one URL from each
    product's list in turn, product after product, until every list is
    used up: it is the concatenation of the columns of the lists.  For the
    lists [p1a,p1b] and [p2a] it is [p1a,p2a,p1b]. *)
Theorem interleave_round_robin :
  (∀ (products : list Product) (queue : PriorityQueue.t),
     PriorityQueue.urls (interleaveUrls products queue) =
       roundRobin (p_urls <$> products) ∧
     PriorityQueue.currentIndex (interleaveUrls products queue) = 0) ∧
  PriorityQueue.urls
    (interleaveUrls [mkProduct "P1" 2 1 ["p1a"; "p1b"];
                     mkProduct "P2" 1 2 ["p2a"]] PriorityQueue.new) =
    ["p1a"; "p2a"; "p1b"].
Proof.
  split; [|reflexivity]. intros products queue. split; [|done].
  unfold interleaveUrls. cbn [PriorityQueue.urls PriorityQueue.initialize].
  by rewrite interleaveLoop_roundRobin.
Qed.

(** *** Change detection *)

Lemma join_default sep l l' :
  default "" <$> l = default "" <$> l' → join sep l = join sep l'.
Proof.
  destruct l as [|x l], l' as [|x' l']; try done. cbn [fmap list_fmap join].
  intros [= -> Hl]. generalize (default "" x'). revert l' Hl.
  induction l as [|y l IH]; intros [|y' l'] Hl acc; try done.
  cbn in Hl. injection Hl as Hy Hl. cbn [foldl]. rewrite Hy. by apply IH.
Qed.

(** The slots and the flag compared by the bot. *)
Definition sameObservation (e1 e2 : gmap string string) : Prop :=
  (∀ k, k ∈ stateKeys → or_empty (e1 !! k) = or_empty (e2 !! k)) ∧
  e1 !! "stock" = e2 !! "stock".

(** The observation differs from the persisted one, if there is one. *)
Definition observationDiffers (existing : option (gmap string string))
    (entry : gmap string string) : Prop :=
  match existing with
  | None => True
  | Some e => ¬ sameObservation e entry
  end.

Lemma states_of_sameObservation (e1 e2 : gmap string string) :
  (∀ k, k ∈ stateKeys → or_empty (e1 !! k) = or_empty (e2 !! k)) →
  join " " ((λ k, e1 !! k) <$> stateKeys) =
  join " " ((λ k, e2 !! k) <$> stateKeys).
Proof.
  intros H. apply join_default. rewrite <- !list_fmap_compose.
  apply list_fmap_ext. intros i k Hk. apply H.
  by eapply list_elem_of_lookup_2.
Qed.

Lemma hasDataChanged_same existing (e1 e2 : gmap string string) :
  sameObservation e1 e2 →
  hasDataChanged existing e1 = hasDataChanged existing e2.
Proof.
  intros [Hs Hk]. destruct existing as [e|]; [|done]. unfold hasDataChanged.
  by rewrite (states_of_sameObservation _ _ Hs), Hk.
Qed.

Lemma hasDataChanged_unchanged (e1 e2 : gmap string string) :
  sameObservation e1 e2 → hasDataChanged (Some e1) e2 = false.
Proof.
  intros [Hs Hk]. unfold hasDataChanged.
  rewrite (states_of_sameObservation _ _ Hs), Hk.
  rewrite String.eqb_refl. by rewrite bool_decide_true.
Qed.

Lemma OMap_set_nonempty {V} (m : list (string * V)) k v : OMap.set m k v ≠ [].
Proof. destruct m as [|[k' v'] m]; cbn; [done|]. by case_match. Qed.

Section ProcessFacts.
Variable trim : string → string.
Variable toString : Z → string.
Variable load : Z → list (string * gmap string string).

#[local] Abbreviation process := (processStockData trim toString load).
#[local] Abbreviation entryOf := (stockEntry trim toString).
#[local] Abbreviation urlMapOf := (StockBot.urlMapOf load).
#[local] Abbreviation loaded := (ensureLoaded load).

Lemma processStockData_unfold d boxList url now ts st :
  box_list d = Some boxList →
  process (mkExtracted (Some d)) url now ts st =
  let spu := spu_ext_id d in
  let entry := entryOf url boxList ts in
  let urlMap := urlMapOf spu st in
  let st2 :=
    mk (stockData (loaded spu st))
       (updateUrlPriority trim url boxList now (priorityQueue st))
       (webServer st) in
  let broadcast :=
    if webServer st then [BroadcastUpdate spu url entry] else [] in
  if hasDataChanged (OMap.get urlMap url) entry
  then (mk (<[spu := OMap.set urlMap url entry]> (stockData st2))
           (priorityQueue st2) (webServer st2),
        WriteTsv spu (tsvContent (OMap.set urlMap url entry)) :: broadcast)
  else (st2, broadcast).
Proof.
  intros Hb. unfold processStockData. cbn [data]. rewrite Hb. cbn zeta.
  unfold StockBot.urlMapOf.
  set (st1 := mk (stockData st) _ (webServer st)).
  assert (ensureLoaded load (spu_ext_id d) st1 =
          mk (stockData (loaded (spu_ext_id d) st))
             (priorityQueue st1) (webServer st)) as ->.
  { unfold ensureLoaded, st1. cbn [stockData priorityQueue webServer].
    by destruct (stockData st !! spu_ext_id d). }
  cbn [stockData priorityQueue webServer].
  destruct (hasDataChanged _ _) eqn:Hc; [|done].
  unfold updateTsvFile. cbn [stockData]. rewrite lookup_insert_eq.
  pose proof (OMap_set_nonempty
                (default [] (stockData (loaded (spu_ext_id d) st) !! spu_ext_id d))
                url (entryOf url boxList ts)) as Hne.
  by destruct (OMap.set _ _ _).
Qed.
End ProcessFacts.

Lemma hasDataChanged_differs existing entry :
  hasDataChanged existing entry = true → observationDiffers existing entry.
Proof.
  destruct existing as [e|]; [|done]. intros Hc Hsame.
  by rewrite (hasDataChanged_unchanged _ _ Hsame) in Hc.
Qed.

(** The state and the effects of one call, by the verdict of
    [hasDataChanged]. *)
Lemma processStockData_result (trim : string → string)
    (toString : Z → string)
    (load : Z → list (string * gmap string string))
    (d : Data) (boxList : list Box) (url : string) (now : Z) (ts : string)
    (st : t) :
  box_list d = Some boxList →
  let spu := spu_ext_id d in
  let entry := stockEntry trim toString url boxList ts in
  let urlMap := urlMapOf load spu st in
  let changed := hasDataChanged (OMap.get urlMap url) entry in
  let result :=
    processStockData trim toString load (mkExtracted (Some d)) url now ts st in
  stockData result.1 =
    (if changed
     then <[spu := OMap.set urlMap url entry]>
            (stockData (ensureLoaded load spu st))
     else stockData (ensureLoaded load spu st)) ∧
  result.2 =
    (if changed
     then [WriteTsv spu (tsvContent (OMap.set urlMap url entry))]
     else []) ++
    (if webServer st then [BroadcastUpdate spu url entry] else []).
Proof.
  intros Hb. cbn zeta. rewrite (processStockData_unfold _ _ _ _ _ _ _ _ _ Hb).
  cbn zeta. by destruct (hasDataChanged _ _).
Qed.

(** C6 (as amended).  After a target yielded structured data the new
    observation is compared with the one stored for the target.  The
    store of the product is updated, in memory and in its TSV file,
    exactly when [hasDataChanged] says so, which it does only if the
    target has no stored observation or a state slot or the stock flag
    differs.  The update is pushed to the web clients after every such
    call when a web server is attached, whether the observation changed
    or not. *)
Theorem store_follows_change_only (trim : string → string)
    (toString : Z → string)
    (load : Z → list (string * gmap string string))
    (d : Data) (boxList : list Box) (url : string) (now : Z) (ts : string)
    (st : t) :
  box_list d = Some boxList →
  let spu := spu_ext_id d in
  let entry := stockEntry trim toString url boxList ts in
  let urlMap := urlMapOf load spu st in
  let changed := hasDataChanged (OMap.get urlMap url) entry in
  let result :=
    processStockData trim toString load (mkExtracted (Some d)) url now ts st in
  (changed = true → observationDiffers (OMap.get urlMap url) entry) ∧
  stockData result.1 =
    (if changed
     then <[spu := OMap.set urlMap url entry]>
            (stockData (ensureLoaded load spu st))
     else stockData (ensureLoaded load spu st)) ∧
  result.2 =
    (if changed
     then [WriteTsv spu (tsvContent (OMap.set urlMap url entry))]
     else []) ++
    (if webServer st then [BroadcastUpdate spu url entry] else []).
Proof.
  intros Hb. cbn zeta. split; [apply hasDataChanged_differs|].
  by apply processStockData_result.
Qed.

(** *** A product with one known URL *)

Definition sampleUrl : string := "https://shop.example/set/195-10002154800585".

Definition sampleBoxes : list Box := [mkBox 1 1 None; mkBox 2 2 None].

Definition sampleData : Data := mkData 195 (Some sampleBoxes).

Definition sampleEntry (ts : string) : gmap string string :=
  stockEntry (λ s, s) pretty sampleUrl sampleBoxes ts.

(** The bot after it stored the observation made at midnight, with the
    dashboard running. *)
Definition sampleBot : t :=
  mk {[ 195 := [(sampleUrl, sampleEntry "2025-01-01T00:00:00.000Z")] ]}
     PriorityQueue.new true.

Lemma store_follows_change_only_witness :
  (processStockData (λ s, s) pretty (λ _, []) (mkExtracted (Some sampleData))
     sampleUrl 1735689630000 "2025-01-01T00:00:30.000Z" sampleBot).2 =
  [BroadcastUpdate 195 sampleUrl (sampleEntry "2025-01-01T00:00:30.000Z")].
Proof.
  destruct (store_follows_change_only (λ s, s) pretty (λ _, []) sampleData
              sampleBoxes sampleUrl 1735689630000
              "2025-01-01T00:00:30.000Z" sampleBot eq_refl)
    as (_ & _ & Heff).
  exact Heff.
Defined.

(** C6 as it is written fails: the observation made 30 seconds later
    equals the stored one in every slot and in the stock flag, nothing is
    written, and the update is broadcast all the same. *)
Lemma unchanged_observation_is_still_broadcast :
  hasDataChanged
    (OMap.get (urlMapOf (λ _, []) 195 sampleBot) sampleUrl)
    (sampleEntry "2025-01-01T00:00:30.000Z") = false ∧
  (processStockData (λ s, s) pretty (λ _, []) (mkExtracted (Some sampleData))
     sampleUrl 1735689630000 "2025-01-01T00:00:30.000Z" sampleBot).2 =
  [BroadcastUpdate 195 sampleUrl (sampleEntry "2025-01-01T00:00:30.000Z")].
Proof. split; reflexivity. Qed.

(** C10.  The verdict of [hasDataChanged] is the same for two new
    entries that agree on the six state slots and on the stock flag,
    whatever their [lastChecked]; and when the new entry agrees in this
    way with the entry stored for the target, the verdict is "unchanged",
    the store stays as it is and no TSV file is written. *)
Theorem timestamp_does_not_count :
  (∀ (existing : option (gmap string string))
     (new1 new2 : gmap string string),
     sameObservation new1 new2 →
     hasDataChanged existing new1 = hasDataChanged existing new2) ∧
  (∀ (trim : string → string) (toString : Z → string)
     (load : Z → list (string * gmap string string))
     (d : Data) (boxList : list Box) (url : string) (now : Z) (ts : string)
     (st : t) (persisted : gmap string string),
     box_list d = Some boxList →
     OMap.get (urlMapOf load (spu_ext_id d) st) url = Some persisted →
     sameObservation persisted (stockEntry trim toString url boxList ts) →
     let result :=
       processStockData trim toString load (mkExtracted (Some d))
                        url now ts st in
     hasDataChanged (Some persisted)
                    (stockEntry trim toString url boxList ts) = false ∧
     stockData result.1 = stockData (ensureLoaded load (spu_ext_id d) st) ∧
     ∀ spu content, WriteTsv spu content ∉ result.2).
Proof.
  split; [intros; by apply hasDataChanged_same|].
  intros trim toString load d boxList url now ts st persisted Hb Hget Hsame.
  cbn zeta.
  destruct (processStockData_result trim toString load d boxList url now
              ts st Hb) as (Hstore & Heff).
  cbn zeta in Hstore, Heff. rewrite Hget in Hstore, Heff.
  rewrite (hasDataChanged_unchanged _ _ Hsame) in *.
  split; [done|]. split; [done|]. intros spu content. rewrite Heff.
  cbn [app]. destruct (webServer st); [|apply not_elem_of_nil].
  intros Hin%list_elem_of_singleton. discriminate Hin.
Qed.

Lemma timestamp_does_not_count_witness :
  stockData
    (processStockData (λ s, s) pretty (λ _, []) (mkExtracted (Some sampleData))
       sampleUrl 1735689630000 "2025-01-01T00:00:30.000Z" sampleBot).1 =
  stockData sampleBot.
Proof.
  destruct (proj2 timestamp_does_not_count (λ s, s) pretty (λ _, [])
              sampleData sampleBoxes sampleUrl 1735689630000
              "2025-01-01T00:00:30.000Z" sampleBot
              (sampleEntry "2025-01-01T00:00:00.000Z"))
    as (_ & Hstore & _).
  - reflexivity.
  - reflexivity.
  - split; [|reflexivity]. intros k Hk. unfold stateKeys in Hk.
    repeat (apply elem_of_cons in Hk as [->|Hk]; [reflexivity|]).
    by apply elem_of_nil in Hk.
  - exact Hstore.
Defined.

End StockBotFacts.

(** * Properties of the proxy manager *)

Module ProxyManagerFacts.
Import ProxyManager.

(** *** Retry with backoff *)

(** The results of the invocations of the operation, in order. *)
Definition results {R} (log : list (Event R)) : list (R + Error) :=
  omap (λ ev, match ev with Attempt _ res => Some res | Wait _ => None end) log.

(** The waits between the invocations, in order. *)
Definition waits {R} (log : list (Event R)) : list Z :=
  omap (λ ev, match ev with Attempt _ _ => None | Wait ms => Some ms end) log.

(** The wait after the failed attempt number [attempt]. *)
Definition backoff (attempt : Z) : Z := Z.min (1500 * 2 ^ (attempt - 1)) 15000.

(** How a run ends, given the result of the last invocation and the number
    of failed invocations before it. *)
Definition endsWith {R} (out : Outcome R) (last : R + Error) (failedBefore : nat)
    : Prop :=
  match last with
  | inl r => out = Returned r
  | inr e =>
      out = Thrown (Some e) ∧
      (shouldRetryError e = false ∨ failedBefore = 3%nat)
  end.

Section RetryRun.
Context {W R : Type}.
Variable config : RetryConfig.
Variable operation : W → (R + Error) * W.
Variable delay : Z → W → W.

(** The wait after the failed attempt number [attempt] under [config]. *)
Definition backoffFor (attempt : Z) : Z :=
  Z.min (baseDelay config * 2 ^ (attempt - 1)) (maxDelay config).

(** The world in which the operation is invoked for the [k + 1]-th time
    when its first [k] invocations have thrown: each of them has run on
    the world left by the one before, and the wait after it has passed. *)
Fixpoint worldBefore (w : W) (k : nat) : W :=
  match k with
  | O => w
  | S k' => delay (backoffFor (Z.of_nat k)) (operation (worldBefore w k')).2
  end.

(** What is seen of a run in which [a] invocations came before, the next
    ones throw the errors [failed], each followed by its wait, and the one
    after them gives [last]. *)
Definition logFrom (a : nat) (failed : list Error) (last : R + Error)
    : list (Event R) :=
  concat
    (imap (λ i e, [Attempt (Z.of_nat (a + i) + 1) (inr e);
                   Wait (backoffFor (Z.of_nat (a + i) + 1))]) failed) ++
  [Attempt (Z.of_nat (a + length failed) + 1) last].

(** The run ends as its last invocation does. *)
Definition outcomeOf (last : R + Error) : Outcome R :=
  match last with
  | inl r => Returned r
  | inr e => Thrown (Some e)
  end.

Lemma logFrom_nil a last :
  logFrom a [] last = [Attempt (Z.of_nat a + 1) last].
Proof. unfold logFrom. cbn [imap concat app length]. by rewrite Nat.add_0_r. Qed.

Lemma logFrom_cons a e failed last :
  logFrom a (e :: failed) last =
  Attempt (Z.of_nat a + 1) (inr e) :: Wait (backoffFor (Z.of_nat a + 1)) ::
  logFrom (S a) failed last.
Proof.
  unfold logFrom. cbn [imap concat length app]. rewrite Nat.add_0_r.
  do 2 f_equal. f_equal.
  - f_equal. apply imap_ext. intros i x _. cbn.
    by replace (a + S i)%nat with (S (a + i)) by lia.
  - by replace (a + S (length failed))%nat with (S (a + length failed)) by lia.
Qed.

Lemma results_logFrom a failed last :
  results (logFrom a failed last) = (inr <$> failed) ++ [last].
Proof.
  revert a. induction failed as [|e failed IH]; intros a; [done|].
  rewrite logFrom_cons. cbn [results omap list_omap fmap list_fmap app].
  f_equal. apply IH.
Qed.

Lemma waits_logFrom a failed last :
  waits (logFrom a failed last) =
  (λ i : nat, backoffFor (Z.of_nat (a + i) + 1)) <$> seq 0 (length failed).
Proof.
  revert a. induction failed as [|e failed IH]; intros a; [reflexivity|].
  rewrite logFrom_cons. cbn [waits omap list_omap length seq fmap list_fmap].
  rewrite Nat.add_0_r. f_equal. change (omap _ ?l) with (waits l).
  rewrite IH, <- fmap_S_seq, <- list_fmap_compose.
  apply list_fmap_ext. intros _ i _. cbn. do 2 f_equal. lia.
Qed.

(** The loop from the invocation number [a + 1] on, with [fuel] turns
    left: it invokes the operation on the world left by the invocations
    and the waits before, and goes on while the error thrown is one to
    retry and a turn is left. *)
Lemma retryLoop_run (w : W) (fuel a : nat) (lastError : option Error) :
  (1 ≤ fuel)%nat → Z.of_nat (a + fuel) = maxRetries config →
  ∃ (failed : list Error) (last : R + Error),
    (length failed < fuel)%nat ∧
    Forall (λ e, shouldRetryError e = true) failed ∧
    (∀ i e, failed !! i = Some e →
       (operation (worldBefore w (a + i))).1 = inr e) ∧
    (operation (worldBefore w (a + length failed))).1 = last ∧
    match last with
    | inl _ => True
    | inr e => shouldRetryError e = false ∨ length failed = (fuel - 1)%nat
    end ∧
    retryLoop config operation delay fuel (Z.of_nat a + 1) lastError
              (worldBefore w a) =
    (outcomeOf last, (operation (worldBefore w (a + length failed))).2,
     logFrom a failed last).
Proof.
  revert a lastError.
  induction fuel as [|fuel IH]; intros a lastError Hfuel Hmax; [lia|].
  cbn [retryLoop].
  destruct (operation (worldBefore w a)) as [[r|e] w1] eqn:Hop.
  - exists [], (inl r). cbn [length]. rewrite Nat.add_0_r, Hop.
    split; [lia|]. split; [apply Forall_nil_2|].
    split; [intros i e' Hi; by rewrite lookup_nil in Hi|].
    by rewrite logFrom_nil.
  - destruct (shouldRetryError e) eqn:He; cbn [negb orb].
    + case_bool_decide as Hlast.
      * exists [], (inr e). cbn [length]. rewrite Nat.add_0_r, Hop.
        split; [lia|]. split; [apply Forall_nil_2|].
        split; [intros i e' Hi; by rewrite lookup_nil in Hi|].
        split; [done|]. split; [right; lia|]. by rewrite logFrom_nil.
      * assert (delay (Z.min (baseDelay config * 2 ^ (Z.of_nat a + 1 - 1))
                             (maxDelay config)) w1 = worldBefore w (S a)) as ->.
        { cbn [worldBefore]. rewrite Hop. cbn [snd]. unfold backoffFor.
          by replace (Z.of_nat (S a)) with (Z.of_nat a + 1) by lia. }
        replace (Z.of_nat a + 1 + 1) with (Z.of_nat (S a) + 1) by lia.
        destruct (IH (S a) (Some e) ltac:(lia) ltac:(lia))
          as (failed & last & Hlen & Hall & Hfailed & Hlastop & Hend & Hrun).
        rewrite Hrun. exists (e :: failed), last. cbn [length].
        replace (a + S (length failed))%nat with (S a + length failed)%nat
          by lia.
        split; [lia|]. split; [by constructor|]. split.
        { intros [|i] e' Hi.
          - injection Hi as <-. by rewrite Nat.add_0_r, Hop.
          - replace (a + S i)%nat with (S a + i)%nat by lia.
            by apply Hfailed. }
        split; [done|]. split.
        { destruct last; [done|]. destruct Hend; [by left|right; lia]. }
        by rewrite logFrom_cons.
    + exists [], (inr e). cbn [length]. rewrite Nat.add_0_r, Hop.
      split; [lia|]. split; [apply Forall_nil_2|].
      split; [intros i e' Hi; by rewrite lookup_nil in Hi|].
      split; [done|]. split; [by left|]. by rewrite logFrom_nil.
Qed.

(** The whole run, for a configuration that allows an invocation. *)
Lemma retryWithBackoff_run (w : W) :
  1 ≤ maxRetries config →
  ∃ (failed : list Error) (last : R + Error),
    Z.of_nat (length failed) < maxRetries config ∧
    Forall (λ e, shouldRetryError e = true) failed ∧
    (∀ i e, failed !! i = Some e → (operation (worldBefore w i)).1 = inr e) ∧
    match last with
    | inl _ => True
    | inr e =>
        shouldRetryError e = false ∨
        Z.of_nat (length failed) = maxRetries config - 1
    end ∧
    retryWithBackoff config operation delay w =
    (outcomeOf last, (operation (worldBefore w (length failed))).2,
     logFrom 0 failed last) ∧
    (operation (worldBefore w (length failed))).1 = last.
Proof.
  intros Hmax. unfold retryWithBackoff.
  destruct (retryLoop_run w (Z.to_nat (maxRetries config)) 0 None
              ltac:(lia) ltac:(lia))
    as (failed & last & Hlen & Hall & Hfailed & Hlastop & Hend & Hrun).
  exists failed, last. cbn [Nat.add worldBefore] in *.
  change (Z.of_nat 0 + 1) with 1 in Hrun.
  split; [lia|]. split; [done|]. split; [done|]. split; [|by split].
  destruct last; [done|]. destruct Hend; [by left|right; lia].
Qed.
End RetryRun.

(** *** [includes] finds substrings *)

Lemma append_String (a : Ascii.ascii) (s t : string) :
  String a s +:+ t = String a (s +:+ t).
Proof. reflexivity. Qed.

Lemma append_empty (t : string) : "" +:+ t = t.
Proof. reflexivity. Qed.

Lemma prefix_app (sub s : string) :
  String.prefix sub s = true ↔ ∃ post, s = sub +:+ post.
Proof.
  revert s. induction sub as [|a sub IH]; intros s.
  - split; [by exists s|]. intros _. by destruct s.
  - destruct s as [|b s]; cbn [String.prefix].
    + split; [discriminate|]. intros [post H]. discriminate H.
    + destruct (Ascii.ascii_dec a b) as [->|Hne].
      * rewrite IH. split; intros [post H]; exists post.
        -- by rewrite append_String, H.
        -- rewrite append_String in H. congruence.
      * split; [discriminate|]. intros [post H].
        rewrite append_String in H. congruence.
Qed.

Lemma includes_spec (s sub : string) :
  includes s sub = true ↔ ∃ pre post, s = pre +:+ sub +:+ post.
Proof.
  induction s as [|a s IH]; cbn [includes].
  - rewrite orb_false_r, prefix_app. split.
    + intros [post ->]. by exists "", post.
    + intros (pre & post & H). destruct pre; [by exists post|done].
  - rewrite orb_true_iff, prefix_app, IH. split.
    + intros [[post H]|(pre & post & H)].
      * by exists "", post.
      * exists (String a pre), post. by rewrite append_String, H.
    + intros (pre & post & H). destruct pre as [|b pre].
      * left. by exists post.
      * right. exists pre, post. rewrite append_String in H. congruence.
Qed.

Lemma shouldRetryError_iff (e : Error) :
  shouldRetryError e = true ↔
  ∃ signature, signature ∈ retryableErrors ∧
    (opt_includes (message e) signature = true ∨
     opt_includes (code e) signature = true).
Proof.
  unfold shouldRetryError. rewrite existsb_exists. split.
  - intros (x & Hx & H). exists x. rewrite list_elem_of_In.
    by rewrite orb_true_iff in H.
  - intros (x & Hx & H). exists x. rewrite <- list_elem_of_In.
    by rewrite orb_true_iff.
Qed.

Lemma opt_includes_spec (s : option string) (sub : string) :
  opt_includes s sub = true ↔ ∃ pre post, s = Some (pre +:+ sub +:+ post).
Proof.
  destruct s as [s|]; cbn [opt_includes].
  - rewrite includes_spec. split; intros (pre & post & H); exists pre, post;
      congruence.
  - split; [discriminate|]. by intros (pre & post & H).
Qed.

Lemma shouldRetryError_signature (e : Error) :
  shouldRetryError e = true ↔
  ∃ signature pre post,
    signature ∈ retryableErrors ∧
    (message e = Some (pre +:+ signature +:+ post) ∨
     code e = Some (pre +:+ signature +:+ post)).
Proof.
  rewrite shouldRetryError_iff. split.
  - intros (sig & Hsig & [H|H]); apply opt_includes_spec in H
      as (pre & post & H); exists sig, pre, post; auto.
  - intros (sig & pre & post & Hsig & [H|H]); exists sig; (split; [done|]);
      [left|right]; apply opt_includes_spec; by exists pre, post.
Qed.

(** C5 (as amended).  With the configuration of the constructor,
    [retryWithBackoff] invokes the operation at most 4 times: the first
    attempt and at most 3 retries.  Each invocation runs on the world that
    the invocations and the waits before it have left; every invocation
    but the last throws an error that [shouldRetryError] accepts, and the
    wait after the failed attempt [k] is [min (1500 * 2^(k-1)) 15000]
    milliseconds, that is 1500, 3000 and 6000.  The run ends in the world
    left by the last invocation; it returns the value of that invocation,
    or throws its very error, which is then one that the classifier
    rejects or the error of the fourth attempt.  The classifier accepts an
    error exactly when its message or its code contains one of the six
    signatures. *)
Theorem retry_contract {W R : Type} (operation : W → (R + Error) * W)
    (delay : Z → W → W) (w : W) :
  (∃ (failed : list Error) (last : R + Error),
     let run := retryWithBackoff retryConfig operation delay w in
     (length failed ≤ 3)%nat ∧
     Forall (λ e, shouldRetryError e = true) failed ∧
     (∀ i e, failed !! i = Some e →
        (operation (worldBefore retryConfig operation delay w i)).1 = inr e) ∧
     operation (worldBefore retryConfig operation delay w (length failed)) =
       (last, run.1.2) ∧
     run.2 = logFrom retryConfig 0 failed last ∧
     results run.2 = (inr <$> failed) ++ [last] ∧
     waits run.2 =
       (λ k : nat, backoff (Z.of_nat k)) <$> seq 1 (length failed) ∧
     waits run.2 = take (length failed) [1500; 3000; 6000] ∧
     endsWith run.1.1 last (length failed)) ∧
  (∀ e : Error,
     shouldRetryError e = true ↔
     ∃ signature pre post,
       signature ∈ ["Too many concurrent attempts"; "Throttling";
                    "RequestLimitExceeded"; "ServiceUnavailable";
                    "InternalError"; "Rate exceeded"] ∧
       (message e = Some (pre +:+ signature +:+ post) ∨
        code e = Some (pre +:+ signature +:+ post))).
Proof.
  split; [|apply shouldRetryError_signature].
  destruct (retryWithBackoff_run retryConfig operation delay w)
    as (failed & last & Hlen & Hall & Hfailed & Hend & Hrun & Hlast);
    [done|].
  cbn [maxRetries retryConfig] in Hlen, Hend.
  exists failed, last. cbv zeta. rewrite Hrun. cbn [fst snd].
  assert (waits (logFrom retryConfig 0 failed last) =
          (λ k : nat, backoff (Z.of_nat k)) <$> seq 1 (length failed)) as Hwaits.
  { rewrite waits_logFrom, <- fmap_S_seq, <- list_fmap_compose.
    apply list_fmap_ext. intros _ i _. cbn. unfold backoffFor, backoff.
    cbn [baseDelay maxDelay retryConfig]. do 3 f_equal. lia. }
  split; [lia|]. split; [done|]. split; [done|]. split.
  { rewrite <- Hlast. by destruct (operation _). }
  split; [done|]. split; [apply results_logFrom|]. split; [done|]. split.
  - rewrite Hwaits.
    destruct failed as [|e1 [|e2 [|e3 [|e4 failed]]]]; try reflexivity.
    cbn [length] in Hlen. lia.
  - unfold endsWith. destruct last as [r|e]; [done|]. split; [done|].
    destruct Hend; [by left|right; lia].
Qed.

(** An operation that is throttled at every invocation; the world counts
    the invocations. *)
Definition throttled : Error :=
  mkError (Some "Rate exceeded") (Some "ThrottlingException").

Definition alwaysThrottled (calls : nat) : (unit + Error) * nat :=
  (inr throttled, S calls).

Example always_throttled_run :
  retryWithBackoff retryConfig alwaysThrottled (λ _ calls, calls) 0%nat =
  (Thrown (Some throttled), 4%nat,
   [Attempt 1 (inr throttled); Wait 1500;
    Attempt 2 (inr throttled); Wait 3000;
    Attempt 3 (inr throttled); Wait 6000;
    Attempt 4 (inr throttled)]).
Proof. reflexivity. Qed.

(** An operation that is throttled four times and would succeed at its
    fifth invocation; the world counts the invocations. *)
Definition throttledFourTimes (calls : nat) : (string + Error) * nat :=
  (if decide (calls < 4)%nat then inr throttled else inl "arn", S calls).

(** C5 as it is written fails: the operation is not retried a fourth
    time.  After the first attempt and three retries the error of the
    fourth invocation is thrown, although it is one to retry and the next
    invocation would have succeeded. *)
Lemma fourth_retry_is_never_made :
  retryWithBackoff retryConfig throttledFourTimes (λ _ calls, calls) 0%nat =
  (Thrown (Some throttled), 4%nat,
   [Attempt 1 (inr throttled); Wait 1500;
    Attempt 2 (inr throttled); Wait 3000;
    Attempt 3 (inr throttled); Wait 6000;
    Attempt 4 (inr throttled)]) ∧
  shouldRetryError throttled = true ∧
  (throttledFourTimes 4).1 = inl "arn".
Proof. repeat split; reflexivity. Qed.

Example not_transient :
  shouldRetryError
    (mkError (Some "No VPC found in us-west-2.") None) = false.
Proof. reflexivity. Qed.

(** *** Region assignment *)

Lemma targetRegions_lookup (pm : Regions) (count : Z)
    (supplied : option (list string)) (i : nat) :
  (i < Z.to_nat count)%nat →
  availableRegions pm supplied ≠ [] →
  ∃ region,
    availableRegions pm supplied
      !! (i `mod` length (availableRegions pm supplied))%nat = Some region ∧
    targetRegions pm count supplied !! i = Some (Some region).
Proof.
  intros Hi Hne. unfold targetRegions.
  set (l := availableRegions pm supplied) in *.
  assert (0 < length l)%nat as Hlen by (destruct l; [done|cbn; lia]).
  destruct (lookup_lt_is_Some_2 l (i `mod` length l)%nat) as [region Hr].
  { apply Nat.mod_upper_bound. lia. }
  exists region. split; [done|].
  rewrite list_lookup_fmap, lookup_seq_lt by done. cbn.
  unfold js_rem, JS.len. rewrite decide_False by lia.
  cbn [at_opt]. unfold JS.at_index.
  rewrite Z.rem_mod_nonneg by lia.
  rewrite decide_True by (apply Z.mod_pos_bound; lia).
  rewrite <- Nat2Z.inj_mod, Nat2Z.id. by rewrite Hr.
Qed.

(** C7 (as amended).  [createProxies(count, regions)] assigns a region to
    each of the [count] proxies; with a supplied list that is not empty,
    proxy [i] gets [regions[i mod |regions|]]; with no list supplied
    ([null]) the default list of the manager is used in the same way. *)
Theorem region_round_robin (pm : Regions) (count : Z) :
  (∀ supplied : option (list string),
     length (targetRegions pm count supplied) = Z.to_nat count) ∧
  (∀ (l : list string) (i : nat),
     l ≠ [] → (i < Z.to_nat count)%nat →
     ∃ region,
       l !! (i `mod` length l)%nat = Some region ∧
       targetRegions pm count (Some l) !! i = Some (Some region)) ∧
  (∀ i : nat,
     (i < Z.to_nat count)%nat →
     ∃ region,
       defaultRegions !! (i `mod` 4)%nat = Some region ∧
       targetRegions newRegions count None !! i = Some (Some region)).
Proof.
  split; [|split].
  - intros supplied. unfold targetRegions. by rewrite length_fmap, length_seq.
  - intros l i Hne Hi.
    by apply (targetRegions_lookup pm count (Some l) i Hi).
  - intros i Hi.
    by apply (targetRegions_lookup newRegions count None i Hi).
Qed.

Lemma region_round_robin_witness :
  targetRegions newRegions 5 (Some ["eu-west-1"; "eu-west-2"]) !! 4%nat =
  Some (Some "eu-west-1").
Proof.
  destruct (proj1 (proj2 (region_round_robin newRegions 5))
              ["eu-west-1"; "eu-west-2"] 4%nat) as (region & Hr & Ht).
  - discriminate.
  - cbn. lia.
  - cbn in Hr. injection Hr as <-. exact Ht.
Defined.

(** C7 as it is written fails: an empty supplied list is an array, hence
    truthy; it is not replaced by the default list, the index [i % 0] is
    [NaN] and every proxy is given the region [undefined]. *)
Lemma empty_region_list_is_not_replaced :
  targetRegions newRegions 2 (Some []) = [None; None] ∧
  targetRegions newRegions 2 None = [Some "us-east-1"; Some "us-east-2"].
Proof. split; reflexivity. Qed.

End ProxyManagerFacts.

(** * Properties of the creation of per-region resources *)

Module RegionResourcesFacts.
Import ProxyManager RegionResources.

(** A manager in which no creation of a task definition is in flight: no
    promise is pending and the global lock is free. *)
Definition quiet (w : World) : Prop :=
  globalTaskDefinitionLock w = None ∧
  Forall (λ pr, pr_state pr ≠ Pending) (promises w).

(** The region has no task definition yet and nobody is creating one. *)
Definition uncached (region : string) (w : World) : Prop :=
  taskDefinitionCache w !! region = None ∧
  taskDefinitionMutex w !! region = None.

Section OneRegion.
Variable registerTaskDefinition : string → nat → string + Error.
Variable newGroupId : string → string.
Variable region : string.
Variable arn : string.
Variable w0 : World.
Hypothesis registration_succeeds :
  ∀ p, registerTaskDefinition region p = inl arn.
Hypothesis w0_quiet : quiet w0.
Hypothesis w0_uncached : uncached region w0.

#[local] Abbreviation stepOf := (step registerTaskDefinition newGroupId).
#[local] Abbreviation execOf := (exec registerTaskDefinition newGroupId).
#[local] Abbreviation p0 := (length (promises w0)).

(** No caller has run yet. *)
Definition notStarted (cfg : World * list Caller) : Prop :=
  cfg.1 = w0 ∧ Forall (λ c, c = TdStart region) cfg.2.

(** One creation is in flight; its promise is the mutex of the region and
    the global lock. *)
Definition creating (cfg : World * list Caller) : Prop :=
  promises cfg.1 = promises w0 ++ [mkPromise region Pending] ∧
  taskDefinitionCache cfg.1 !! region = None ∧
  taskDefinitionMutex cfg.1 !! region = Some p0 ∧
  globalTaskDefinitionLock cfg.1 = Some p0 ∧
  startedCreations cfg.1 = startedCreations w0 ++ [region] ∧
  Forall (λ c, c = TdStart region ∨ c = TdAwaitMutex region p0 ∨
               c = TdAwaitCreation region p0) cfg.2.

(** The creation has ended and the ARN is cached. *)
Definition created (cfg : World * list Caller) : Prop :=
  promises cfg.1 = promises w0 ++ [mkPromise region (Fulfilled arn)] ∧
  taskDefinitionCache cfg.1 !! region = Some arn ∧
  startedCreations cfg.1 = startedCreations w0 ++ [region] ∧
  Forall (λ c, c = TdStart region ∨ c = TdAwaitMutex region p0 ∨
               c = TdAwaitCreation region p0 ∨ c = Finished (inl arn)) cfg.2.

Definition oneCreation (cfg : World * list Caller) : Prop :=
  notStarted cfg ∨ creating cfg ∨ created cfg.

Lemma complete_settled (w : World) (p : nat) :
  Forall (λ pr, pr_state pr ≠ Pending) (promises w) →
  complete registerTaskDefinition p w = None.
Proof.
  intros Hall. unfold complete.
  destruct (promises w !! p) as [[r s]|] eqn:Hp; [|done].
  rewrite Forall_forall in Hall.
  specialize (Hall _ (list_elem_of_lookup_2 _ _ _ Hp)). cbn in Hall.
  by destruct s.
Qed.

Lemma step_notStarted cfg m : notStarted cfg → oneCreation (stepOf cfg m).
Proof.
  destruct cfg as [w cs]. intros [Hw Hcs]. cbn in Hw, Hcs. subst w.
  destruct w0_quiet as [Hlock Hsettled]. destruct w0_uncached as [Hc Hm].
  destruct m as [i|p]; cbn [step fst snd].
  - destruct (cs !! i) as [c|] eqn:Hi; [|by left].
    rewrite Forall_forall in Hcs.
    rewrite (Hcs c) by (by eapply list_elem_of_lookup_2).
    cbn [callerStep]. rewrite Hc, Hm. unfold enterCreation. rewrite Hlock.
    right; left. repeat split; cbn; try done.
    + by rewrite lookup_insert_eq.
    + apply Forall_insert; [|by right; right].
      apply Forall_forall. intros c' Hc'. left. by apply Hcs.
  - rewrite complete_settled by done. by left.
Qed.

Lemma step_creating cfg m : creating cfg → oneCreation (stepOf cfg m).
Proof.
  destruct cfg as [w cs]. intros (Hp & Hc & Hm & Hl & Hs & Hcs). cbn in *.
  destruct w0_quiet as [_ Hsettled].
  assert (settled w p0 = None) as Hpending.
  { unfold settled. by rewrite Hp, list_lookup_middle. }
  destruct m as [i|p]; cbn [step fst snd].
  - destruct (cs !! i) as [c|] eqn:Hi; [|by right; left].
    assert (c ∈ cs) as Hin by (by eapply list_elem_of_lookup_2).
    rewrite Forall_forall in Hcs.
    destruct (Hcs c Hin) as [-> | [-> | ->]]; cbn [callerStep].
    + rewrite Hc, Hm. right; left. repeat split; cbn; try done.
      apply Forall_insert; [by apply Forall_forall|]. by right; left.
    + rewrite Hpending. right; left. repeat split; try done.
      by apply Forall_forall.
    + rewrite Hpending. right; left. repeat split; try done.
      by apply Forall_forall.
  - destruct (decide (p = p0)) as [->|Hne].
    + unfold complete. rewrite Hp, list_lookup_middle by done.
      rewrite registration_succeeds. right; right.
      repeat split; cbn; try done.
      * rewrite insert_app_r_alt by lia. by rewrite Nat.sub_diag.
      * by rewrite lookup_insert_eq.
      * eapply Forall_impl; [exact Hcs|]. cbn. tauto.
    + assert (complete registerTaskDefinition p w = None) as ->.
      { unfold complete. rewrite Hp.
        destruct (decide (p < p0)%nat) as [Hlt|Hge].
        - rewrite lookup_app_l by done.
          destruct (promises w0 !! p) as [[r s]|] eqn:Hpr; [|done].
          rewrite Forall_forall in Hsettled.
          specialize (Hsettled _ (list_elem_of_lookup_2 _ _ _ Hpr)).
          cbn in Hsettled. by destruct s.
        - rewrite lookup_ge_None_2; [done|]. rewrite length_app. cbn. lia. }
      right; left. by repeat split.
Qed.

Lemma step_created cfg m : created cfg → created (stepOf cfg m).
Proof.
  destruct cfg as [w cs]. intros (Hp & Hc & Hs & Hcs). cbn in *.
  destruct w0_quiet as [_ Hsettled].
  assert (settled w p0 = Some (inl arn)) as Hdone.
  { unfold settled. by rewrite Hp, list_lookup_middle. }
  assert (∀ i, Forall (λ c, c = TdStart region ∨ c = TdAwaitMutex region p0 ∨
                 c = TdAwaitCreation region p0 ∨ c = Finished (inl arn))
            (<[i := Finished (inl arn)]> cs)) as Hins.
  { intros i. apply Forall_insert; [done|]. by right; right; right. }
  destruct m as [i|p]; cbn [step fst snd].
  - destruct (cs !! i) as [c|] eqn:Hi; [|by repeat split].
    assert (c ∈ cs) as Hin by (by eapply list_elem_of_lookup_2).
    rewrite Forall_forall in Hcs.
    destruct (Hcs c Hin) as [-> | [-> | [-> | ->]]]; cbn [callerStep].
    + rewrite Hc. repeat split; cbn; done.
    + rewrite Hdone, Hc. repeat split; cbn; done.
    + rewrite Hdone. repeat split; cbn; done.
    + repeat split; try done. by apply Forall_forall.
  - rewrite complete_settled; [by repeat split|]. rewrite Hp.
    apply Forall_app. split; [done|]. by repeat constructor.
Qed.

Lemma step_oneCreation cfg m : oneCreation cfg → oneCreation (stepOf cfg m).
Proof.
  intros [H|[H|H]].
  - by apply step_notStarted.
  - by apply step_creating.
  - right; right. by apply step_created.
Qed.

Lemma exec_oneCreation schedule cfg :
  oneCreation cfg → oneCreation (execOf schedule cfg).
Proof.
  revert cfg. induction schedule as [|m schedule IH]; intros cfg H; [done|].
  cbn. apply IH. by apply step_oneCreation.
Qed.

Lemma oneCreation_init n : oneCreation (w0, replicate n (TdStart region)).
Proof.
  left. split; [done|]. cbn. apply Forall_forall.
  by intros c ->%elem_of_replicate_inv.
Qed.

(** What the invariant says of the creations and of the callers that
    returned. *)
Lemma oneCreation_outcome cfg :
  oneCreation cfg →
  (startedCreations cfg.1 = startedCreations w0 ∨
   startedCreations cfg.1 = startedCreations w0 ++ [region]) ∧
  ∀ i result,
    cfg.2 !! i = Some (Finished result) →
    result = inl arn ∧
    startedCreations cfg.1 = startedCreations w0 ++ [region] ∧
    taskDefinitionCache cfg.1 !! region = Some arn.
Proof.
  intros [[Hw Hcs]|[(Hp & Hc & Hm & Hl & Hs & Hcs)|(Hp & Hc & Hs & Hcs)]].
  - split; [left; by rewrite Hw|]. intros i result Hi.
    rewrite Forall_forall in Hcs.
    by specialize (Hcs _ (list_elem_of_lookup_2 _ _ _ Hi)).
  - split; [by right|]. intros i result Hi. rewrite Forall_forall in Hcs.
    by destruct (Hcs _ (list_elem_of_lookup_2 _ _ _ Hi)) as [?|[?|?]].
  - split; [by right|]. intros i result Hi. rewrite Forall_forall in Hcs.
    destruct (Hcs _ (list_elem_of_lookup_2 _ _ _ Hi)) as [?|[?|[?|Hfin]]];
      try done. injection Hfin as ->. done.
Qed.

(** Two callers; the first to run starts the creation, the second waits
    for the promise stored as the mutex of the region. *)
Definition twoCallers : World * list Caller :=
  (w0, [TdStart region; TdStart region]).

Lemma two_callers_block :
  (execOf [Run 0; Run 1] twoCallers).2 =
    [TdAwaitCreation region p0; TdAwaitMutex region p0] ∧
  callerStep newGroupId (TdAwaitMutex region p0)
             (execOf [Run 0; Run 1] twoCallers).1 = None.
Proof.
  destruct w0_quiet as [Hlock Hsettled]. destruct w0_uncached as [Hc Hm].
  unfold exec, twoCallers. cbn. rewrite Hc, Hm. unfold enterCreation.
  rewrite Hlock. cbn. rewrite Hc, lookup_insert_eq. cbn. split; [done|].
  unfold settled. cbn. by rewrite list_lookup_middle.
Qed.

Lemma two_callers_finish :
  (execOf [Run 0; Run 1; Complete p0; Run 0; Run 1] twoCallers).2 =
    [Finished (inl arn); Finished (inl arn)].
Proof.
  destruct w0_quiet as [Hlock Hsettled]. destruct w0_uncached as [Hc Hm].
  unfold exec, twoCallers. cbn. rewrite Hc, Hm. unfold enterCreation.
  rewrite Hlock. cbn. rewrite Hc, lookup_insert_eq. cbn.
  unfold complete. cbn. rewrite list_lookup_middle by done.
  rewrite registration_succeeds. cbn. unfold settled. cbn.
  rewrite insert_app_r_alt by lia. rewrite Nat.sub_diag. cbn.
  rewrite list_lookup_middle by done. cbn.
  rewrite lookup_insert_eq. unfold settled, releaseMutexes. cbn.
  by rewrite list_lookup_middle.
Qed.
End OneRegion.

(** C4 (as amended).  Take a manager in which no creation of a task
    definition is in flight and the region is not cached, and let the
    registration for the region succeed.  However many calls of
    [createTaskDefinition(region)] run concurrently, and in whatever order
    their segments and the end of the creation happen, at most one creation
    is started for the region, and every call that returns, returns the
    cached ARN after exactly one creation.  With two calls, the one that
    runs second is suspended on the promise stored as the mutex of the
    region, cannot move while the creation is pending, and returns the ARN
    once the creation has ended.  [ensureSecurityGroup] has a cache and no
    mutex: a call made when the group of the region is cached returns it
    without any request to the cloud. *)
Theorem one_creation_per_region
    (registerTaskDefinition : string → nat → string + Error)
    (newGroupId : string → string) (region arn : string) (w0 : World) :
  (∀ p, registerTaskDefinition region p = inl arn) →
  quiet w0 → uncached region w0 →
  (∀ (n : nat) (schedule : list Move),
     let cfg :=
       exec registerTaskDefinition newGroupId schedule
            (w0, replicate n (TdStart region)) in
     (startedCreations cfg.1 = startedCreations w0 ∨
      startedCreations cfg.1 = startedCreations w0 ++ [region]) ∧
     ∀ i result,
       cfg.2 !! i = Some (Finished result) →
       result = inl arn ∧
       startedCreations cfg.1 = startedCreations w0 ++ [region] ∧
       taskDefinitionCache cfg.1 !! region = Some arn) ∧
  (let cfg :=
     exec registerTaskDefinition newGroupId [Run 0; Run 1]
          (w0, [TdStart region; TdStart region]) in
   cfg.2 = [TdAwaitCreation region (length (promises w0));
            TdAwaitMutex region (length (promises w0))] ∧
   callerStep newGroupId (TdAwaitMutex region (length (promises w0))) cfg.1
     = None) ∧
  (exec registerTaskDefinition newGroupId
        [Run 0; Run 1; Complete (length (promises w0)); Run 0; Run 1]
        (w0, [TdStart region; TdStart region])).2 =
    [Finished (inl arn); Finished (inl arn)] ∧
  (∀ (w : World) (groupId : string),
     securityGroupCache w !! region = Some groupId →
     callerStep newGroupId (SgStart region) w =
       Some (Finished (inl groupId), w)).
Proof.
  intros Hreg Hquiet Hunc. split; [|split; [|split]].
  - intros n schedule. cbn zeta.
    apply (oneCreation_outcome region arn w0).
    apply exec_oneCreation; [done..|]. apply oneCreation_init.
  - by apply two_callers_block.
  - by apply two_callers_finish.
  - intros w groupId Hw. cbn. by rewrite Hw.
Qed.

(** A cloud in which every registration succeeds. *)
Definition registerOk (region : string) (p : nat) : string + Error :=
  inl ("arn:aws:ecs:" +:+ region +:+ ":task-definition/stockbot-socks5-proxy:1").

Definition groupIdOf (region : string) : string := "sg-" +:+ region.

Lemma one_creation_per_region_witness :
  startedCreations
    (exec registerOk groupIdOf [Run 1; Run 0; Complete 0; Run 1; Run 0]
          (fresh, replicate 2 (TdStart "us-east-1"))).1 = ["us-east-1"].
Proof.
  destruct (proj1 (one_creation_per_region registerOk groupIdOf "us-east-1"
                     "arn:aws:ecs:us-east-1:task-definition/stockbot-socks5-proxy:1"
                     fresh (λ p, eq_refl)
                     (conj eq_refl (Forall_nil_2 _))
                     (conj eq_refl eq_refl))
              2%nat [Run 1; Run 0; Complete 0; Run 1; Run 0]) as [_ Hret].
  destruct (Hret 0%nat
              (inl "arn:aws:ecs:us-east-1:task-definition/stockbot-socks5-proxy:1")
              eq_refl) as (_ & Hstarted & _).
  exact Hstarted.
Defined.

(** C4 as it is written fails for [ensureSecurityGroup]: two calls for the
    same region that both run before the first answer of the cloud both
    miss the cache, both find no group, and both send a creation request;
    the second request is answered with "already exists" and the caller
    falls back to the lookup. *)
Lemma concurrent_ensureSecurityGroup_creates_twice :
  (exec registerOk groupIdOf [Run 0; Run 1; Run 0; Run 1; Run 0; Run 1]
        (fresh, [SgStart "us-east-1"; SgStart "us-east-1"])).2 =
    [Finished (inl "sg-us-east-1"); Finished (inl "sg-us-east-1")] ∧
  createGroupCalls
    (exec registerOk groupIdOf [Run 0; Run 1; Run 0; Run 1; Run 0; Run 1]
          (fresh, [SgStart "us-east-1"; SgStart "us-east-1"])).1 =
    ["us-east-1"; "us-east-1"].
Proof. split; reflexivity. Qed.

(** The cache is not read again after a wait on the global lock.  Two calls
    for one region that arrive while the creation of another region holds
    the global lock both wait for it; the first to resume creates the task
    definition, the second waits for that creation as the new global lock
    and then creates the task definition a second time. *)
Lemma waiting_on_global_lock_creates_again :
  startedCreations
    (exec registerOk groupIdOf
          [Run 0; Run 1; Run 2; Complete 0; Run 0; Run 1; Run 2;
           Complete 1; Run 1; Run 2]
          (fresh, [TdStart "us-east-2"; TdStart "us-east-1";
                   TdStart "us-east-1"])).1 =
    ["us-east-2"; "us-east-1"; "us-east-1"].
Proof. reflexivity. Qed.

(** A registration that fails rejects the promise; the caller that waits on
    the mutex of the region gets the same error and starts no creation. *)
Definition registerFails (region : string) (p : nat) : string + Error :=
  inr (mkError (Some "AccessDenied") None).

Lemma failed_creation_reaches_both_callers :
  (exec registerFails groupIdOf [Run 0; Run 1; Complete 0; Run 1; Run 0]
        (fresh, [TdStart "us-east-1"; TdStart "us-east-1"])).2 =
    [Finished (inr (mkError (Some "AccessDenied") None));
     Finished (inr (mkError (Some "AccessDenied") None))] ∧
  startedCreations
    (exec registerFails groupIdOf [Run 0; Run 1; Complete 0; Run 1; Run 0]
          (fresh, [TdStart "us-east-1"; TdStart "us-east-1"])).1 =
    ["us-east-1"] ∧
  taskDefinitionCache
    (exec registerFails groupIdOf [Run 0; Run 1; Complete 0; Run 1; Run 0]
          (fresh, [TdStart "us-east-1"; TdStart "us-east-1"])).1
    !! "us-east-1" = None.
Proof. repeat split; reflexivity. Qed.

End RegionResourcesFacts.

(** * Further properties of the priority queue *)

Module OMapFacts.
Section Facts.
Context {V : Type}.
Implicit Types (m : list (string * V)) (k : string) (v : V).

(** The keys, in insertion order. *)
Definition keys m : list string := m.*1.

Lemma get_set_eq m k v : OMap.get (OMap.set m k v) k = Some v.
Proof.
  induction m as [|[k' v'] m IH]; cbn.
  - by rewrite String.eqb_refl.
  - destruct (String.eqb k' k) eqn:E; cbn.
    + by rewrite String.eqb_refl.
    + by rewrite E.
Qed.

Lemma get_set_ne m k k' v :
  k ≠ k' → OMap.get (OMap.set m k v) k' = OMap.get m k'.
Proof.
  intros Hne. induction m as [|[k0 v0] m IH]; cbn.
  - by rewrite (proj2 (String.eqb_neq k k')).
  - destruct (String.eqb k0 k) eqn:E; cbn.
    + apply String.eqb_eq in E. subst k0.
      by rewrite !(proj2 (String.eqb_neq k k')).
    + by rewrite IH.
Qed.

Lemma get_delete_ne m k k' :
  k ≠ k' → OMap.get (OMap.delete m k) k' = OMap.get m k'.
Proof.
  intros Hne. induction m as [|[k0 v0] m IH]; cbn; [done|].
  destruct (String.eqb k0 k) eqn:E; cbn.
  - apply String.eqb_eq in E. subst k0.
    by rewrite (proj2 (String.eqb_neq k k')).
  - by rewrite IH.
Qed.

Lemma get_None m k : OMap.get m k = None ↔ k ∉ keys m.
Proof.
  unfold keys. induction m as [|[k0 v0] m IH]; cbn.
  - split; [intros _; apply not_elem_of_nil|done].
  - rewrite not_elem_of_cons. destruct (String.eqb k0 k) eqn:E.
    + apply String.eqb_eq in E. subst. split; [done|]. by intros [? _].
    + apply String.eqb_neq in E. rewrite IH. split; [by split|by intros [_ ?]].
Qed.

Lemma get_Some_elem m k v : OMap.get m k = Some v → (k, v) ∈ m.
Proof.
  induction m as [|[k0 v0] m IH]; cbn; [done|].
  destruct (String.eqb k0 k) eqn:E.
  - apply String.eqb_eq in E. intros [= ->]. subst. left.
  - intros H. right. by apply IH.
Qed.

Lemma elem_get_Some m k v : NoDup (keys m) → (k, v) ∈ m → OMap.get m k = Some v.
Proof.
  unfold keys. induction m as [|[k0 v0] m IH]; cbn.
  - by intros _ ?%elem_of_nil.
  - intros [Hk0 Hnd]%NoDup_cons [[= -> ->]|Hin]%elem_of_cons.
    + by rewrite String.eqb_refl.
    + destruct (String.eqb k0 k) eqn:E; [|by apply IH].
      apply String.eqb_eq in E. subst. destruct Hk0.
      apply list_elem_of_fmap. by exists (k, v).
Qed.

Lemma keys_set m k v :
  keys (OMap.set m k v) =
  if OMap.has m k then keys m else keys m ++ [k].
Proof.
  unfold OMap.has, keys. induction m as [|[k0 v0] m IH]; cbn; [done|].
  destruct (String.eqb k0 k) eqn:E; cbn.
  - apply String.eqb_eq in E. by subst.
  - rewrite IH. by destruct (OMap.get m k).
Qed.

Lemma NoDup_keys_set m k v : NoDup (keys m) → NoDup (keys (OMap.set m k v)).
Proof.
  intros Hnd. rewrite keys_set. unfold OMap.has.
  destruct (OMap.get m k) eqn:E; [done|].
  apply NoDup_app. split; [done|]. split; [|apply NoDup_singleton].
  intros x Hx ->%list_elem_of_singleton. by apply get_None in E.
Qed.

Lemma keys_delete_sublist m k : keys (OMap.delete m k) `sublist_of` keys m.
Proof.
  unfold keys. induction m as [|[k0 v0] m IH]; cbn; [done|].
  destruct (String.eqb k0 k); cbn.
  - by apply sublist_cons.
  - by apply sublist_skip.
Qed.

Lemma NoDup_keys_delete m k : NoDup (keys m) → NoDup (keys (OMap.delete m k)).
Proof. intros H. eapply sublist_NoDup; [|apply keys_delete_sublist]; done. Qed.

Lemma get_delete_eq m k : NoDup (keys m) → OMap.get (OMap.delete m k) k = None.
Proof.
  intros Hnd. apply get_None. revert Hnd. unfold keys.
  induction m as [|[k0 v0] m IH]; cbn; [intros _; apply not_elem_of_nil|].
  intros [Hk0 Hnd]%NoDup_cons. destruct (String.eqb k0 k) eqn:E; cbn.
  - apply String.eqb_eq in E. by subst.
  - apply String.eqb_neq in E. apply not_elem_of_cons. split; [done|].
    by apply IH.
Qed.
End Facts.
End OMapFacts.

Module PriorityQueueMore.
Import PriorityQueue PriorityQueueFacts OMapFacts.

(** *** [setPriority] as an update of the record map *)

Lemma setPriority_nonzero (q : t) (u : string) (p now : Z) :
  p ≠ 0 →
  setPriority u p now q =
  with_priorities q (OMap.set (priorityMap q) u (mkInfo p now))
                  (lastPriorityCheck q).
Proof.
  intros Hp. unfold setPriority. rewrite decide_False by done.
  destruct (OMap.get (priorityMap q) u) as [e|]; [|done].
  case_decide as He; [|done]. by rewrite He.
Qed.

(** X1.  [setPriority(url, tier)] with a tier other than 0 leaves the URL
    with the record [{tier, now}], whether it had none, the same tier or
    another tier; the records of the other URLs, the time stamps of the
    last checks (also the one of [url]: a change of tier does not reset the
    throttle) and the order of insertion are kept, a new URL going last. *)
Theorem setPriority_promotes (q : t) (u : string) (p now : Z) :
  p ≠ 0 →
  OMap.get (priorityMap (setPriority u p now q)) u = Some (mkInfo p now) ∧
  (∀ v, v ≠ u →
     OMap.get (priorityMap (setPriority u p now q)) v =
     OMap.get (priorityMap q) v) ∧
  lastPriorityCheck (setPriority u p now q) = lastPriorityCheck q ∧
  keys (priorityMap (setPriority u p now q)) =
    (if OMap.has (priorityMap q) u then keys (priorityMap q)
     else keys (priorityMap q) ++ [u]).
Proof.
  intros Hp. rewrite setPriority_nonzero by done.
  cbn. split; [apply get_set_eq|]. split; [|split; [done|apply keys_set]].
  intros v Hv. by apply get_set_ne.
Qed.

Lemma setPriority_promotes_witness :
  OMap.get (priorityMap (setPriority "C" 2 7 abcd_hot)) "C" = Some (mkInfo 2 7).
Proof.
  apply (proj1 (setPriority_promotes abcd_hot "C" 2 7 ltac:(discriminate))).
Defined.

(** The records have distinct URLs, every time stamp of a last check
    belongs to a URL that has a record, and the cursor is inside the
    rotation. *)
Record wellFormed (q : t) : Prop := {
  wf_keys : NoDup (keys (priorityMap q));
  wf_stamps : ∀ u, is_Some (lastPriorityCheck q !! u) →
                   OMap.has (priorityMap q) u = true;
  wf_cursor : cursorInRange q
}.

Lemma has_true_iff (m : list (string * Info)) u :
  OMap.has m u = true ↔ u ∈ keys m.
Proof.
  unfold OMap.has. pose proof (get_None m u) as H.
  destruct (OMap.get m u); split; try done.
  - intros _. destruct (decide (u ∈ keys m)); [done|]. by apply H in n.
  - intros Hin. by apply H in Hin.
Qed.

Lemma setPriority_clear_frame (q : t) (u : string) (now : Z) :
  ∀ v, v ≠ u →
    OMap.get (priorityMap (setPriority u 0 now q)) v = OMap.get (priorityMap q) v ∧
    lastPriorityCheck (setPriority u 0 now q) !! v = lastPriorityCheck q !! v.
Proof.
  intros v Hv. unfold setPriority. rewrite decide_True by done.
  destruct (OMap.has (priorityMap q) u); [|done]. cbn.
  split; [by apply get_delete_ne|]. by rewrite lookup_delete_ne.
Qed.

Lemma setPriority_wellFormed u p now q :
  wellFormed q → wellFormed (setPriority u p now q).
Proof.
  intros [Hk Hs Hc]. split.
  - unfold setPriority.
    repeat (case_decide || case_match); cbn [priorityMap with_priorities];
      auto using NoDup_keys_set, NoDup_keys_delete.
  - intros v Hv. destruct (decide (p = 0)) as [->|Hp].
    + unfold setPriority in *. rewrite decide_True in * by done.
      destruct (OMap.has (priorityMap q) u) eqn:Hu; [|by apply Hs].
      cbn in *. destruct (decide (v = u)) as [->|Hne].
      * rewrite lookup_delete_eq in Hv. by destruct Hv.
      * rewrite lookup_delete_ne in Hv by done. specialize (Hs v Hv).
        unfold OMap.has in *. by rewrite get_delete_ne.
    + rewrite setPriority_nonzero in * by done. cbn in *.
      specialize (Hs v Hv). unfold OMap.has in *.
      destruct (decide (v = u)) as [->|Hne]; [by rewrite get_set_eq|].
      by rewrite get_set_ne.
  - pose proof (setPriority_setup u p now q) as [Hu _ _].
    unfold cursorInRange. by rewrite Hu, setPriority_index.
Qed.

Lemma getNextPriorityUrl_state now q :
  (getNextPriorityUrl now q).2 = q ∨
  ∃ u info, (u, info) ∈ priorityMap q ∧
    (getNextPriorityUrl now q).1 = Some u ∧
    (getNextPriorityUrl now q).2 =
      with_priorities q (priorityMap q) (<[u := now]> (lastPriorityCheck q)).
Proof.
  destruct (getNextPriorityUrl now q) as [[u|] q'] eqn:E.
  - right. destruct (getNextPriorityUrl_some _ _ _ _ E) as (info & Hin & _ & _ & -> & _).
    by exists u, info.
  - left. rewrite getNextPriorityUrl_unfold in E.
    destruct (firstCutter _ _); [done|]. by injection E as <-.
Qed.

Lemma getNextPriorityUrl_wellFormed now q :
  wellFormed q → wellFormed (getNextPriorityUrl now q).2.
Proof.
  intros [Hk Hs Hc].
  destruct (getNextPriorityUrl_state now q) as [->|(u & info & Hin & _ & ->)];
    [done|].
  split; cbn; [done| |done].
  intros v Hv. destruct (decide (v = u)) as [->|Hne].
  - apply has_true_iff. apply list_elem_of_fmap. by exists (u, info).
  - rewrite lookup_insert_ne in Hv by done. by apply Hs.
Qed.

Lemma getNextUrl_wellFormed now q :
  wellFormed q → wellFormed (getNextUrl now q).2.
Proof.
  intros Hq. split; [| |apply getNextUrl_cursor, Hq].
  - unfold getNextUrl. case_decide; [apply Hq|].
    pose proof (getNextPriorityUrl_wellFormed now q Hq) as [Hk _ _].
    destruct (getNextPriorityUrl now q) as [r q1]. by destruct (JS.truthy r).
  - unfold getNextUrl. case_decide; [apply Hq|].
    pose proof (getNextPriorityUrl_wellFormed now q Hq) as [_ Hs _].
    destruct (getNextPriorityUrl now q) as [r q1]. by destruct (JS.truthy r).
Qed.

Lemma apply_op_wellFormed q o : wellFormed q → wellFormed (apply_op q o).
Proof.
  destruct o; [apply setPriority_wellFormed|apply getNextUrl_wellFormed].
Qed.

Lemma run_wellFormed ops q : wellFormed q → wellFormed (run ops q).
Proof.
  revert q. induction ops as [|o ops IH]; intros q Hq; [done|].
  cbn. apply IH. by apply apply_op_wellFormed.
Qed.

Lemma initialize_wellFormed us q : wellFormed (initialize us q).
Proof.
  split; cbn; [constructor| |apply initialize_cursor].
  intros u Hu. rewrite lookup_empty in Hu. by destruct Hu.
Qed.

(** X2.  In every state reached from a fresh rotation by [setPriority] and
    [getNextUrl] calls the records have distinct URLs, only URLs with a
    record have a time stamp of a last check, the cursor is inside the
    rotation, and the rotation and the two limits are the ones the queue
    was built with. *)
Theorem reached_wellFormed (us : list string) (ops : list op) :
  wellFormed (reached us ops) ∧
  urls (reached us ops) = us ∧
  maxLineCuts (reached us ops) = 5 ∧
  priorityCheckInterval (reached us ops) = 30000.
Proof.
  split; [apply run_wellFormed, initialize_wellFormed|].
  destruct (run_from_new us ops) as (? & ? & ? & _). done.
Qed.

(** X3.  [setPriority(url, 0)] on a reached state removes the record of the
    URL and the time stamp of its last check, so that a later promotion
    starts unthrottled; nothing of the other URLs changes, and when the URL
    had no record the call changes nothing at all. *)
Theorem setPriority_zero_clears (us : list string) (ops : list op)
    (u : string) (now : Z) :
  OMap.get (priorityMap (setPriority u 0 now (reached us ops))) u = None ∧
  lastPriorityCheck (setPriority u 0 now (reached us ops)) !! u = None ∧
  (∀ v, v ≠ u →
     OMap.get (priorityMap (setPriority u 0 now (reached us ops))) v =
       OMap.get (priorityMap (reached us ops)) v ∧
     lastPriorityCheck (setPriority u 0 now (reached us ops)) !! v =
       lastPriorityCheck (reached us ops) !! v) ∧
  (OMap.has (priorityMap (reached us ops)) u = false →
   setPriority u 0 now (reached us ops) = reached us ops).
Proof.
  destruct (run_wellFormed ops _ (initialize_wellFormed us new)) as [Hk Hs _].
  fold (reached us ops) in Hk, Hs. set (q := reached us ops) in *.
  split; [|split; [|split; [apply setPriority_clear_frame|]]].
  - unfold setPriority. rewrite decide_True by done. unfold OMap.has.
    destruct (OMap.get (priorityMap q) u) eqn:E; [|done]. cbn.
    by apply get_delete_eq.
  - unfold setPriority. rewrite decide_True by done.
    destruct (OMap.has (priorityMap q) u) eqn:E; cbn.
    + apply lookup_delete_eq.
    + destruct (lastPriorityCheck q !! u) eqn:El; [|done].
      rewrite Hs in E; [done|]. by rewrite El.
  - intros Hu. unfold setPriority. rewrite decide_True by done. by rewrite Hu.
Qed.

(** *** The base rotation *)

(** The results of consecutive [getNextUrl] calls at the given times. *)
Fixpoint pullResults (times : list Z) (q : t) : list (option string) :=
  match times with
  | [] => []
  | now :: times' =>
      (getNextUrl now q).1 :: pullResults times' (getNextUrl now q).2
  end.

Lemma pullResults_base times q :
  priorityMap q = [] → 0 ≤ currentIndex q < JS.len (urls q) →
  pullResults times q =
  (λ i : nat,
     JS.at_index (urls q) ((currentIndex q + Z.of_nat i) `mod` JS.len (urls q)))
    <$> seq 0 (length times).
Proof.
  revert q. induction times as [|now times IH]; intros q Hpm Hc; [done|].
  cbn [pullResults length seq fmap list_fmap].
  rewrite getNextUrl_base by done. cbn [fst snd]. f_equal.
  - by rewrite Z.add_0_r, Z.mod_small.
  - rewrite IH; [|done|cbn; apply Z.mod_pos_bound; lia].
    cbn [urls currentIndex with_index].
    rewrite <- fmap_S_seq, <- list_fmap_compose. apply list_fmap_ext.
    intros _ i _. cbn. f_equal. rewrite Zplus_mod_idemp_l. f_equal. lia.
Qed.

Lemma at_index_seq (us : list string) :
  (λ i : nat, JS.at_index us (Z.of_nat i `mod` JS.len us)) <$> seq 0 (length us)
  = Some <$> us.
Proof.
  apply list_eq. intros i. rewrite !list_lookup_fmap.
  destruct (decide (i < length us)%nat) as [Hi|Hi].
  - rewrite lookup_seq_lt by done. cbn.
    rewrite Z.mod_small by (unfold JS.len; lia).
    unfold JS.at_index. rewrite decide_True by lia. rewrite Nat2Z.id.
    by destruct (lookup_lt_is_Some_2 us i Hi) as [x ->].
  - rewrite lookup_seq_ge by lia. by rewrite lookup_ge_None_2 by lia.
Qed.

(** X4.  While no URL has a priority record, consecutive [getNextUrl] calls
    walk the rotation in order from the cursor and wrap around: call [i]
    returns the URL at position [(cursor + i) mod n].  In particular the
    first [n] calls on a fresh rotation return the rotation itself, every
    URL once, and leave the cursor where it started. *)
Theorem base_rotation_visits_all (us : list string) (times : list Z) :
  us ≠ [] →
  pullResults times (initialize us new) =
    (λ i : nat, JS.at_index us (Z.of_nat i `mod` JS.len us))
      <$> seq 0 (length times) ∧
  (length times = length us →
   pullResults times (initialize us new) = Some <$> us ∧
   currentIndex (pulls times (initialize us new)) = 0).
Proof.
  intros Hne.
  assert (0 ≤ 0 < JS.len us) as Hc.
  { unfold JS.len. destruct us; [done|]. cbn [length]. lia. }
  pose proof (pullResults_base times (initialize us new) eq_refl Hc) as Hres.
  cbn [urls currentIndex initialize] in Hres.
  split.
  - rewrite Hres. apply list_fmap_ext. intros _ i _. by rewrite Z.add_0_l.
  - intros Hlen. split.
    + rewrite Hres, Hlen, <- at_index_seq. apply list_fmap_ext.
      intros _ i _. by rewrite Z.add_0_l.
    + destruct (pulls_cursor times (initialize us new) eq_refl Hc) as [H1 _].
      rewrite H1. cbn [urls currentIndex initialize]. unfold JS.len.
      rewrite Hlen, Z.add_0_l. apply Z.mod_same. unfold JS.len in Hc. lia.
Qed.

Lemma base_rotation_visits_all_witness :
  pullResults [10; 20; 30; 40] (initialize ["A"; "B"; "C"; "D"] new) =
  [Some "A"; Some "B"; Some "C"; Some "D"].
Proof.
  apply (proj2 (base_rotation_visits_all ["A"; "B"; "C"; "D"] [10; 20; 30; 40]
                  ltac:(discriminate))).
  reflexivity.
Defined.

(** *** Throttling *)

(** A call that keeps the throttle of [u] running: any [setPriority]
    that does not clear [u], and any [getNextUrl] made before [u] is due
    again. *)
Definition keepsThrottle (u : string) (due : Z) (o : op) : Prop :=
  match o with
  | SetPriority v p _ => v = u → p ≠ 0
  | Next t => t < due
  end.

Lemma setPriority_stamp u v p t q :
  (v = u → p ≠ 0) →
  lastPriorityCheck (setPriority v p t q) !! u = lastPriorityCheck q !! u.
Proof.
  intros Hkeep. destruct (decide (p = 0)) as [->|Hp].
  - assert (u ≠ v) as Hne by (intros ->; by apply Hkeep).
    by apply setPriority_clear_frame.
  - by rewrite setPriority_nonzero.
Qed.

Lemma getNextUrl_stamp u now t q :
  lastPriorityCheck q !! u = Some now →
  t - now < priorityCheckInterval q →
  lastPriorityCheck (getNextUrl t q).2 !! u = Some now.
Proof.
  intros Hstamp Hsoon.
  assert (lastPriorityCheck (getNextPriorityUrl t q).2 !! u = Some now) as H.
  { destruct (getNextPriorityUrl t q) as [[w|] q1] eqn:E.
    - destruct (getNextPriorityUrl_some _ _ _ _ E)
        as (_ & _ & Hready & _ & -> & _). cbn.
      destruct (decide (w = u)) as [->|Hne]; [|by rewrite lookup_insert_ne].
      exfalso. unfold isReady in Hready. rewrite Hstamp in Hready.
      apply bool_decide_eq_true in Hready. unfold JS.or_default in Hready.
      case_decide; lia.
    - destruct (getNextPriorityUrl_state t q) as [H|(w & ? & _ & H & _)];
        rewrite E in H; cbn in H; [by subst|done]. }
  unfold getNextUrl. case_decide; [done|].
  destruct (getNextPriorityUrl t q) as [r q1]. cbn in H.
  by destruct (JS.truthy r).
Qed.

Lemma run_stamp u now ops q :
  lastPriorityCheck q !! u = Some now →
  Forall (keepsThrottle u (now + priorityCheckInterval q)) ops →
  lastPriorityCheck (run ops q) !! u = Some now ∧
  priorityCheckInterval (run ops q) = priorityCheckInterval q.
Proof.
  revert q. induction ops as [|o ops IH]; intros q Hstamp Hops; [done|].
  apply Forall_cons in Hops as [Ho Hops]. cbn [run foldl].
  pose proof (apply_op_setup q o) as [_ _ Hint].
  destruct (IH (apply_op q o)) as [H1 H2].
  - destruct o as [v p t|t]; cbn in *.
    + by rewrite setPriority_stamp.
    + apply getNextUrl_stamp; [done|lia].
  - by rewrite Hint.
  - split; [done|]. by rewrite <- Hint.
Qed.

(** X5.  A target handed out by [getNextPriorityUrl] at time [now] is not
    handed out by it again before the throttle interval has passed,
    whatever happens in between short of clearing the target: promotions of
    any URL (of the target too, to the same or to another tier), clearing
    of other URLs, and [getNextUrl] calls made in that interval.  A call
    that returns nothing leaves the queue as it was. *)
Theorem priority_target_is_throttled (q : t) (now : Z) :
  (∀ (u : string) (q' : t) (ops : list op) (now' : Z),
     getNextPriorityUrl now q = (Some u, q') →
     Forall (keepsThrottle u (now + priorityCheckInterval q)) ops →
     now' < now + priorityCheckInterval q →
     (getNextPriorityUrl now' (run ops q')).1 ≠ Some u) ∧
  (∀ q', getNextPriorityUrl now q = (None, q') → q' = q).
Proof.
  split.
  - intros u q' ops now' Hret Hops Hsoon Hagain.
    destruct (getNextPriorityUrl_some _ _ _ _ Hret) as (_ & _ & _ & _ & -> & _).
    destruct (run_stamp u now ops
                (with_priorities q (priorityMap q)
                   (<[u := now]> (lastPriorityCheck q))))
      as [Hstamp Hint]; [cbn; apply lookup_insert_eq|done|].
    cbn in Hint.
    destruct (getNextPriorityUrl now' _) as [r q''] eqn:E. cbn in Hagain.
    subst r.
    destruct (getNextPriorityUrl_some _ _ _ _ E) as (_ & _ & Hready & _).
    unfold isReady in Hready. rewrite Hstamp, Hint in Hready.
    apply bool_decide_eq_true in Hready. unfold JS.or_default in Hready.
    case_decide; lia.
  - intros q' Hret. destruct (getNextPriorityUrl_state now q) as [H|H].
    + by rewrite Hret in H.
    + destruct H as (u & info & _ & H & _). by rewrite Hret in H.
Qed.

Lemma priority_target_is_throttled_witness :
  (getNextPriorityUrl 50000
     (run [SetPriority "C" 2 41000; Next 42000] (abcd_checked 40000))).1
  ≠ Some "C".
Proof.
  apply (proj1 (priority_target_is_throttled abcd_hot 40000) "C"
               (abcd_checked 40000) [SetPriority "C" 2 41000; Next 42000] 50000).
  - reflexivity.
  - apply Forall_cons. split; [intros _; discriminate|].
    apply Forall_cons. split; [|apply Forall_nil_2].
    change (42000 < 40000 + 30000). lia.
  - change (50000 < 40000 + 30000). lia.
Defined.

(** *** What is handed out *)

Lemma canCutInLine_elem q u p : canCutInLine q u p = true → u ∈ urls q.
Proof.
  unfold canCutInLine. case_decide as Hidx; [done|]. intros _.
  destruct (indexOf_position _ _ Hidx) as [_ [Hp _]].
  by eapply list_elem_of_lookup_2.
Qed.

(** X6.  [getNextUrl] returns [null], and changes nothing, when the rotation
    is empty, even if there are priority records; on a rotation that is not
    empty, with the cursor inside it, it always returns a URL of the
    rotation.  [getNextPriorityUrl] never returns a URL that is not in the
    rotation: a record for an unknown URL is never served. *)
Theorem next_url_is_in_rotation (q : t) (now : Z) :
  (urls q = [] → getNextUrl now q = (None, q)) ∧
  (urls q ≠ [] → cursorInRange q →
   ∃ u, (getNextUrl now q).1 = Some u ∧ u ∈ urls q) ∧
  (∀ u q', getNextPriorityUrl now q = (Some u, q') → u ∈ urls q).
Proof.
  assert (∀ u q', getNextPriorityUrl now q = (Some u, q') → u ∈ urls q) as Hp.
  { intros u q' Hret.
    destruct (getNextPriorityUrl_some _ _ _ _ Hret) as (info & _ & _ & Hc & _).
    by eapply canCutInLine_elem. }
  split; [|split; [|done]].
  - intros Hu. unfold getNextUrl. by rewrite Hu, decide_True.
  - intros Hne [[Hu _]|Hc]; [done|]. unfold getNextUrl.
    rewrite decide_False by lia.
    pose proof (getNextPriorityUrl_setup now q) as [Hurls _ _].
    pose proof (getNextPriorityUrl_index now q) as Hidx.
    destruct (getNextPriorityUrl now q) as [r q1] eqn:E. cbn in Hurls, Hidx.
    destruct (JS.truthy r) eqn:Ht.
    + destruct r as [u|]; [|done]. exists u. split; [done|]. by eapply Hp.
    + cbn [fst]. rewrite Hurls, Hidx. unfold JS.at_index.
      rewrite decide_True by lia.
      destruct (lookup_lt_is_Some_2 (urls q) (Z.to_nat (currentIndex q)))
        as [u Hu]; [unfold JS.len in Hc; lia|].
      exists u. split; [done|]. by eapply list_elem_of_lookup_2.
Qed.

Lemma next_url_is_in_rotation_witness :
  getNextUrl 40000 (setPriority "C" 1 0 new) = (None, setPriority "C" 1 0 new).
Proof.
  apply (proj1 (next_url_is_in_rotation (setPriority "C" 1 0 new) 40000)).
  reflexivity.
Defined.

(** *** The summary of [getStatus] *)

(** The number of records whose tier has the given name. *)
Definition tierCount (name : string) (m : list (string * Info)) : Z :=
  JS.len (filter (λ e, getPriorityName (priority e.2) = name) m).

Lemma tierCount_cons name k info m :
  tierCount name ((k, info) :: m) =
  (if decide (getPriorityName (priority info) = name) then 1 else 0)
  + tierCount name m.
Proof.
  unfold tierCount, JS.len. rewrite filter_cons. cbn.
  case_decide; cbn [length]; lia.
Qed.

Lemma tierCount_nonneg name m : 0 ≤ tierCount name m.
Proof. unfold tierCount, JS.len. lia. Qed.

(** A counter of the summary: absent or positive. *)
Definition counter (n : Z) : option Z := if decide (n = 0) then None else Some n.

Lemma countPriorities_lookup m stats name n :
  0 ≤ n → stats !! name = counter n →
  countPriorities m stats !! name = counter (n + tierCount name m).
Proof.
  revert stats n. induction m as [|[k info] m IH]; intros stats n Hn Hs.
  - cbn. unfold tierCount, JS.len. cbn. by rewrite Z.add_0_r.
  - cbn [countPriorities]. rewrite tierCount_cons.
    pose proof (tierCount_nonneg name m).
    case_decide as He.
    + rewrite He. rewrite (IH _ (n + 1)); [f_equal; lia|lia|].
      rewrite lookup_insert_eq, Hs. unfold counter, JS.or_default.
      repeat case_decide; try lia; f_equal; lia.
    + rewrite (IH _ n); [f_equal; lia|lia|]. by rewrite lookup_insert_ne.
Qed.

(** X7.  [getStatus] reports the length of the rotation, the cursor plus
    one, and for each tier name (HIGH, MEDIUM, LOW, and UNKNOWN for any
    other tier) the number of records of that tier; a name without records
    is absent from the summary. *)
Theorem status_counts_records (q : t) (name : string) :
  totalUrls (getStatus q) = JS.len (urls q) ∧
  currentPosition (getStatus q) = currentIndex q + 1 ∧
  priorityStats (getStatus q) !! name = counter (tierCount name (priorityMap q)).
Proof.
  split; [done|]. split; [done|]. cbn.
  by rewrite (countPriorities_lookup _ ∅ name 0).
Qed.
End PriorityQueueMore.

(** * Further properties of the stock bot *)

Module StringFacts.
Import StockBot StockStore.

(** The character occurs in the string. *)
Fixpoint hasChar (c : Ascii.ascii) (s : string) : bool :=
  match s with
  | EmptyString => false
  | String a s' => Ascii.eqb a c || hasChar c s'
  end.

Lemma append_assoc (a b c : string) : (a +:+ b) +:+ c = a +:+ (b +:+ c).
Proof.
  induction a as [|x a IH]; [done|].
  change (String x ((a +:+ b) +:+ c) = String x (a +:+ b +:+ c)). by rewrite IH.
Qed.

Lemma split_nonempty c s : split c s ≠ [].
Proof.
  induction s as [|a s IH]; cbn [split]; [done|].
  destruct (Ascii.eqb a c); [done|]. by destruct (split c s).
Qed.

Lemma split_no_sep c s : hasChar c s = false → split c s = [s].
Proof.
  induction s as [|a s IH]; cbn [split hasChar]; [done|].
  intros [Ha Hs]%orb_false_iff. rewrite Ha, IH; done.
Qed.

Lemma split_piece c x rest :
  hasChar c x = false → split c (x +:+ String c rest) = x :: split c rest.
Proof.
  induction x as [|a x IH]; cbn [hasChar].
  - intros _. change ("" +:+ String c rest) with (String c rest).
    cbn [split]. by rewrite Ascii.eqb_refl.
  - intros [Ha Hx]%orb_false_iff.
    change (String a x +:+ String c rest) with (String a (x +:+ String c rest)).
    cbn [split]. by rewrite Ha, IH.
Qed.

(** The pieces joined by the separator, written from the right. *)
Fixpoint joinR (c : Ascii.ascii) (l : list string) : string :=
  match l with
  | [] => ""
  | x :: l' =>
      match l' with
      | [] => x
      | _ => x +:+ String c (joinR c l')
      end
  end.

Lemma split_joinR c l :
  l ≠ [] → Forall (λ x, hasChar c x = false) l → split c (joinR c l) = l.
Proof.
  induction l as [|x l IH]; [done|]. intros _ [Hx Hl]%Forall_cons.
  destruct l as [|y l]; [by apply split_no_sep|].
  change (joinR c (x :: y :: l)) with (x +:+ String c (joinR c (y :: l))).
  rewrite split_piece by done. by rewrite IH.
Qed.

Lemma foldl_join c acc l :
  foldl (λ acc y, acc +:+ String c "" +:+ default "" y) acc (Some <$> l) =
  match l with
  | [] => acc
  | _ => acc +:+ String c (joinR c l)
  end.
Proof.
  revert acc. induction l as [|x l IH]; intros acc; [done|].
  cbn [fmap list_fmap foldl default]. rewrite IH.
  destruct l as [|y l]; [done|].
  rewrite append_assoc. done.
Qed.

Lemma join_joinR c l : join (String c "") (Some <$> l) = joinR c l.
Proof.
  destruct l as [|x l]; [done|]. cbn [fmap list_fmap join default].
  rewrite foldl_join. by destruct l.
Qed.

Lemma split_join c l :
  l ≠ [] → Forall (λ x, hasChar c x = false) l →
  split c (join (String c "") (Some <$> l)) = l.
Proof. intros. rewrite join_joinR. by apply split_joinR. Qed.

Lemma hasChar_append c a b :
  hasChar c (a +:+ b) = hasChar c a || hasChar c b.
Proof.
  induction a as [|x a IH]; [done|].
  change (String x a +:+ b) with (String x (a +:+ b)). cbn [hasChar].
  by rewrite IH, orb_assoc.
Qed.

Lemma hasChar_joinR c d l :
  d ≠ c → Forall (λ x, hasChar c x = false) l → hasChar c (joinR d l) = false.
Proof.
  intros Hd. induction l as [|x l IH]; [done|]. intros [Hx Hl]%Forall_cons.
  destruct l as [|y l]; [done|].
  change (joinR d (x :: y :: l)) with (x +:+ String d (joinR d (y :: l))).
  rewrite hasChar_append, Hx. cbn [hasChar orb]. rewrite IH by done.
  by rewrite (proj2 (Ascii.eqb_neq d c)).
Qed.
End StringFacts.

Module StockStoreFacts.
Import StockBot StockStore StockBotFacts StringFacts OMapFacts.

(** *** What is written is what is read *)

(** The cells of the line written for an entry. *)
Definition cells (e : gmap string string) : list string :=
  (λ h, or_empty (e !! h)) <$> headers.

Definition headerLine : string := join tab (Some <$> headers).

Definition dataLine (e : gmap string string) : string :=
  join tab (Some <$> cells e).

(** An entry as it comes back from the file: the nine columns, a missing
    one as the empty string, and nothing else. *)
Definition normalize (e : gmap string string) : gmap string string :=
  readEntry headers (cells e).

(** The entry has the nine columns and nothing else. *)
Definition complete (e : gmap string string) : Prop :=
  ∀ k, is_Some (e !! k) ↔ k ∈ headers.

Lemma tsvContent_lines m :
  tsvContent m = joinR newlineChar (headerLine :: (dataLine <$> m.*2)).
Proof.
  unfold tsvContent. change newline with (String newlineChar "").
  rewrite join_joinR. f_equal. f_equal.
  rewrite <- list_fmap_compose. by apply list_fmap_ext.
Qed.

Lemma normalize_columns e :
  normalize e =
  <["lastChecked" := or_empty (e !! "lastChecked")]>
  (<["stock" := or_empty (e !! "stock")]>
  (<["state5" := or_empty (e !! "state5")]>
  (<["state4" := or_empty (e !! "state4")]>
  (<["state3" := or_empty (e !! "state3")]>
  (<["state2" := or_empty (e !! "state2")]>
  (<["state1" := or_empty (e !! "state1")]>
  (<["state0" := or_empty (e !! "state0")]>
  (<["url" := or_empty (e !! "url")]> ∅)))))))).
Proof. reflexivity. Qed.

Lemma normalize_lookup e k :
  normalize e !! k =
  if bool_decide (k ∈ headers) then Some (or_empty (e !! k)) else None.
Proof.
  rewrite normalize_columns. unfold headers.
  case_bool_decide as Hk.
  - repeat (apply elem_of_cons in Hk as [-> | Hk]; [reflexivity|]).
    by apply elem_of_nil in Hk.
  - repeat (rewrite lookup_insert_ne;
            [|intros <-; apply Hk; repeat constructor]).
    apply lookup_empty.
Qed.

Lemma normalize_complete e : complete e → normalize e = e.
Proof.
  intros Hc. apply map_eq. intros k. rewrite normalize_lookup.
  case_bool_decide as Hk.
  - apply Hc in Hk as [v Hv]. by rewrite Hv.
  - destruct (e !! k) eqn:E; [|done]. destruct Hk. apply Hc. by eexists.
Qed.

Lemma complete_normalize e : complete (normalize e).
Proof.
  intros k. rewrite normalize_lookup. case_bool_decide; [|split; [by intros []|done]].
  split; [done|]. by eexists.
Qed.

Lemma OMap_set_fresh {V} (m : list (string * V)) k v :
  k ∉ keys m → OMap.set m k v = m ++ [(k, v)].
Proof.
  unfold keys. induction m as [|[k0 v0] m IH]; cbn; [done|].
  intros [Hne Hk]%not_elem_of_cons.
  rewrite (proj2 (String.eqb_neq k0 k)) by done. by rewrite IH.
Qed.

(** The string fits in one cell of a TSV file. *)
Definition clean (cell : string) : Prop :=
  hasChar tabChar cell = false ∧ hasChar newlineChar cell = false.

Section RoundTrip.
Variable trim : string → string.

(** An entry that can be written as one line of a TSV file and found
    again: it is stored under its own URL, the URL is not empty, no cell
    holds a tab or a line feed, and the line is not blank. *)
Definition storable (k : string) (e : gmap string string) : Prop :=
  e !! "url" = Some k ∧ k ≠ "" ∧
  Forall clean (cells e) ∧
  notBlank trim (dataLine e) = true.

Definition allStorable (m : list (string * gmap string string)) : Prop :=
  Forall (λ x, storable x.1 x.2) m.

Lemma dataLine_split e :
  Forall clean (cells e) →
  split tabChar (dataLine e) = cells e.
Proof.
  intros H. unfold dataLine. change tab with (String tabChar "").
  apply split_join; [done|]. eapply Forall_impl; [done|]. by intros ? [? _].
Qed.

Lemma dataLine_one_line e :
  Forall clean (cells e) →
  hasChar newlineChar (dataLine e) = false.
Proof.
  intros H. unfold dataLine. change tab with (String tabChar "").
  rewrite join_joinR. apply hasChar_joinR; [done|].
  eapply Forall_impl; [done|]. by intros ? [_ ?].
Qed.

Lemma readRows_lines acc m :
  NoDup (keys acc ++ keys m) → allStorable m →
  foldl (λ urlMap line,
           let entry := readEntry headers (split tabChar line) in
           match entry !! "url" with
           | Some url =>
               if String.eqb url "" then urlMap else OMap.set urlMap url entry
           | None => urlMap
           end) acc (dataLine <$> m.*2) =
  acc ++ (prod_map id normalize <$> m).
Proof.
  set (row := λ (urlMap : list (string * gmap string string)) (line : string), _).
  revert acc. induction m as [|[k e] m IH]; intros acc Hnd Hm.
  - cbn. by rewrite app_nil_r.
  - apply Forall_cons in Hm as [(Hurl & Hk & Hcells & _) Hm].
    cbn [fst snd] in Hurl, Hk, Hcells.
    cbn [fmap list_fmap foldl fst snd].
    unfold keys in Hnd. cbn [fmap list_fmap fst] in Hnd.
    assert (row acc (dataLine e) = acc ++ [(k, normalize e)]) as ->.
    { unfold row. cbv zeta. rewrite dataLine_split by done. fold (normalize e).
      rewrite normalize_lookup. rewrite bool_decide_true by (unfold headers; left).
      rewrite Hurl. change (or_empty (Some k)) with k.
      rewrite (proj2 (String.eqb_neq k "")) by done.
      apply OMap_set_fresh.
      apply NoDup_app in Hnd as (_ & Hdis & _). intros Hin.
      apply (Hdis k Hin). left. }
    rewrite IH; [by rewrite <- app_assoc|..|done].
    unfold keys. rewrite fmap_app. cbn [fmap list_fmap fst].
    rewrite <- app_assoc. done.
Qed.

Lemma filter_all {A} (f : A → bool) (l : list A) :
  Forall (λ x, f x = true) l → List.filter f l = l.
Proof.
  induction 1 as [|x l Hx Hl IH]; [done|]. cbn. by rewrite Hx, IH.
Qed.

(** The map read back from the text written for [m]. *)
Lemma load_tsvContent m :
  NoDup (keys m) → notBlank trim headerLine = true → allStorable m →
  loadExistingTsvData trim (Some (tsvContent m)) = prod_map id normalize <$> m.
Proof.
  intros Hnd Hhead Hm. unfold loadExistingTsvData.
  rewrite tsvContent_lines. rewrite split_joinR; [|done|].
  2:{ apply Forall_cons. split; [reflexivity|].
      apply Forall_fmap, Forall_fmap. eapply Forall_impl; [exact Hm|].
      intros [k e] (_ & _ & Hcells & _). by apply dataLine_one_line. }
  rewrite filter_all.
  2:{ apply Forall_cons. split; [done|].
      apply Forall_fmap, Forall_fmap. eapply Forall_impl; [exact Hm|].
      by intros [k e] (_ & _ & _ & Hline). }
  destruct m as [|x m]; [done|].
  change (dataLine <$> (x :: m).*2) with (dataLine x.2 :: (dataLine <$> m.*2)).
  cbv iota. change (split tabChar headerLine) with headers.
  unfold readRows.
  change (dataLine x.2 :: (dataLine <$> m.*2)) with (dataLine <$> (x :: m).*2).
  by rewrite readRows_lines.
Qed.

Lemma allStorable_set m k e :
  allStorable m → storable k e → allStorable (OMap.set m k e).
Proof.
  intros Hm He. induction m as [|[k0 e0] m IH]; cbn.
  - by apply Forall_singleton.
  - apply Forall_cons in Hm as [H0 Hm]. destruct (String.eqb k0 k).
    + by apply Forall_cons.
    + apply Forall_cons. split; [done|]. by apply IH.
Qed.

Lemma complete_set (m : list (string * gmap string string)) k e :
  Forall complete m.*2 → complete e → Forall complete (OMap.set m k e).*2.
Proof.
  intros Hm He. induction m as [|[k0 e0] m IH]; cbn.
  - by apply Forall_singleton.
  - cbn in Hm. apply Forall_cons in Hm as [H0 Hm]. destruct (String.eqb k0 k); cbn.
    + by apply Forall_cons.
    + apply Forall_cons. split; [done|]. by apply IH.
Qed.

Lemma normalize_all (m : list (string * gmap string string)) :
  Forall complete m.*2 → prod_map id normalize <$> m = m.
Proof.
  induction m as [|[k e] m IH]; [done|]. cbn [fmap list_fmap snd].
  intros [He Hm]%Forall_cons. unfold prod_map at 1. cbn [fst snd].
  by rewrite normalize_complete, IH.
Qed.
End RoundTrip.

(** X8.  Reading back the text that [updateTsvFile] writes for a map
    gives the entries of the map in their order, each reduced to the nine
    columns with a missing column read as the empty string, provided the
    keys are distinct, every entry is stored under its own non-empty URL,
    no cell holds a tab or a line feed and no line is blank.  When every
    entry has exactly the nine columns the map itself comes back. *)
Theorem tsv_round_trip (trim : string → string)
    (m : list (string * gmap string string)) :
  NoDup (keys m) →
  notBlank trim headerLine = true →
  allStorable trim m →
  loadExistingTsvData trim (Some (tsvContent m)) =
    prod_map id normalize <$> m ∧
  (Forall complete m.*2 →
   loadExistingTsvData trim (Some (tsvContent m)) = m).
Proof.
  intros Hnd Hhead Hm. rewrite load_tsvContent by done.
  split; [done|]. apply normalize_all.
Qed.

Lemma sampleEntry_storable ts :
  clean ts → storable (λ s, s) sampleUrl (sampleEntry ts).
Proof.
  intros Hts. split; [reflexivity|]. split; [done|]. split.
  - change (cells (sampleEntry ts))
      with [sampleUrl; "1"; "2"; ""; ""; ""; ""; "false"; ts].
    repeat (apply Forall_cons; split; [try done; by split|]).
    apply Forall_nil_2.
  - reflexivity.
Qed.

Lemma tsv_round_trip_witness :
  loadExistingTsvData (λ s, s)
    (Some (tsvContent [(sampleUrl, sampleEntry "2025-01-01T00:00:00.000Z")])) =
  [(sampleUrl, sampleEntry "2025-01-01T00:00:00.000Z")].
Proof.
  refine (proj2 (tsv_round_trip (λ s, s)
            [(sampleUrl, sampleEntry "2025-01-01T00:00:00.000Z")] _ _ _) _).
  - apply NoDup_singleton.
  - reflexivity.
  - apply Forall_singleton. apply sampleEntry_storable. by split.
  - apply Forall_singleton. intros k.
    change (sampleEntry "2025-01-01T00:00:00.000Z")
      with (normalize (sampleEntry "2025-01-01T00:00:00.000Z")).
    apply complete_normalize.
Defined.
End StockStoreFacts.

Module StockBotMore.
Import StockBot StockStore StockBotFacts StringFacts OMapFacts StockStoreFacts.

Lemma Forall_OMap_set {V} (P : string * V → Prop) (m : list (string * V)) k v :
  Forall P m → P (k, v) → Forall P (OMap.set m k v).
Proof.
  intros Hm Hv. induction m as [|[k0 v0] m IH]; cbn.
  - by apply Forall_singleton.
  - apply Forall_cons in Hm as [H0 Hm]. destruct (String.eqb k0 k).
    + by apply Forall_cons.
    + apply Forall_cons. split; [done|]. by apply IH.
Qed.

(** *** The map read from a file *)

(** Every entry is stored under its own URL, which is not empty. *)
Definition keyed (m : list (string * gmap string string)) : Prop :=
  Forall (λ x, x.2 !! "url" = Some x.1 ∧ x.1 ≠ "") m.

(** X9.  Whatever the file holds, the map that [loadExistingTsvData]
    builds from it has no two entries for one URL, and each entry is
    stored under the value of its own [url] column, which is never
    empty. *)
Theorem loaded_map_is_keyed (trim : string → string) (file : option string) :
  NoDup (keys (loadExistingTsvData trim file)) ∧
  keyed (loadExistingTsvData trim file).
Proof.
  assert (NoDup (keys ([] : list (string * gmap string string))) ∧ keyed [])
    as Hnil by (split; [apply NoDup_nil_2|apply Forall_nil_2]).
  destruct file as [content|]; [|done]. unfold loadExistingTsvData.
  destruct (List.filter _ _) as [|headerLine [|row rows]]; [done|done|].
  unfold readRows. generalize (row :: rows). intros lines.
  revert Hnil. generalize ([] : list (string * gmap string string)).
  induction lines as [|line lines IH]; intros acc Hacc; [done|].
  cbn [foldl]. apply IH. cbv zeta.
  destruct (readEntry _ _ !! "url") as [url|] eqn:Hurl; [|done].
  destruct (String.eqb url "") eqn:E; [done|]. apply String.eqb_neq in E.
  destruct Hacc as [Hnd Hk]. split; [by apply NoDup_keys_set|].
  by apply Forall_OMap_set.
Qed.

(** *** The entry built from an answer *)

Section Entry.
Variable trim : string → string.
Variable toString : Z → string.

#[local] Abbreviation entryOf := (stockEntry trim toString).

Lemma collectStates_Forall (P : string → Prop) boxList :
  P "" → Forall (λ b, P (toString (state b))) boxList →
  Forall P (collectStates toString boxList).
Proof.
  intros Hempty HtoString. unfold collectStates.
  assert (Forall P (replicate 6 "")) as Hinit
    by (repeat (apply Forall_cons; split; [done|]); apply Forall_nil_2).
  revert Hinit. generalize (replicate 6 "").
  induction HtoString as [|b boxList Hb _ IH]; intros states Hstates; [done|].
  cbn [foldl]. apply IH. destruct (inWindow b); [|done].
  by apply Forall_insert.
Qed.

Lemma cells_stockEntry url boxList ts :
  cells (entryOf url boxList ts) =
  [url;
   or_empty (collectStates toString boxList !! 0%nat);
   or_empty (collectStates toString boxList !! 1%nat);
   or_empty (collectStates toString boxList !! 2%nat);
   or_empty (collectStates toString boxList !! 3%nat);
   or_empty (collectStates toString boxList !! 4%nat);
   or_empty (collectStates toString boxList !! 5%nat);
   (if collectHasStock trim boxList then "true" else "false");
   ts].
Proof. reflexivity. Qed.

Lemma stockEntry_normal url boxList ts :
  normalize (entryOf url boxList ts) = entryOf url boxList ts.
Proof. reflexivity. Qed.

Lemma stockEntry_complete url boxList ts : complete (entryOf url boxList ts).
Proof. rewrite <- stockEntry_normal. apply complete_normalize. Qed.

Lemma clean_slot boxList i :
  Forall (λ b, clean (toString (state b))) boxList →
  clean (or_empty (collectStates toString boxList !! i)).
Proof.
  intros HtoString.
  destruct (collectStates toString boxList !! i) as [s|] eqn:E; [|by split].
  eapply Forall_lookup_1; [|exact E].
  by apply collectStates_Forall.
Qed.

Lemma stockEntry_storable url boxList ts :
  url ≠ "" → clean url → clean ts →
  Forall (λ b, clean (toString (state b))) boxList →
  notBlank trim (dataLine (entryOf url boxList ts)) = true →
  storable trim url (entryOf url boxList ts).
Proof.
  intros Hne Hurl Hts HtoString Hline.
  split; [reflexivity|]. split; [done|]. split; [|done].
  rewrite cells_stockEntry.
  repeat (apply Forall_cons; split; [first [done|by apply clean_slot|idtac]|]).
  - by destruct (collectHasStock trim boxList).
  - apply Forall_nil_2.
Qed.
End Entry.

(** X10.  When [processStockData] stores a changed observation, the text
    it writes to the product's TSV file reads back, by
    [loadExistingTsvData], as exactly the map it keeps in memory for the
    product: a bot started afresh resumes from the same store.  The map
    before the call is taken to hold entries with the nine columns that
    fit in a line each, and the URL, the timestamp and the printed states
    of the boxes to hold no tab and no line feed. *)
Theorem written_file_restores_store (trim : string → string)
    (toString : Z → string)
    (load : Z → list (string * gmap string string))
    (d : Data) (boxList : list Box) (url : string) (now : Z) (ts : string)
    (st : t) :
  box_list d = Some boxList →
  let spu := spu_ext_id d in
  let urlMap := urlMapOf load spu st in
  let entry := stockEntry trim toString url boxList ts in
  let result :=
    processStockData trim toString load (mkExtracted (Some d)) url now ts st in
  NoDup (keys urlMap) → allStorable trim urlMap → Forall complete urlMap.*2 →
  notBlank trim headerLine = true →
  url ≠ "" → clean url → clean ts →
  Forall (λ b, clean (toString (state b))) boxList →
  notBlank trim (dataLine entry) = true →
  hasDataChanged (OMap.get urlMap url) entry = true →
  ∃ content,
    WriteTsv spu content ∈ result.2 ∧
    stockData result.1 !! spu =
      Some (loadExistingTsvData trim (Some content)).
Proof.
  intros Hb spu urlMap entry result Hnd Hm Hc Hhead Hne Hurl Hts HtoString
         Hline Hchanged.
  destruct (processStockData_result trim toString load d boxList url now
              ts st Hb) as (Hstore & Heff).
  cbn zeta in Hstore, Heff. fold spu urlMap entry result in Hstore, Heff.
  rewrite Hchanged in Hstore, Heff.
  exists (tsvContent (OMap.set urlMap url entry)). split.
  - rewrite Heff. left.
  - rewrite Hstore, lookup_insert_eq. f_equal. symmetry.
    rewrite load_tsvContent.
    + apply normalize_all. apply complete_set; [done|].
      apply stockEntry_complete.
    + by apply NoDup_keys_set.
    + done.
    + apply allStorable_set; [done|]. by apply stockEntry_storable.
Qed.

Lemma written_file_restores_store_witness :
  ∃ content,
    WriteTsv 195 content ∈
      (processStockData (λ s, s) pretty (λ _, [])
         (mkExtracted (Some sampleData)) sampleUrl 1735689630000
         "2025-01-01T00:00:30.000Z" (mk ∅ PriorityQueue.new true)).2 ∧
    stockData
      (processStockData (λ s, s) pretty (λ _, [])
         (mkExtracted (Some sampleData)) sampleUrl 1735689630000
         "2025-01-01T00:00:30.000Z" (mk ∅ PriorityQueue.new true)).1 !! 195 =
      Some (loadExistingTsvData (λ s, s) (Some content)).
Proof.
  apply (written_file_restores_store (λ s, s) pretty (λ _, []) sampleData
           sampleBoxes sampleUrl 1735689630000 "2025-01-01T00:00:30.000Z"
           (mk ∅ PriorityQueue.new true)).
  - reflexivity.
  - apply NoDup_nil_2.
  - apply Forall_nil_2.
  - apply Forall_nil_2.
  - reflexivity.
  - done.
  - by split.
  - by split.
  - apply Forall_cons. split; [by split|]. by apply Forall_singleton.
  - reflexivity.
  - reflexivity.
Defined.
End StockBotMore.

Module StockBotChange.
Import StockBot StockStore StockBotFacts StringFacts.

(** *** Change detection is exact *)

Definition spaceChar : Ascii.ascii := Ascii.ascii_of_nat 32.

(** The state slots of an entry as [hasDataChanged] reads them. *)
Definition slots (e : gmap string string) : list string :=
  (λ k, or_empty (e !! k)) <$> stateKeys.

Lemma join_slots (e : gmap string string) :
  join " " ((λ k, e !! k) <$> stateKeys) = joinR spaceChar (slots e).
Proof.
  rewrite <- join_joinR. apply join_default.
  unfold slots. rewrite <- !list_fmap_compose. by apply list_fmap_ext.
Qed.

Lemma slots_eq (e1 e2 : gmap string string) :
  slots e1 = slots e2 →
  ∀ k, k ∈ stateKeys → or_empty (e1 !! k) = or_empty (e2 !! k).
Proof.
  unfold slots. intros H k Hk.
  apply list_elem_of_lookup in Hk as [i Hi].
  apply (f_equal (λ l, l !! i)) in H. rewrite !list_lookup_fmap, Hi in H.
  by injection H.
Qed.

(** X11.  When no state slot of the two entries holds a space,
    [hasDataChanged] answers "unchanged" exactly when the six slots and
    the stock flag agree: joining the slots with spaces loses nothing. *)
Theorem hasDataChanged_exact (existing entry : gmap string string) :
  Forall (λ s, hasChar spaceChar s = false) (slots existing) →
  Forall (λ s, hasChar spaceChar s = false) (slots entry) →
  hasDataChanged (Some existing) entry = false ↔
  sameObservation existing entry.
Proof.
  intros Hold Hnew. split; [|apply hasDataChanged_unchanged].
  unfold hasDataChanged. rewrite !join_slots.
  intros [Hs Hk]%orb_false_iff.
  apply negb_false_iff, String.eqb_eq in Hs.
  apply negb_false_iff, bool_decide_eq_true in Hk.
  split; [|done]. apply slots_eq.
  rewrite <- (split_joinR spaceChar (slots existing)) by done.
  rewrite <- (split_joinR spaceChar (slots entry)) by done.
  by rewrite Hs.
Qed.

Lemma hasDataChanged_exact_witness :
  hasDataChanged (Some (sampleEntry "2025-01-01T00:00:00.000Z"))
                 (sampleEntry "2025-01-01T00:00:30.000Z") = false ↔
  sameObservation (sampleEntry "2025-01-01T00:00:00.000Z")
                  (sampleEntry "2025-01-01T00:00:30.000Z").
Proof.
  apply hasDataChanged_exact.
  - change (slots (sampleEntry "2025-01-01T00:00:00.000Z"))
      with ["1"; "2"; ""; ""; ""; ""].
    repeat (apply Forall_cons; split; [reflexivity|]). apply Forall_nil_2.
  - change (slots (sampleEntry "2025-01-01T00:00:30.000Z"))
      with ["1"; "2"; ""; ""; ""; ""].
    repeat (apply Forall_cons; split; [reflexivity|]). apply Forall_nil_2.
Defined.

(** *** The rotation holds every URL once, each product in its order *)

Lemma takeHeads_Permutation queues :
  (takeHeads queues).1 ++ concat (takeHeads queues).2 ≡ₚ concat queues.
Proof.
  induction queues as [|g queues IH]; [done|]. cbn [takeHeads].
  destruct (takeHeads queues) as [taken rest]. cbn [fst snd] in IH.
  destruct g as [|x g]; cbn [fst snd concat app].
  - done.
  - constructor. rewrite <- IH.
    rewrite !(assoc_L (++)). apply Permutation_app_tail.
    apply Permutation_app_comm.
Qed.

Lemma concat_all_empty queues :
  existsb nonEmpty queues = false → concat queues = [].
Proof.
  induction queues as [|g queues IH]; [done|]. cbn [existsb concat].
  intros [Hg Hq]%orb_false_iff. destruct g; [|done]. by rewrite IH.
Qed.

Lemma interleaveLoop_Permutation queues acc :
  interleaveLoop queues acc ≡ₚ acc ++ concat queues.
Proof.
  funelim (interleaveLoop queues acc).
  - rewrite H. rewrite <- (assoc_L (++)).
    by rewrite takeHeads_Permutation.
  - rewrite concat_all_empty by done. by rewrite app_nil_r.
Qed.

Lemma elem_of_column_head x g queues :
  (x :: g) ∈ queues → x ∈ column queues 0.
Proof.
  unfold column. intros Hin. apply list_elem_of_omap. by exists (x :: g).
Qed.

Lemma singleton_sublist {A} (x : A) l : x ∈ l → [x] `sublist_of` l.
Proof.
  intros (l1 & l2 & ->)%list_elem_of_split.
  apply (sublist_app [] l1 [x]); [apply sublist_nil_l|].
  apply sublist_skip, sublist_nil_l.
Qed.

Lemma roundRobin_sublist queues g :
  g ∈ queues → g `sublist_of` roundRobin queues.
Proof.
  remember (longest queues) as n eqn:Hn. revert queues g Hn.
  induction n as [|n IH]; intros queues g Hn Hin.
  - unfold roundRobin. rewrite <- Hn. cbn.
    assert (g = []) as ->; [|done].
    induction queues as [|g0 queues IHq]; [by apply elem_of_nil in Hin|].
    rewrite longest_cons in Hn.
    apply elem_of_cons in Hin as [-> | Hin].
    + destruct g0; [done|]. cbn in Hn. lia.
    + apply IHq; [lia|done].
  - destruct (existsb nonEmpty queues) eqn:E.
    2:{ apply longest_zero in E. congruence. }
    rewrite roundRobin_turn by done. destruct g as [|x g]; [apply sublist_nil_l|].
    apply (sublist_app [x] _ g).
    + apply singleton_sublist. by eapply elem_of_column_head.
    + apply IH.
      * rewrite longest_tail, <- Hn. done.
      * apply list_elem_of_fmap. by exists (x :: g).
Qed.

(** X12.  The rotation built by [interleaveUrls] holds exactly the URLs
    of the products, each as often as the products list it, and the URLs
    of one product appear in it in the order of the product's own list. *)
Theorem interleave_keeps_every_url (products : list Product)
    (queue : PriorityQueue.t) :
  PriorityQueue.urls (interleaveUrls products queue) ≡ₚ
    concat (p_urls <$> products) ∧
  ∀ product, product ∈ products →
    p_urls product `sublist_of`
      PriorityQueue.urls (interleaveUrls products queue).
Proof.
  unfold interleaveUrls. cbn [PriorityQueue.urls PriorityQueue.initialize].
  split; [apply interleaveLoop_Permutation|].
  intros product Hin. rewrite interleaveLoop_roundRobin. cbn [app].
  apply roundRobin_sublist. apply list_elem_of_fmap. by exists product.
Qed.
End StockBotChange.

Module StockBotProcess.
Import StockBot StockStore StockBotFacts OMapFacts.

(** *** Only the boxes at positions 1 to 6 count *)

Section Window.
Variable trim : string → string.
Variable toString : Z → string.
Variable load : Z → list (string * gmap string string).

Lemma existsb_inWindow (f : Box → bool) boxList :
  (∀ b, f b = true → inWindow b = true) →
  existsb f boxList = existsb f (List.filter inWindow boxList).
Proof.
  intros Hf. induction boxList as [|b boxList IH]; [done|].
  cbn [existsb List.filter]. destruct (inWindow b) eqn:E.
  - cbn [existsb]. by rewrite IH.
  - destruct (f b) eqn:Ef; [|done]. apply Hf in Ef. congruence.
Qed.

Lemma collectStates_inWindow boxList :
  collectStates toString boxList =
  collectStates toString (List.filter inWindow boxList).
Proof.
  unfold collectStates. generalize (replicate 6 "").
  induction boxList as [|b boxList IH]; intros states; [done|].
  cbn [foldl List.filter]. destruct (inWindow b) eqn:E; [|done].
  cbn [foldl]. by rewrite E.
Qed.

Lemma collectHasStock_inWindow boxList :
  collectHasStock trim boxList =
  collectHasStock trim (List.filter inWindow boxList).
Proof. apply existsb_inWindow. by intros b [? _]%andb_true_iff. Qed.

Lemma stockEntry_inWindow url boxList ts :
  stockEntry trim toString url boxList ts =
  stockEntry trim toString url (List.filter inWindow boxList) ts.
Proof.
  unfold stockEntry.
  by rewrite <- collectStates_inWindow, <- collectHasStock_inWindow.
Qed.

Lemma updateUrlPriority_inWindow url boxList now q :
  updateUrlPriority trim url boxList now q =
  updateUrlPriority trim url (List.filter inWindow boxList) now q.
Proof.
  unfold updateUrlPriority.
  rewrite <- !existsb_inWindow; [done|..].
  - by intros b [[? _]%andb_true_iff _]%andb_true_iff.
  - by intros b [? _]%andb_true_iff.
Qed.

(** X13.  The boxes whose position is not between 1 and 6 have no
    influence: [processStockData] gives the same state and the same
    effects for an answer and for the answer without those boxes. *)
Theorem boxes_outside_window_ignored (spu : Z) (boxList : list Box)
    (url : string) (now : Z) (ts : string) (st : t) :
  processStockData trim toString load
    (mkExtracted (Some (mkData spu (Some boxList)))) url now ts st =
  processStockData trim toString load
    (mkExtracted (Some (mkData spu (Some (List.filter inWindow boxList)))))
    url now ts st.
Proof.
  unfold processStockData. cbn [data box_list spu_ext_id].
  by rewrite <- stockEntry_inWindow, <- updateUrlPriority_inWindow.
Qed.

(** *** The six state slots *)

(** The last box of the answer that sits at position [i + 1]. *)
Definition lastAt (i : nat) (boxList : list Box) : option Box :=
  last (List.filter (λ b, bool_decide (position b = Z.of_nat i + 1)) boxList).

Lemma collectStates_snoc boxList b :
  collectStates toString (boxList ++ [b]) =
  if inWindow b
  then <[Z.to_nat (position b - 1) := toString (state b)]>
         (collectStates toString boxList)
  else collectStates toString boxList.
Proof. unfold collectStates. by rewrite foldl_app. Qed.

Lemma lastAt_snoc i boxList b :
  lastAt i (boxList ++ [b]) =
  if bool_decide (position b = Z.of_nat i + 1) then Some b
  else lastAt i boxList.
Proof.
  unfold lastAt. rewrite List.filter_app. cbn [List.filter].
  destruct (bool_decide _); [by rewrite last_snoc|by rewrite app_nil_r].
Qed.

(** X14.  The state slots built by [processStockData] are always six;
    slot [i] holds the printed state of the last box of the answer at
    position [i + 1], and the empty string when the answer has no box
    there. *)
Theorem state_slots (boxList : list Box) :
  length (collectStates toString boxList) = 6%nat ∧
  ∀ i, (i < 6)%nat →
    collectStates toString boxList !! i =
    Some (match lastAt i boxList with
          | Some b => toString (state b)
          | None => ""
          end).
Proof.
  induction boxList as [|b boxList [Hlen Hslot]] using rev_ind.
  - split; [done|]. intros i Hi. unfold lastAt. cbn.
    do 6 (destruct i as [|i]; [done|]). lia.
  - rewrite collectStates_snoc. unfold inWindow.
    repeat case_bool_decide; cbn [andb].
    + split; [by rewrite length_insert|]. intros i Hi. rewrite lastAt_snoc.
      case_bool_decide as Hpos.
      * replace (Z.to_nat (position b - 1)) with i by lia.
        apply list_lookup_insert_eq. lia.
      * rewrite list_lookup_insert_ne by lia. by apply Hslot.
    + split; [done|]. intros i Hi. rewrite lastAt_snoc.
      rewrite bool_decide_false by lia. by apply Hslot.
    + split; [done|]. intros i Hi. rewrite lastAt_snoc.
      rewrite bool_decide_false by lia. by apply Hslot.
    + split; [done|]. intros i Hi. rewrite lastAt_snoc.
      rewrite bool_decide_false by lia. by apply Hslot.
Qed.


(** *** What one call leaves alone *)

Lemma setPriority_frame (q : PriorityQueue.t) (u v : string) (p now : Z) :
  v ≠ u →
  OMap.get (PriorityQueue.priorityMap (PriorityQueue.setPriority u p now q)) v =
    OMap.get (PriorityQueue.priorityMap q) v ∧
  PriorityQueue.lastPriorityCheck (PriorityQueue.setPriority u p now q) !! v =
    PriorityQueue.lastPriorityCheck q !! v.
Proof.
  intros Hv. destruct (decide (p = 0)) as [-> | Hp].
  - by apply PriorityQueueMore.setPriority_clear_frame.
  - rewrite PriorityQueueMore.setPriority_nonzero by done.
    cbn [PriorityQueue.priorityMap PriorityQueue.lastPriorityCheck
         PriorityQueue.with_priorities].
    split; [|done]. by apply get_set_ne.
Qed.

(** The tier that [updateUrlPriority] gives to the URL. *)
Definition tierOf (boxList : list Box) : Z :=
  let hasReserved :=
    existsb (λ b, inWindow b && bool_decide (state b = 2)) boxList in
  let hasInStock :=
    existsb (λ b, inWindow b && bool_decide (state b = 0) && hasBoxNo trim b)
            boxList in
  if hasReserved && hasInStock then 1
  else if hasReserved then 2
  else if hasInStock then 3
  else 0.

Lemma updateUrlPriority_tier url boxList now q :
  updateUrlPriority trim url boxList now q =
  PriorityQueue.setPriority url (tierOf boxList) now q.
Proof.
  unfold updateUrlPriority, tierOf. cbv zeta.
  by repeat destruct (existsb _ _).
Qed.

(** X15.  One call of [processStockData] for a URL touches the record of
    that URL only: the rotation, the cursor and the two limits of the
    queue stay as they are, as do the priority record and the throttle
    stamp of every other URL, the web server, and, in every product map
    that was loaded before the call, the entry of every other URL. *)
Theorem processStockData_frame (extractedData : Extracted) (url : string)
    (now : Z) (ts : string) (st : t) :
  let st' := (processStockData trim toString load extractedData url now ts st).1 in
  PriorityQueue.urls (priorityQueue st') = PriorityQueue.urls (priorityQueue st) ∧
  PriorityQueue.currentIndex (priorityQueue st') =
    PriorityQueue.currentIndex (priorityQueue st) ∧
  PriorityQueue.maxLineCuts (priorityQueue st') =
    PriorityQueue.maxLineCuts (priorityQueue st) ∧
  PriorityQueue.priorityCheckInterval (priorityQueue st') =
    PriorityQueue.priorityCheckInterval (priorityQueue st) ∧
  webServer st' = webServer st ∧
  (∀ v, v ≠ url →
     OMap.get (PriorityQueue.priorityMap (priorityQueue st')) v =
       OMap.get (PriorityQueue.priorityMap (priorityQueue st)) v ∧
     PriorityQueue.lastPriorityCheck (priorityQueue st') !! v =
       PriorityQueue.lastPriorityCheck (priorityQueue st) !! v) ∧
  (∀ spu m, stockData st !! spu = Some m →
     ∃ m', stockData st' !! spu = Some m' ∧
           ∀ v, v ≠ url → OMap.get m' v = OMap.get m v).
Proof.
  destruct extractedData as [[[spu0 [boxList|]]|]]; cbn zeta.
  2,3: by (repeat split; try done; intros spu m Hm; exists m).
  rewrite (processStockData_unfold trim toString load
             (mkData spu0 (Some boxList)) boxList) by done.
  cbn zeta. cbn [spu_ext_id].
  set (q' := updateUrlPriority trim url boxList now (priorityQueue st)).
  assert (stockData (ensureLoaded load spu0 st) =
          match stockData st !! spu0 with
          | Some _ => stockData st
          | None => <[spu0 := load spu0]> (stockData st)
          end) as Hloaded.
  { unfold ensureLoaded. by destruct (stockData st !! spu0). }
  assert (∀ spu m, stockData st !! spu = Some m →
            stockData (ensureLoaded load spu0 st) !! spu = Some m) as Hkeep.
  { intros spu m Hm. rewrite Hloaded.
    destruct (stockData st !! spu0) eqn:E; [done|].
    rewrite lookup_insert_ne; [done|]. intros <-. congruence. }
  assert (PriorityQueueFacts.sameSetup (priorityQueue st) q') as Hsetup.
  { unfold q'. rewrite updateUrlPriority_tier.
    apply PriorityQueueFacts.setPriority_setup. }
  assert (PriorityQueue.currentIndex q' =
          PriorityQueue.currentIndex (priorityQueue st)) as Hindex.
  { unfold q'. rewrite updateUrlPriority_tier.
    apply PriorityQueueFacts.setPriority_index. }
  assert (∀ v, v ≠ url →
     OMap.get (PriorityQueue.priorityMap q') v =
       OMap.get (PriorityQueue.priorityMap (priorityQueue st)) v ∧
     PriorityQueue.lastPriorityCheck q' !! v =
       PriorityQueue.lastPriorityCheck (priorityQueue st) !! v) as Hothers.
  { intros v Hv. unfold q'. rewrite updateUrlPriority_tier.
    by apply setPriority_frame. }
  destruct Hsetup as [Hurls Hcuts Hinterval].
  destruct (hasDataChanged _ _); cbn [fst priorityQueue webServer stockData].
  - repeat split; try done; try (by apply Hothers).
    intros spu m Hm. destruct (decide (spu = spu0)) as [-> | Hne].
    + rewrite lookup_insert_eq. eexists. split; [done|].
      intros v Hv. rewrite get_set_ne by done.
      unfold StockBot.urlMapOf. by rewrite (Hkeep _ _ Hm).
    + rewrite lookup_insert_ne by done. exists m. split; [by apply Hkeep|done].
  - repeat split; try done; try (by apply Hothers).
    intros spu m Hm. exists m. split; [by apply Hkeep|done].
Qed.

(** *** The tier follows the boxes *)

(** A box at a position from 1 to 6 is reserved (state 2). *)
Definition reservedIn (boxList : list Box) : Prop :=
  Exists (λ b, 1 ≤ position b ≤ 6 ∧ state b = 2) boxList.

(** A box at a position from 1 to 6 is in stock (state 0) and carries a
    box number that is not blank. *)
Definition inStockIn (boxList : list Box) : Prop :=
  Exists (λ b, 1 ≤ position b ≤ 6 ∧ state b = 0 ∧ hasBoxNo trim b = true)
         boxList.

Lemma existsb_Exists {A} (f : A → bool) (P : A → Prop) (l : list A) :
  (∀ x, f x = true ↔ P x) → existsb f l = true ↔ Exists P l.
Proof.
  intros Hf. induction l as [|x l IH]; cbn [existsb].
  - split; [done|]. by intros ?%Exists_nil.
  - by rewrite Exists_cons, orb_true_iff, IH, Hf.
Qed.

Lemma inWindow_iff b : inWindow b = true ↔ 1 ≤ position b ≤ 6.
Proof.
  unfold inWindow. rewrite andb_true_iff, !bool_decide_eq_true. tauto.
Qed.

Lemma hasReserved_iff boxList :
  existsb (λ b, inWindow b && bool_decide (state b = 2)) boxList = true ↔
  reservedIn boxList.
Proof.
  apply existsb_Exists. intros b.
  by rewrite andb_true_iff, inWindow_iff, bool_decide_eq_true.
Qed.

Lemma hasInStock_iff boxList :
  existsb (λ b, inWindow b && bool_decide (state b = 0) && hasBoxNo trim b)
          boxList = true ↔
  inStockIn boxList.
Proof.
  apply existsb_Exists. intros b.
  rewrite !andb_true_iff, inWindow_iff, bool_decide_eq_true. tauto.
Qed.

Lemma tierOf_cases boxList :
  (tierOf boxList = 1 ∧ reservedIn boxList ∧ inStockIn boxList) ∨
  (tierOf boxList = 2 ∧ reservedIn boxList ∧ ¬ inStockIn boxList) ∨
  (tierOf boxList = 3 ∧ ¬ reservedIn boxList ∧ inStockIn boxList) ∨
  (tierOf boxList = 0 ∧ ¬ reservedIn boxList ∧ ¬ inStockIn boxList).
Proof.
  unfold tierOf. cbv zeta.
  rewrite <- hasReserved_iff, <- hasInStock_iff.
  destruct (existsb _ _), (existsb _ _); cbn [andb]; intuition congruence.
Qed.

Lemma setPriority_zero_get (q : PriorityQueue.t) (u : string) (now : Z) :
  NoDup (keys (PriorityQueue.priorityMap q)) →
  OMap.get (PriorityQueue.priorityMap (PriorityQueue.setPriority u 0 now q)) u
  = None.
Proof.
  intros Hnd. unfold PriorityQueue.setPriority. rewrite decide_True by done.
  unfold OMap.has. destruct (OMap.get (PriorityQueue.priorityMap q) u) eqn:E.
  - cbn [PriorityQueue.priorityMap PriorityQueue.with_priorities].
    by apply get_delete_eq.
  - done.
Qed.

Lemma processStockData_queue spu boxList url now ts st :
  priorityQueue
    (processStockData trim toString load
       (mkExtracted (Some (mkData spu (Some boxList)))) url now ts st).1 =
  PriorityQueue.setPriority url (tierOf boxList) now (priorityQueue st).
Proof.
  rewrite (processStockData_unfold trim toString load
             (mkData spu (Some boxList)) boxList) by done.
  cbv zeta. rewrite updateUrlPriority_tier. by destruct (hasDataChanged _ _).
Qed.

(** X16.  After [processStockData] handled an answer for a URL, the URL
    has a priority record exactly when one of the boxes at positions 1 to
    6 is reserved or in stock with a box number: tier 1 when both kinds
    are there, tier 2 for a reserved box only, tier 3 for a box in stock
    only, each with the time of the call; with neither the URL has no
    record. *)
Theorem url_priority_reflects_boxes (spu : Z) (boxList : list Box)
    (url : string) (now : Z) (ts : string) (st : t) :
  NoDup (keys (PriorityQueue.priorityMap (priorityQueue st))) →
  match
    OMap.get
      (PriorityQueue.priorityMap
         (priorityQueue
            (processStockData trim toString load
               (mkExtracted (Some (mkData spu (Some boxList))))
               url now ts st).1)) url
  with
  | None => ¬ reservedIn boxList ∧ ¬ inStockIn boxList
  | Some info =>
      PriorityQueue.addedAt info = now ∧
      ((PriorityQueue.priority info = 1 ∧
        reservedIn boxList ∧ inStockIn boxList) ∨
       (PriorityQueue.priority info = 2 ∧
        reservedIn boxList ∧ ¬ inStockIn boxList) ∨
       (PriorityQueue.priority info = 3 ∧
        ¬ reservedIn boxList ∧ inStockIn boxList))
  end.
Proof.
  intros Hnd. rewrite processStockData_queue.
  destruct (tierOf_cases boxList)
    as [(Ht & Hr & Hs) | [(Ht & Hr & Hs) | [(Ht & Hr & Hs) | (Ht & Hr & Hs)]]];
    rewrite Ht.
  4: by rewrite setPriority_zero_get.
  all: rewrite PriorityQueueMore.setPriority_nonzero by done.
  all: cbn [PriorityQueue.priorityMap PriorityQueue.with_priorities].
  all: rewrite get_set_eq; cbn [PriorityQueue.addedAt PriorityQueue.priority].
  all: split; [done|tauto].
Qed.
End Window.

Lemma url_priority_reflects_boxes_witness :
  match
    OMap.get
      (PriorityQueue.priorityMap
         (priorityQueue
            (processStockData (λ s, s) pretty (λ _, [])
               (mkExtracted (Some (mkData 195 (Some sampleBoxes))))
               sampleUrl 1735689630000 "2025-01-01T00:00:30.000Z"
               (mk ∅ PriorityQueue.new true)).1)) sampleUrl
  with
  | None => ¬ reservedIn sampleBoxes ∧ ¬ inStockIn (λ s, s) sampleBoxes
  | Some info =>
      PriorityQueue.addedAt info = 1735689630000 ∧
      ((PriorityQueue.priority info = 1 ∧
        reservedIn sampleBoxes ∧ inStockIn (λ s, s) sampleBoxes) ∨
       (PriorityQueue.priority info = 2 ∧
        reservedIn sampleBoxes ∧ ¬ inStockIn (λ s, s) sampleBoxes) ∨
       (PriorityQueue.priority info = 3 ∧
        ¬ reservedIn sampleBoxes ∧ inStockIn (λ s, s) sampleBoxes))
  end.
Proof.
  apply (url_priority_reflects_boxes (λ s, s) pretty (λ _, []) 195 sampleBoxes
           sampleUrl 1735689630000 "2025-01-01T00:00:30.000Z"
           (mk ∅ PriorityQueue.new true)).
  apply NoDup_nil_2.
Defined.

(** *** The workers *)

Lemma lookups_take {P} (proxies : list P) (n : nat) :
  (n ≤ length proxies)%nat →
  (λ i : nat, proxies !! i) <$> seq 0 n = Some <$> take n proxies.
Proof.
  intros Hn. apply list_eq. intros i. rewrite !list_lookup_fmap.
  destruct (decide (i < n)%nat) as [Hi|Hi].
  - rewrite lookup_seq_lt by done. rewrite lookup_take_lt by done. cbn.
    destruct (lookup_lt_is_Some_2 proxies i) as [p Hp]; [lia|]. by rewrite Hp.
  - rewrite lookup_seq_ge by lia. by rewrite lookup_take_ge by lia.
Qed.

(** X17.  [initializeWorkers(urlCount)] on a bot without workers creates
    as many workers as there are URLs, but no more than there are
    proxies; the workers are numbered from 1, worker [i + 1] gets proxy
    [i] of the fleet, so each worker has a proxy and, when the proxies
    are distinct, no two workers share one. *)
Theorem workers_get_their_own_proxy {P} (urlCount : Z) (proxies : list P) :
  let workers := initializeWorkers urlCount proxies [] in
  JS.len workers = Z.max 0 (Z.min urlCount (JS.len proxies)) ∧
  (∀ i w, workers !! i = Some w →
     w_id w = Z.of_nat i + 1 ∧ w_proxy w = proxies !! i ∧
     is_Some (w_proxy w)) ∧
  (NoDup proxies → NoDup (w_proxy <$> workers)).
Proof.
  unfold initializeWorkers. cbv zeta. cbn [app].
  set (n := Z.to_nat (Z.min urlCount (JS.len proxies))).
  assert (n ≤ length proxies)%nat as Hn by (unfold n, JS.len; lia).
  split; [|split].
  - unfold JS.len. rewrite length_fmap, length_seq. unfold n, JS.len. lia.
  - intros i w Hw. rewrite list_lookup_fmap in Hw.
    destruct (seq 0 n !! i) as [j|] eqn:Hj; [|done].
    apply lookup_seq in Hj as [-> Hi]. injection Hw as <-.
    cbn [w_id w_proxy]. split; [done|]. split; [done|].
    apply lookup_lt_is_Some_2. lia.
  - intros Hnd. rewrite <- list_fmap_compose.
    change (w_proxy ∘ _) with (λ i : nat, proxies !! i).
    rewrite lookups_take by done. apply (NoDup_fmap_2 Some).
    eapply sublist_NoDup; [exact Hnd|]. apply sublist_take.
Qed.
End StockBotProcess.

Module FleetFacts.
Import ProxyManager Fleet ProxyManagerFacts StringFacts.

(** *** The shared cursor *)

(** The cursor points into the region list. *)
Definition cursorAt (pm : Regions) (k : nat) : Prop :=
  currentRegionIndex pm = Some (Z.of_nat k) ∧ (k < length (regions pm))%nat.

Lemma getNextRegion_at pm k :
  cursorAt pm k →
  (getNextRegion pm).1 = regions pm !! k ∧
  regions (getNextRegion pm).2 = regions pm ∧
  cursorAt (getNextRegion pm).2 (S k `mod` length (regions pm)).
Proof.
  intros [Hk Hlt]. unfold getNextRegion, cursorAt. cbn [fst snd regions currentRegionIndex].
  rewrite Hk. cbn [at_opt fmap option_fmap option_map js_rem].
  split; [|split; [done|split]].
  - unfold JS.at_index. rewrite decide_True by lia. by rewrite Nat2Z.id.
  - unfold JS.len. rewrite decide_False by lia. f_equal.
    rewrite Z.rem_mod_nonneg by lia. rewrite Nat2Z.inj_mod. f_equal; lia.
  - apply Nat.mod_upper_bound. lia.
Qed.

Lemma cliRegion_None o i : cliRegions o = None → cliRegion o i = None.
Proof. unfold cliRegion. by intros ->. Qed.

Lemma sequentialLoop_cursor o iterations pm k :
  cliRegions o = None →
  cursorAt pm k →
  (sequentialLoop o iterations pm).1 =
    (λ j : nat, regions pm !! ((k + j) `mod` length (regions pm))%nat)
      <$> seq 0 (length iterations) ∧
  regions (sequentialLoop o iterations pm).2 = regions pm ∧
  cursorAt (sequentialLoop o iterations pm).2
           ((k + length iterations) `mod` length (regions pm)).
Proof.
  intros Ho. revert pm k. induction iterations as [|i rest IH]; intros pm k Hk.
  - cbn [sequentialLoop fst snd length seq fmap list_fmap].
    split; [done|]. split; [done|]. destruct Hk as [Hk Hlt].
    rewrite Nat.add_0_r, Nat.mod_small by done. by split.
  - cbn [sequentialLoop]. rewrite cliRegion_None by done.
    unfold createProxyRegion. cbn [JS.truthy].
    destruct (getNextRegion_at pm k Hk) as (Hregion & Hregions & Hnext).
    destruct (getNextRegion pm) as [region pm1]. cbn [fst snd] in *.
    destruct (IH pm1 _ Hnext) as (Hlist & Hregions' & Hcursor).
    destruct (sequentialLoop o rest pm1) as [regions' pm2]. cbn [fst snd] in *.
    destruct Hk as [_ Hlt]. rewrite Hregions in *.
    split; [|split; [congruence|]].
    + cbn [length seq fmap list_fmap]. f_equal.
      * rewrite Hregion, Nat.add_0_r, Nat.mod_small; done.
      * rewrite Hlist, <- fmap_S_seq, <- list_fmap_compose.
        apply list_fmap_ext. intros _ j _. cbn. f_equal.
        rewrite Nat.Div0.add_mod_idemp_l. f_equal. lia.
    + cbn [length]. rewrite Nat.Div0.add_mod_idemp_l in Hcursor.
      by replace (k + S (length rest))%nat with (S k + length rest)%nat by lia.
Qed.

(** X18.  [getNextRegion] hands out the regions of the manager in turn:
    when the cursor is at entry [k] of a list of [n] regions, the [j]-th
    of any number of successive calls made for proxies without a region
    of their own returns entry [(k + j) mod n], the list is not changed
    and the cursor ends at [(k + count) mod n]. *)
Theorem shared_cursor_round_robin (pm : Regions) (k : nat) (count : Z) :
  cursorAt pm k →
  (sequentialRegions None count pm).1 =
    (λ j : nat, regions pm !! ((k + j) `mod` length (regions pm))%nat)
      <$> seq 0 (Z.to_nat count) ∧
  regions (sequentialRegions None count pm).2 = regions pm ∧
  cursorAt (sequentialRegions None count pm).2
           ((k + Z.to_nat count) `mod` length (regions pm)).
Proof.
  intros Hk. unfold sequentialRegions.
  destruct (sequentialLoop_cursor None (seq 0 (Z.to_nat count)) pm k eq_refl Hk)
    as (H1 & H2 & H3).
  rewrite length_seq in H1, H3. done.
Qed.

Lemma shared_cursor_round_robin_witness :
  (sequentialRegions None 6 newRegions).1 =
  [Some "us-east-1"; Some "us-east-2"; Some "us-west-1"; Some "ca-central-1";
   Some "us-east-1"; Some "us-east-2"].
Proof.
  destruct (shared_cursor_round_robin newRegions 0 6) as (H & _ & _).
  - split; [reflexivity|]. cbn. lia.
  - exact H.
Defined.

(** *** The command line and [createProxies] agree *)

Lemma at_rem (l : list string) (i : nat) :
  l ≠ [] →
  at_opt l (js_rem (Some (Z.of_nat i)) (JS.len l)) = l !! (i `mod` length l)%nat.
Proof.
  intros Hne. assert (0 < length l)%nat by (destruct l; [done|cbn; lia]).
  unfold js_rem, JS.len. rewrite decide_False by lia.
  cbn [at_opt]. unfold JS.at_index.
  rewrite Z.rem_mod_nonneg by lia. rewrite <- Nat2Z.inj_mod.
  rewrite decide_True by lia. by rewrite Nat2Z.id.
Qed.

Lemma cliRegions_nonempty o pieces : cliRegions o = Some pieces → pieces ≠ [].
Proof.
  unfold cliRegions. destruct (JS.truthy o); [|done].
  destruct o as [s|]; [|done]. cbn. intros [= <-]. apply split_nonempty.
Qed.

Lemma truthy_piece (pieces : list string) (i : nat) :
  pieces ≠ [] → Forall (λ r, r ≠ "") pieces →
  JS.truthy (pieces !! (i `mod` length pieces)%nat) = true.
Proof.
  intros Hne Hall. assert (0 < length pieces)%nat by (destruct pieces; [done|cbn; lia]).
  destruct (lookup_lt_is_Some_2 pieces (i `mod` length pieces)%nat) as [r Hr].
  { apply Nat.mod_upper_bound. lia. }
  rewrite Hr. cbn. eapply Forall_lookup_1 in Hall; [|exact Hr].
  by rewrite (proj2 (String.eqb_neq r "")).
Qed.

Lemma sequentialLoop_pieces o pieces iterations pm :
  cliRegions o = Some pieces → Forall (λ r, r ≠ "") pieces →
  sequentialLoop o iterations pm =
  ((λ i : nat, at_opt pieces (js_rem (Some (Z.of_nat i)) (JS.len pieces)))
     <$> iterations, pm).
Proof.
  intros Ho Hall. pose proof (cliRegions_nonempty _ _ Ho) as Hne.
  induction iterations as [|i rest IH]; [done|].
  cbn [sequentialLoop]. unfold cliRegion at 1. rewrite Ho.
  unfold createProxyRegion. rewrite at_rem by done.
  rewrite truthy_piece by done. rewrite IH.
  cbn [fmap list_fmap]. by rewrite at_rem.
Qed.

(** The regions typed on the command line are all named: no piece between
    two commas is empty. *)
Definition allNamed (optionRegions : option string) : Prop :=
  match cliRegions optionRegions with
  | Some pieces => Forall (λ r, r ≠ "") pieces
  | None => True
  end.

(** X19.  On a fresh manager the sequential creation of the command line
    uses, proxy after proxy, the very regions that [createProxies] assigns
    in the parallel creation, whether regions were given (each of them
    named) or not. *)
Theorem sequential_matches_parallel (optionRegions : option string)
    (count : Z) :
  allNamed optionRegions →
  (sequentialRegions optionRegions count newRegions).1 =
  targetRegions newRegions count (cliRegions optionRegions).
Proof.
  unfold allNamed, sequentialRegions, targetRegions. intros Hnamed.
  destruct (cliRegions optionRegions) as [pieces|] eqn:Ho.
  - by rewrite (sequentialLoop_pieces _ pieces).
  - destruct (sequentialLoop_cursor optionRegions (seq 0 (Z.to_nat count))
                newRegions 0 Ho) as (H & _ & _).
    { split; [done|]. cbn. lia. }
    rewrite H, length_seq. apply list_fmap_ext. intros _ i _.
    cbn [availableRegions]. by rewrite at_rem.
Qed.

Lemma sequential_matches_parallel_witness :
  (sequentialRegions (Some "eu-west-1,eu-west-2") 3 newRegions).1 =
  targetRegions newRegions 3 (cliRegions (Some "eu-west-1,eu-west-2")).
Proof.
  apply sequential_matches_parallel.
  change (Forall (λ r, r ≠ "") ["eu-west-1"; "eu-west-2"]).
  apply Forall_cons. split; [done|]. by apply Forall_singleton.
Defined.

(** X20.  Called from the command line, [createProxies] never assigns an
    undefined region: the list made of the [--regions] option is never
    empty, and without the option the four regions of the manager are
    used. *)
Theorem cli_regions_always_defined (optionRegions : option string)
    (count : Z) (i : nat) :
  (i < Z.to_nat count)%nat →
  ∃ region,
    targetRegions newRegions count (cliRegions optionRegions) !! i =
    Some (Some region).
Proof.
  intros Hi.
  destruct (targetRegions_lookup newRegions count (cliRegions optionRegions)
              i Hi) as (region & _ & Hregion); [|by exists region].
  destruct (cliRegions optionRegions) as [pieces|] eqn:Ho; [|done].
  cbn [availableRegions]. by eapply cliRegions_nonempty.
Qed.

Lemma cli_regions_always_defined_witness :
  ∃ region,
    targetRegions newRegions 3 (cliRegions (Some ",")) !! 2%nat =
    Some (Some region).
Proof. apply cli_regions_always_defined. cbn. lia. Defined.

(** *** Complete rounds *)

Lemma lookups_all (l : list string) :
  (λ i : nat, l !! i) <$> seq 0 (length l) = Some <$> l.
Proof.
  rewrite StockBotProcess.lookups_take by done. by rewrite firstn_all.
Qed.

Lemma rounds_more (l : list string) (m : nat) :
  l ≠ [] →
  (λ i : nat, l !! (i `mod` length l)%nat) <$> seq 0 (length l + m) =
  (Some <$> l) ++ ((λ i : nat, l !! (i `mod` length l)%nat) <$> seq 0 m).
Proof.
  intros Hne. assert (0 < length l)%nat by (destruct l; [done|cbn; lia]).
  rewrite seq_app, fmap_app. f_equal.
  - rewrite <- lookups_all. apply list_fmap_ext. intros j i Hi.
    apply lookup_seq in Hi as [-> Hi]. cbn. by rewrite Nat.mod_small.
  - cbn [Nat.add].
    assert (seq (length l) m = Nat.add (length l) <$> seq 0 m) as ->
      by (rewrite fmap_add_seq; f_equal; lia).
    rewrite <- list_fmap_compose.
    apply list_fmap_ext. intros _ i _. cbn. f_equal.
    replace (length l + i)%nat with (i + 1 * length l)%nat by lia.
    by rewrite Nat.Div0.mod_add.
Qed.

Lemma rounds_full (l : list string) (q r : nat) :
  l ≠ [] → (r < length l)%nat →
  (λ i : nat, l !! (i `mod` length l)%nat) <$> seq 0 (q * length l + r) =
  Some <$> (concat (replicate q l) ++ take r l).
Proof.
  intros Hne Hr. induction q as [|q IH].
  - cbn [Nat.mul Nat.add replicate concat app].
    rewrite <- StockBotProcess.lookups_take by lia.
    apply list_fmap_ext. intros j i Hi.
    apply lookup_seq in Hi as [-> Hi]. cbn. rewrite Nat.mod_small; [done|lia].
  - replace (S q * length l + r)%nat with (length l + (q * length l + r))%nat
      by lia.
    rewrite rounds_more by done. rewrite IH.
    cbn [replicate concat]. by rewrite <- (assoc_L (++)), !fmap_app.
Qed.

(** How often a region is assigned. *)
Definition assigned (region : string) (targets : list (option string)) : nat :=
  length (filter (λ target, target = Some region) targets).

Definition occurrences (region : string) (l : list string) : nat :=
  length (filter (λ r, r = region) l).

Lemma assigned_Some region l :
  assigned region (Some <$> l) = occurrences region l.
Proof.
  unfold assigned, occurrences. induction l as [|r l IH]; [done|].
  cbn [fmap list_fmap]. rewrite !filter_cons.
  destruct (decide (r = region)) as [-> | Hne].
  - rewrite decide_True by done. cbn. by rewrite IH.
  - rewrite decide_False by congruence. done.
Qed.

Lemma occurrences_app region l1 l2 :
  occurrences region (l1 ++ l2) =
  (occurrences region l1 + occurrences region l2)%nat.
Proof. unfold occurrences. by rewrite filter_app, length_app. Qed.

Lemma occurrences_rounds region q l :
  occurrences region (concat (replicate q l)) = (q * occurrences region l)%nat.
Proof.
  induction q as [|q IH]; [done|]. cbn [replicate concat].
  rewrite occurrences_app, IH. lia.
Qed.

Lemma occurrences_absent region l : region ∉ l → occurrences region l = 0%nat.
Proof.
  unfold occurrences. induction l as [|r l IH]; [done|].
  intros [Hne Hl]%not_elem_of_cons. rewrite filter_cons.
  rewrite decide_False by done. by apply IH.
Qed.

Lemma occurrences_NoDup region l : NoDup l → (occurrences region l ≤ 1)%nat.
Proof.
  induction 1 as [|r l Hr Hl IH]; [cbn; lia|].
  unfold occurrences in *. rewrite filter_cons.
  destruct (decide (r = region)) as [-> | Hne]; [|done].
  cbn [length]. pose proof (occurrences_absent region l Hr) as H0.
  unfold occurrences in H0. lia.
Qed.

Lemma occurrences_elem region l : region ∈ l → (1 ≤ occurrences region l)%nat.
Proof.
  unfold occurrences. intros (l1 & l2 & ->)%list_elem_of_split.
  rewrite filter_app, filter_cons, decide_True by done.
  rewrite length_app. cbn [length]. lia.
Qed.

(** X21.  [createProxies] assigns the regions in complete rounds: with
    [n] available regions, [count = q * n + r] proxies get [q] times the
    whole list followed by its first [r] regions.  When the regions are
    distinct, every region is therefore assigned [q] or [q + 1] proxies. *)
Theorem regions_assigned_in_rounds (pm : Regions) (count : Z)
    (supplied : option (list string)) :
  let l := availableRegions pm supplied in
  let q := (Z.to_nat count / length l)%nat in
  let r := (Z.to_nat count `mod` length l)%nat in
  l ≠ [] →
  targetRegions pm count supplied =
    Some <$> (concat (replicate q l) ++ take r l) ∧
  (NoDup l → ∀ region, region ∈ l →
     (q ≤ assigned region (targetRegions pm count supplied) ≤ q + 1)%nat).
Proof.
  intros l q r Hne.
  assert (0 < length l)%nat as Hlen by (destruct l; [done|cbn; lia]).
  assert (targetRegions pm count supplied =
          Some <$> (concat (replicate q l) ++ take r l)) as Htargets.
  { unfold targetRegions. fold l. rewrite <- rounds_full.
    - replace (q * length l + r)%nat with (Z.to_nat count).
      + apply list_fmap_ext. intros _ i _. by apply at_rem.
      + unfold q, r. pose proof (Nat.div_mod_eq (Z.to_nat count) (length l)). lia.
    - done.
    - by apply Nat.mod_upper_bound, Nat.neq_0_lt_0. }
  split; [done|]. intros Hnd region Hin.
  rewrite Htargets, assigned_Some, occurrences_app, occurrences_rounds.
  pose proof (occurrences_NoDup region l Hnd).
  pose proof (occurrences_elem region l Hin).
  assert (occurrences region (take r l) ≤ 1)%nat.
  { apply occurrences_NoDup. eapply sublist_NoDup; [exact Hnd|].
    apply sublist_take. }
  nia.
Qed.

Lemma regions_assigned_in_rounds_witness :
  targetRegions newRegions 6 None =
  Some <$> (concat (replicate 1 defaultRegions) ++ take 2 defaultRegions).
Proof.
  by destruct (regions_assigned_in_rounds newRegions 6 None) as [H _].
Defined.

(** *** Validation *)

(** The proxies whose service answered as active and running, in the
    order of the manager's list. *)
Definition survivors (describe : nat → Proxy → option (list Service))
    (proxies : list Proxy) : list Proxy :=
  omap id (imap (λ i proxy,
                   if serviceActive (describe i proxy) then Some proxy else None)
                proxies).

Lemma survivors_cons describe proxy proxies :
  survivors describe (proxy :: proxies) =
  (if serviceActive (describe 0%nat proxy) then [proxy] else []) ++
  survivors (λ i, describe (S i)) proxies.
Proof. unfold survivors. cbn [imap omap]. by destruct (serviceActive _). Qed.

Lemma survivors_sublist describe proxies :
  survivors describe proxies `sublist_of` proxies.
Proof.
  revert describe. induction proxies as [|proxy proxies IH]; intros describe.
  - done.
  - rewrite survivors_cons. destruct (serviceActive _); cbn [app].
    + by apply sublist_skip.
    + by apply sublist_cons.
Qed.

Lemma sublist_same_length {A} (l1 l2 : list A) :
  l1 `sublist_of` l2 → length l1 = length l2 → l1 = l2.
Proof.
  induction 1 as [|x l1 l2 Hsub IH|x l1 l2 Hsub IH]; cbn [length]; intros Hlen.
  - done.
  - f_equal. apply IH. lia.
  - apply sublist_length in Hsub. lia.
Qed.

Lemma survivors_all describe proxies :
  survivors describe proxies = proxies ↔
  ∀ i proxy, proxies !! i = Some proxy → serviceActive (describe i proxy) = true.
Proof.
  revert describe. induction proxies as [|proxy proxies IH]; intros describe.
  - split; [by intros _ i proxy ?|done].
  - rewrite survivors_cons. split.
    + intros Heq. destruct (serviceActive (describe 0%nat proxy)) eqn:E.
      * injection Heq as Heq.
        pose proof (proj1 (IH (λ i, describe (S i))) Heq) as Hrest.
        intros [|i] p Hp; [by injection Hp as <-|]. by apply Hrest.
      * pose proof (survivors_sublist (λ i, describe (S i)) proxies) as Hsub.
        apply sublist_length in Hsub. cbn [app] in Heq.
        apply (f_equal length) in Heq. cbn [length] in Heq. lia.
    + intros Hall. rewrite (Hall 0%nat proxy eq_refl). cbn [app]. f_equal.
      apply (proj2 (IH (λ i, describe (S i)))).
      intros i p Hp. by apply (Hall (S i)).
Qed.

Lemma elem_of_survivors describe proxies i proxy :
  proxies !! i = Some proxy → serviceActive (describe i proxy) = true →
  proxy ∈ survivors describe proxies.
Proof.
  revert describe i. induction proxies as [|p proxies IH]; intros describe i;
    [done|].
  rewrite survivors_cons. destruct i as [|i]; cbn [lookup list_lookup].
  - intros [= ->] ->. left.
  - intros Hi Hactive. apply elem_of_app. right. by apply (IH _ i).
Qed.

(** *** What [saveState] writes *)

(** [written] is the object written for [proxy] when the clock reads
    [now]: the url, the region, the service name and the address of the
    proxy, and its [createdAt] unless that is missing or empty, in which
    case it is [now]. *)
Definition writtenAs (now : string) (proxy written : Proxy) : Prop :=
  p_url written = p_url proxy ∧
  p_region written = p_region proxy ∧
  p_serviceName written = p_serviceName proxy ∧
  p_publicIp written = p_publicIp proxy ∧
  p_createdAt written =
    Some (match p_createdAt proxy with
          | Some createdAt =>
              if decide (createdAt = "") then now else createdAt
          | None => now
          end).

(** [file] is the state written for [proxies] under the readings
    [clock]: one object for each proxy, in order, and [lastUpdated]. *)
Definition fileOf (clock : Clock) (proxies : list Proxy) (file : StateFile)
    : Prop :=
  lastUpdated file = updatedAt clock ∧
  length (savedProxies file) = length proxies ∧
  ∀ i proxy, proxies !! i = Some proxy →
    ∃ written, savedProxies file !! i = Some written ∧
               writtenAs (createdAtFor clock i) proxy written.

Lemma savedProxy_writtenAs now proxy : writtenAs now proxy (savedProxy now proxy).
Proof.
  unfold writtenAs, savedProxy. cbn [p_url p_region p_serviceName p_publicIp
                                     p_createdAt].
  repeat split. destruct (p_createdAt proxy) as [createdAt|]; [|done].
  cbn [JS.truthy]. case_decide as Hempty.
  - subst createdAt. done.
  - by rewrite (proj2 (String.eqb_neq createdAt "")).
Qed.

Lemma saveState_fileOf clock pm :
  activeProxies (saveState clock pm) = activeProxies pm ∧
  ∃ file, saves (saveState clock pm) = saves pm ++ [file] ∧
          fileOf clock (activeProxies pm) file.
Proof.
  split; [done|]. eexists. split; [reflexivity|].
  split; [done|]. cbn [savedProxies]. split; [by rewrite length_imap|].
  intros i proxy Hi. exists (savedProxy (createdAtFor clock i) proxy).
  split; [|apply savedProxy_writtenAs].
  by rewrite list_lookup_imap, Hi.
Qed.

(** X22.  After [validateActiveProxies] the manager's list holds exactly
    the proxies whose service answered as active with a running task, in
    their old order and as they were; when all of them did, nothing
    changes, and when some proxy was dropped the state is written once,
    with one object for each proxy kept: its url, region, service name
    and address, and its [createdAt], the time of the write standing in
    for a missing or empty one. *)
Theorem validation_keeps_the_active
    (describe : nat → Proxy → option (list Service)) (clock : Clock)
    (pm : Manager) :
  let pm' := validateActiveProxies describe clock pm in
  activeProxies pm' = survivors describe (activeProxies pm) ∧
  activeProxies pm' `sublist_of` activeProxies pm ∧
  (∀ i proxy, activeProxies pm !! i = Some proxy →
     serviceActive (describe i proxy) = true → proxy ∈ activeProxies pm') ∧
  ((∀ i proxy, activeProxies pm !! i = Some proxy →
      serviceActive (describe i proxy) = true) →
   pm' = pm) ∧
  ((∃ i proxy, activeProxies pm !! i = Some proxy ∧
      serviceActive (describe i proxy) = false) →
   ∃ file,
     saves pm' = saves pm ++ [file] ∧
     fileOf clock (survivors describe (activeProxies pm)) file).
Proof.
  cbn zeta. unfold validateActiveProxies. cbn zeta.
  fold (survivors describe (activeProxies pm)).
  pose proof (survivors_sublist describe (activeProxies pm)) as Hsub.
  pose proof (survivors_all describe (activeProxies pm)) as Hall.
  assert (activeProxies
            (if decide (JS.len (survivors describe (activeProxies pm)) ≠
                        JS.len (activeProxies pm))
             then saveState clock
                    (mkManager (survivors describe (activeProxies pm))
                               (saves pm))
             else pm) = survivors describe (activeProxies pm)) as Hactive.
  { case_decide as Hlen; [done|]. symmetry. apply sublist_same_length; [done|].
    unfold JS.len in Hlen. lia. }
  split; [done|]. rewrite Hactive. split; [done|].
  split; [intros i proxy; apply elem_of_survivors|]. split.
  - intros Hvalid. apply Hall in Hvalid. rewrite Hvalid.
    by rewrite decide_False by (intros H; by apply H).
  - intros (i & proxy & Hi & Hdead). rewrite decide_True.
    + destruct (saveState_fileOf clock
                  (mkManager (survivors describe (activeProxies pm)) (saves pm)))
        as (_ & file & Hsaves & Hfile).
      by exists file.
    + intros Hlen.
      assert (survivors describe (activeProxies pm) = activeProxies pm)
        as Heq by (apply sublist_same_length; [done|unfold JS.len in Hlen; lia]).
      rewrite (proj1 Hall Heq i proxy Hi) in Hdead. done.
Qed.

(** *** Teardown *)






(** A proxy read from a state file without [createdAt] is written with
    the time of the write. *)
Example save_fills_createdAt :
  saves
    (saveState (mkClock (λ _, "2025-01-01T00:00:00.000Z")
                        "2025-01-01T00:00:00.001Z")
       (mkManager [mkProxy "socks5://203.0.113.7:1080" "us-east-1"
                           "stockbot-socks5-proxy-us-east-1-1" "203.0.113.7"
                           None] [])) =
  [mkStateFile
     [mkProxy "socks5://203.0.113.7:1080" "us-east-1"
              "stockbot-socks5-proxy-us-east-1-1" "203.0.113.7"
              (Some "2025-01-01T00:00:00.000Z")]
     "2025-01-01T00:00:00.001Z"].
Proof. reflexivity. Qed.
End FleetFacts.

Module CreateFacts.
Import ProxyManager Fleet ProxyManagerFacts.

(** *** The batches of [createProxies] *)

Section Batches.
Context {Spec Ready Err : Type}.
Variable createService : option string → Z → Z → Spec + Err.
Variable waitForReadiness : Spec → Z → Z → Ready + Err.

#[local] Abbreviation phase1 := (Fleet.phase1 createService).
#[local] Abbreviation runBatch := (Fleet.runBatch createService).

(** The requests for the services, numbered from [i + 1], with a wait of
    one second after every fifth of them unless it is the last. *)
Definition requestsFrom (count i : Z) (targets : list (option string))
    : list (Event Spec) :=
  concat
    (imap (λ j region,
             ServiceRequested region (i + Z.of_nat j + 1) ::
             (if decide ((i + Z.of_nat j + 1) `mod` 5 = 0 ∧
                         i + Z.of_nat j + 1 < count)
              then [Delay 1000] else []))
          targets).

(** The way the services settle, in the order of the requests. *)
Definition settledFrom (count i : Z) (targets : list (option string))
    : list (Spec + Err) :=
  imap (λ j region, createService region (i + Z.of_nat j + 1) count) targets.

Lemma foldl_settle (acc : Phase1 Spec Err) (results : list (Spec + Err)) :
  serviceSpecs (foldl settle acc results) =
    serviceSpecs acc ++ omap fulfilled results ∧
  serviceErrors (foldl settle acc results) =
    serviceErrors acc ++ omap rejected results ∧
  events (foldl settle acc results) = events acc.
Proof.
  revert acc. induction results as [|result results IH]; intros acc.
  - cbn. by rewrite !app_nil_r.
  - cbn [foldl]. destruct (IH (settle acc result)) as (-> & -> & ->).
    destruct result; cbn; by rewrite <- ?(assoc_L (++)).
Qed.

Lemma runBatch_result count i batch acc :
  serviceSpecs (runBatch count i batch acc) =
    serviceSpecs acc ++ omap fulfilled (settledFrom count i batch) ∧
  serviceErrors (runBatch count i batch acc) =
    serviceErrors acc ++ omap rejected (settledFrom count i batch) ∧
  events (runBatch count i batch acc) =
    events acc ++
    imap (λ j region, ServiceRequested region (i + Z.of_nat j + 1)) batch.
Proof.
  unfold Fleet.runBatch. cbv zeta.
  destruct (foldl_settle
              (mkPhase1 (serviceSpecs acc) (serviceErrors acc)
                 (events acc ++
                  imap (λ j region,
                          ServiceRequested region (i + Z.of_nat j + 1)) batch))
              (settledFrom count i batch)) as (H1 & H2 & H3).
  unfold settledFrom in *. by rewrite H1, H2, H3.
Qed.

Lemma imap_batches {B} (h : option string → Z → B) (i : Z)
    (rest : list (option string)) :
  imap (λ j region, h region (i + Z.of_nat j + 1)) rest =
  imap (λ j region, h region (i + Z.of_nat j + 1)) (take 5 rest) ++
  imap (λ j region, h region (i + 5 + Z.of_nat j + 1)) (drop 5 rest).
Proof.
  rewrite <- (take_drop 5 rest) at 1. rewrite imap_app. f_equal.
  destruct (decide (length rest ≤ 5)%nat) as [Hle|Hgt].
  - by rewrite drop_ge.
  - apply imap_ext. intros j region _. cbn. f_equal.
    rewrite length_take. lia.
Qed.

Lemma slice_batch (targets : list (option string)) (i : Z) :
  0 ≤ i →
  slice targets i (i + maxConcurrentOperations) =
  take 5 (drop (Z.to_nat i) targets).
Proof.
  intros Hi. unfold slice, maxConcurrentOperations. f_equal. lia.
Qed.

Lemma drop_batch (targets : list (option string)) (i : Z) :
  0 ≤ i →
  drop (Z.to_nat (i + maxConcurrentOperations)) targets =
  drop 5 (drop (Z.to_nat i) targets).
Proof.
  intros Hi. rewrite drop_drop. f_equal. unfold maxConcurrentOperations. lia.
Qed.

Lemma mod5 (i k : Z) : i `mod` 5 = 0 → 0 ≤ k < 5 → (i + k) `mod` 5 = k.
Proof.
  intros Hi Hk. Z.div_mod_to_equations. lia.
Qed.

Lemma requestsFrom_app count i (l1 l2 : list (option string)) :
  requestsFrom count i (l1 ++ l2) =
  requestsFrom count i l1 ++
  requestsFrom count (i + Z.of_nat (length l1)) l2.
Proof.
  unfold requestsFrom. rewrite imap_app, concat_app. f_equal. f_equal.
  apply imap_ext. intros j region _. cbn.
  by replace (i + Z.of_nat (length l1 + j) + 1)
       with (i + Z.of_nat (length l1) + Z.of_nat j + 1) by lia.
Qed.

Lemma requestsFrom_one count i region :
  requestsFrom count i [region] =
  ServiceRequested region (i + 1) ::
  (if decide ((i + 1) `mod` 5 = 0 ∧ i + 1 < count) then [Delay 1000] else []).
Proof.
  unfold requestsFrom. cbn [imap concat]. rewrite app_nil_r.
  by replace (i + Z.of_nat 0 + 1) with (i + 1) by lia.
Qed.

Lemma requestsFrom_quiet count i (l : list (option string)) :
  i `mod` 5 = 0 → (length l < 5)%nat →
  requestsFrom count i l =
  imap (λ j region, ServiceRequested region (i + Z.of_nat j + 1)) l.
Proof.
  intros Hi. induction l as [|region l IH] using rev_ind; [done|].
  rewrite length_app. cbn [length]. intros Hlen.
  rewrite requestsFrom_app, imap_app, IH by lia.
  rewrite requestsFrom_one. cbn [imap].
  rewrite decide_False.
  - do 3 f_equal. lia.
  - intros [Hmod _].
    replace (i + Z.of_nat (length l) + 1)
      with (i + (Z.of_nat (length l) + 1)) in Hmod by lia.
    rewrite mod5 in Hmod by (done || lia). lia.
Qed.

Lemma requests_batch count i (rest : list (option string)) :
  i `mod` 5 = 0 → Z.of_nat (length rest) = count - i →
  imap (λ j region, ServiceRequested (Spec:=Spec) region (i + Z.of_nat j + 1))
       (take 5 rest) ++
  (if decide (i + maxConcurrentOperations < count) then [Delay 1000] else []) =
  requestsFrom count i (take 5 rest).
Proof.
  intros Hi Hlen. unfold maxConcurrentOperations.
  destruct (decide (length rest < 5)%nat) as [Hshort|Hlong].
  - rewrite take_ge by lia. rewrite requestsFrom_quiet by done.
    rewrite decide_False by lia. by rewrite app_nil_r.
  - assert (length (take 5 rest) = 5%nat) as Hfive by (rewrite length_take; lia).
    destruct (take 5 rest) as [|region batch _] using rev_ind; [done|].
    rewrite length_app in Hfive. cbn [length] in Hfive.
    rewrite requestsFrom_app, imap_app, requestsFrom_quiet by (done || lia).
    rewrite requestsFrom_one. cbn [imap]. rewrite <- (assoc_L (++)). f_equal.
    replace (Z.of_nat (length batch)) with 4 by lia.
    replace (i + Z.of_nat (length batch + 0) + 1) with (i + 4 + 1) by lia.
    cbn [app]. f_equal.
    replace (i + 4 + 1) with (i + 5) by lia.
    destruct (decide (i + 5 < count)).
    + rewrite decide_True; [done|]. split; [|done].
      Z.div_mod_to_equations; lia.
    + by rewrite decide_False by tauto.
Qed.

Lemma settledFrom_batches count i (rest : list (option string)) :
  settledFrom count i rest =
  settledFrom count i (take 5 rest) ++ settledFrom count (i + 5) (drop 5 rest).
Proof.
  unfold settledFrom.
  apply (imap_batches (λ region n, createService region n count)).
Qed.

Lemma requestsFrom_batches count i (rest : list (option string)) :
  requestsFrom count i rest =
  requestsFrom count i (take 5 rest) ++ requestsFrom count (i + 5) (drop 5 rest).
Proof.
  rewrite <- (take_drop 5 rest) at 1. rewrite requestsFrom_app. f_equal.
  destruct (decide (length rest ≤ 5)%nat) as [Hle|Hgt].
  - by rewrite drop_ge.
  - f_equal. rewrite length_take. lia.
Qed.

Lemma phase1_result count i (targets : list (option string)) acc :
  0 ≤ i → i `mod` 5 = 0 → length targets = Z.to_nat count →
  let rest := drop (Z.to_nat i) targets in
  serviceSpecs (phase1 count i targets acc) =
    serviceSpecs acc ++ omap fulfilled (settledFrom count i rest) ∧
  serviceErrors (phase1 count i targets acc) =
    serviceErrors acc ++ omap rejected (settledFrom count i rest) ∧
  events (phase1 count i targets acc) =
    events acc ++ requestsFrom count i rest.
Proof.
  cbv zeta. funelim (Fleet.phase1 createService count i targets acc);
    intros Hi Hmod Hlen.
  - destruct H as (Hspecs & Herrors & Hevents).
    { unfold maxConcurrentOperations. lia. }
    { unfold maxConcurrentOperations. Z.div_mod_to_equations; lia. }
    { done. }
    rewrite Hspecs, Herrors, Hevents. clear Hspecs Herrors Hevents.
    rewrite drop_batch, slice_batch by done.
    set (rest := drop (Z.to_nat i) targetRegions0).
    assert (Z.of_nat (length rest) = count - i) as Hrest
      by (unfold rest; rewrite length_drop; lia).
    destruct (runBatch_result count i (take 5 rest) acc) as (Hs & He & Hv).
    assert (∀ acc1 : Phase1 Spec Err,
              serviceSpecs (if decide (i + maxConcurrentOperations < count)
                            then wait 1000 acc1 else acc1) = serviceSpecs acc1 ∧
              serviceErrors (if decide (i + maxConcurrentOperations < count)
                             then wait 1000 acc1 else acc1) = serviceErrors acc1 ∧
              events (if decide (i + maxConcurrentOperations < count)
                      then wait 1000 acc1 else acc1) =
                events acc1 ++
                (if decide (i + maxConcurrentOperations < count)
                 then [Delay 1000] else [])) as Hwait.
    { intros acc1. destruct (decide (i + maxConcurrentOperations < count));
        [by repeat split|]. by rewrite app_nil_r. }
    destruct (Hwait (runBatch count i (take 5 rest) acc)) as (-> & -> & ->).
    rewrite Hs, He, Hv. unfold maxConcurrentOperations.
    rewrite (settledFrom_batches count i rest), !omap_app.
    rewrite (requestsFrom_batches count i rest).
    rewrite <- (requests_batch count i rest) by done.
    unfold maxConcurrentOperations.
    by rewrite <- !(assoc_L (++)).
  - rewrite drop_ge by lia. cbn. by rewrite !app_nil_r.
Qed.

Lemma length_settled {A} (results : list (A + Err)) :
  (length (omap fulfilled results) + length (omap rejected results))%nat =
  length results.
Proof.
  induction results as [|[value|reason] results IH]; cbn; [done|lia|lia].
Qed.

#[local] Abbreviation createProxies :=
  (Fleet.createProxies createService waitForReadiness).

(** X24.  [createProxies] handles the proxies batch after batch, but the
    outcome is that of handling them one after the other: proxy [j] is
    created in its target region as service number [j + 1], the services
    that were created are waited for in that order, and every one of the
    [count] proxies ends up either in the returned list, among the
    services that failed, or among those that did not become ready.  When
    the execution role cannot be had, the error is thrown before
    anything is requested. *)
Theorem every_proxy_is_accounted_for (pm : Regions) (count : Z)
    (regions : option (list string)) :
  (∀ error, createProxies (Some error) pm count regions = inl error) ∧
  ∃ created,
    createProxies None pm count regions = inr created ∧
    let settled := settledFrom count 0 (targetRegions pm count regions) in
    let specs := omap fulfilled settled in
    let ready :=
      imap (λ j spec, waitForReadiness spec (Z.of_nat j + 1) (JS.len specs))
           specs in
    successfulProxies created = omap fulfilled ready ∧
    failedServices created = omap rejected settled ∧
    failedReadiness created = omap rejected ready ∧
    (length (successfulProxies created) + length (failedServices created) +
     length (failedReadiness created))%nat = Z.to_nat count.
Proof.
  split; [done|]. eexists. split; [reflexivity|]. cbv zeta.
  cbn [successfulProxies failedServices failedReadiness].
  destruct (phase1_result count 0 (targetRegions pm count regions)
              (mkPhase1 [] [] [])) as (Hspecs & Herrors & _).
  { done. } { done. }
  { unfold targetRegions. by rewrite length_fmap, length_seq. }
  change (Z.to_nat 0) with 0%nat in Hspecs, Herrors.
  rewrite drop_0 in Hspecs, Herrors.
  cbn [serviceSpecs serviceErrors app] in Hspecs, Herrors.
  rewrite Hspecs, Herrors. repeat split.
  set (settled := settledFrom count 0 (targetRegions pm count regions)).
  set (ready := imap (λ j spec, waitForReadiness spec (Z.of_nat j + 1)
                                  (JS.len (omap fulfilled settled)))
                     (omap fulfilled settled)).
  pose proof (length_settled ready) as Hready.
  pose proof (length_settled settled) as Hsettled.
  assert (length ready = length (omap fulfilled settled)) as Hr
    by (unfold ready; by rewrite length_imap).
  assert (length settled = Z.to_nat count) as Hs.
  { unfold settled, settledFrom, targetRegions.
    by rewrite length_imap, length_fmap, length_seq. }
  lia.
Qed.

(** The service requests and the waits read off the events. *)
Definition serviceRequests (log : list (Event Spec))
    : list (option string * Z) :=
  omap (λ ev, match ev with
              | ServiceRequested region n => Some (region, n)
              | _ => None
              end) log.

Definition delays (log : list (Event Spec)) : list Z :=
  omap (λ ev, match ev with Delay ms => Some ms | _ => None end) log.

Lemma serviceRequests_requestsFrom count i (l : list (option string)) :
  serviceRequests (requestsFrom count i l) =
  imap (λ j region, (region, i + Z.of_nat j + 1)) l.
Proof.
  induction l as [|region l IH] using rev_ind; [done|].
  rewrite requestsFrom_app, requestsFrom_one, imap_app.
  unfold serviceRequests in *. rewrite omap_app, IH. f_equal.
  cbn [imap omap]. destruct (decide _); cbn; do 2 f_equal; lia.
Qed.

Lemma delays_requestsFrom count (l : list (option string)) :
  delays (requestsFrom count 0 l) =
  replicate (Z.to_nat (Z.min (Z.of_nat (length l)) (count - 1) / 5)) 1000.
Proof.
  induction l as [|region l IH] using rev_ind.
  - change (delays (requestsFrom count 0 [])) with (@nil Z).
    change (Z.of_nat (length (@nil (option string)))) with 0.
    assert (Z.to_nat (Z.min 0 (count - 1) / 5) = 0%nat) as ->; [|done].
    Z.div_mod_to_equations; lia.
  - rewrite requestsFrom_app, requestsFrom_one.
    unfold delays in *. rewrite omap_app, IH. rewrite length_app.
    cbn [length omap]. cbn [Z.add].
    destruct (decide _) as [[Hmod Hlt]|Hno]; cbn [omap].
    + replace (Z.to_nat (Z.min (Z.of_nat (length l + 1)) (count - 1) / 5))
        with (Z.to_nat (Z.min (Z.of_nat (length l)) (count - 1) / 5) + 1)%nat.
      * by rewrite replicate_add.
      * Z.div_mod_to_equations; lia.
    + rewrite app_nil_r. f_equal.
      Z.div_mod_to_equations; lia.
Qed.

Lemma readiness_quiet (g : nat → Spec → Event Spec) (specs : list Spec) :
  (∀ j spec, ∃ n, g j spec = ReadinessRequested spec n) →
  serviceRequests (imap g specs) = [] ∧ delays (imap g specs) = [].
Proof.
  revert g. induction specs as [|spec specs IH]; intros g Hg; [done|].
  cbn [imap]. destruct (Hg 0%nat spec) as [n ->].
  destruct (IH (g ∘ S)) as [Hr Hd]; [intros j s; apply Hg|].
  split; [exact Hr|exact Hd].
Qed.

(** X25.  In the first phase of [createProxies] the services are
    requested in the order of the proxies, numbered from 1, each in its
    target region, and the manager waits one second after every fifth
    request unless it was the last: for [count] proxies it waits
    [(count - 1) / 5] times.  The readiness of the created services is
    then requested without any wait. *)
Theorem one_second_after_every_fifth_request (pm : Regions) (count : Z)
    (regions : option (list string)) :
  ∃ created,
    createProxies None pm count regions = inr created ∧
    let targets := targetRegions pm count regions in
    requested created =
      requestsFrom count 0 targets ++
      imap (λ j spec, ReadinessRequested spec (Z.of_nat j + 1))
           (omap fulfilled (settledFrom count 0 targets)) ∧
    serviceRequests (requested created) =
      imap (λ j region, (region, Z.of_nat j + 1)) targets ∧
    delays (requested created) =
      replicate (Z.to_nat ((count - 1) / 5)) 1000.
Proof.
  eexists. split; [reflexivity|]. cbv zeta. cbn [requested].
  destruct (phase1_result count 0 (targetRegions pm count regions)
              (mkPhase1 [] [] [])) as (Hspecs & _ & Hevents).
  { done. } { done. }
  { unfold targetRegions. by rewrite length_fmap, length_seq. }
  change (Z.to_nat 0) with 0%nat in Hspecs, Hevents.
  rewrite drop_0 in Hspecs, Hevents.
  cbn [serviceSpecs events app] in Hspecs, Hevents.
  rewrite Hspecs, Hevents. split; [done|].
  set (targets := targetRegions pm count regions).
  destruct (readiness_quiet
              (λ j spec, ReadinessRequested spec (Z.of_nat j + 1))
              (omap fulfilled (settledFrom count 0 targets))) as [Hr Hd].
  { intros j spec. by eexists. }
  split.
  - pose proof (serviceRequests_requestsFrom count 0 targets) as Hq.
    unfold serviceRequests in *. rewrite omap_app, Hr, app_nil_r, Hq.
    apply imap_ext. intros j region _. cbn. f_equal; lia.
  - pose proof (delays_requestsFrom count targets) as Hq.
    unfold delays in *. rewrite omap_app, Hd, app_nil_r, Hq. f_equal.
    assert (length targets = Z.to_nat count) as ->.
    { unfold targets, targetRegions. by rewrite length_fmap, length_seq. }
    Z.div_mod_to_equations; lia.
Qed.
End Batches.
End CreateFacts.

Module WaitFacts.
Import Fleet.

Section Polling.
Variable poll : nat → option (list Task).
Variable duration : nat → Z.
(** A turn of the loop takes at least the ten seconds of its delay. *)
Hypothesis duration_delay : ∀ k, 10000 ≤ duration k.

Lemma firstRunningIp_truthy tasks publicIp :
  firstRunningIp tasks = Some publicIp →
  publicIp ≠ "" ∧
  ∃ task, task ∈ tasks ∧ lastStatus task = "RUNNING" ∧
          taskPublicIp task = Some publicIp.
Proof.
  induction tasks as [|task tasks IH]; [done|]. cbn [firstRunningIp].
  destruct (String.eqb _ _ && _) eqn:E.
  - apply andb_true_iff in E as [Hs Ht]. apply String.eqb_eq in Hs.
    intros Hip. rewrite Hip in Ht. cbn in Ht. split.
    + intros ->. done.
    + exists task. split; [left|done].
  - intros Hip. destruct (IH Hip) as (Hne & t & Hin & Hs & Ht).
    split; [done|]. exists t. split; [by right|done].
Qed.

Lemma waitLoop_ends fuel k elapsed :
  10000 * Z.of_nat k ≤ elapsed → (k ≤ 30 < fuel + k)%nat →
  let '(result, polls) := waitLoop poll duration fuel 300000 k elapsed in
  (k ≤ polls ≤ 30 ∨ polls = k)%nat ∧
  (∀ j, (k ≤ j < polls)%nat →
     match result with
     | Found _ => (S j < polls)%nat →
                  firstRunningIp (default [] (poll j)) = None
     | _ => firstRunningIp (default [] (poll j)) = None
     end) ∧
  match result with
  | Found publicIp =>
      (polls ≤ 30)%nat ∧
      firstRunningIp (default [] (poll (pred polls))) = Some publicIp
  | TimedOut => True
  | OutOfFuel => False
  end.
Proof.
  revert k elapsed. induction fuel as [|fuel IH]; intros k elapsed Hk Hfuel.
  - cbn [waitLoop]. lia.
  - cbn [waitLoop]. case_decide as Htime.
    + destruct (firstRunningIp (default [] (poll k))) as [publicIp|] eqn:Hpoll.
      * split; [left; lia|]. split; [intros j Hj Hlt; lia|].
        split; [lia|done].
      * specialize (IH (S k) (elapsed + duration k)).
        pose proof (duration_delay k).
        destruct (waitLoop poll duration fuel 300000 (S k) (elapsed + duration k))
          as [result polls].
        destruct IH as (Hpolls & Hnone & Hresult); [lia|lia|].
        split; [lia|]. split; [|done].
        intros j Hj. destruct (decide (j = k)) as [-> | Hne].
        -- by destruct result.
        -- apply Hnone. lia.
    + split; [by right|]. split; [intros j Hj; lia|done].
Qed.

(** X26.  [waitForTaskRunning] comes to an end within thirty turns of its
    loop, each turn taking at least the ten seconds of its delay: it
    returns the address of the first running task with an address that a
    poll shows, which is never empty, after polls that showed none, or it
    throws the timeout error after at most thirty polls without one. *)
Theorem waitForTaskRunning_ends (fuel : nat) :
  (30 < fuel)%nat →
  let '(result, polls) := waitForTaskRunning poll duration fuel in
  (polls ≤ 30)%nat ∧
  match result with
  | Found publicIp =>
      publicIp ≠ "" ∧
      firstRunningIp (default [] (poll (pred polls))) = Some publicIp ∧
      ∀ j, (S j < polls)%nat → firstRunningIp (default [] (poll j)) = None
  | TimedOut =>
      ∀ j, (j < polls)%nat → firstRunningIp (default [] (poll j)) = None
  | OutOfFuel => False
  end.
Proof.
  intros Hfuel. unfold waitForTaskRunning.
  pose proof (waitLoop_ends fuel 0 0) as H.
  destruct (waitLoop poll duration fuel 300000 0 0) as [result polls].
  destruct H as (Hpolls & Hnone & Hresult); [lia|lia|].
  split; [lia|]. destruct result as [publicIp| |]; [|..|done].
  - destruct Hresult as [_ Hfound]. split; [|split; [done|]].
    + by apply firstRunningIp_truthy in Hfound as [? _].
    + intros j Hj. apply Hnone; lia.
  - intros j Hj. apply Hnone. lia.
Qed.
End Polling.

(** A service whose task shows its address at the third poll. *)
Definition thirdPoll (k : nat) : option (list Task) :=
  if decide (k = 2%nat)
  then Some [mkTask "PENDING" None; mkTask "RUNNING" (Some "203.0.113.7")]
  else Some [mkTask "PROVISIONING" None].

Lemma waitForTaskRunning_ends_witness :
  let '(result, polls) := waitForTaskRunning thirdPoll (λ _, 10000) 31 in
  (polls ≤ 30)%nat ∧
  match result with
  | Found publicIp =>
      publicIp ≠ "" ∧
      firstRunningIp (default [] (thirdPoll (pred polls))) = Some publicIp ∧
      ∀ j, (S j < polls)%nat → firstRunningIp (default [] (thirdPoll j)) = None
  | TimedOut =>
      ∀ j, (j < polls)%nat → firstRunningIp (default [] (thirdPoll j)) = None
  | OutOfFuel => False
  end.
Proof.
  apply (waitForTaskRunning_ends thirdPoll (λ _, 10000)); [intros _|]; lia.
Defined.
End WaitFacts.

Module RetryMore.
Import ProxyManager ProxyManagerFacts.

(** *** Retries under any configuration *)

Section AnyConfiguration.
Context {W R : Type}.
Variable config : RetryConfig.
Variable operation : W → (R + Error) * W.
Variable delay : Z → W → W.

(** X27.  Whatever [retryConfig] holds: with [maxRetries] below 1 the
    operation is never invoked, the world stays as it is and
    [retryWithBackoff] throws [undefined]; otherwise the operation is
    invoked at most [maxRetries] times, each time on the world left by the
    invocations and the waits before, every error but the last is one that
    [shouldRetryError] accepts, the wait after the failed attempt [k] is
    [min (baseDelay * 2^(k-1)) maxDelay] and so never longer than
    [maxDelay], and the run ends in the world left by the last invocation,
    with its value or its very error. *)
Theorem retry_any_configuration (w : W) :
  let run := retryWithBackoff config operation delay w in
  (maxRetries config < 1 → run = (Thrown None, w, [])) ∧
  (1 ≤ maxRetries config →
   ∃ (failed : list Error) (last : R + Error),
     Z.of_nat (length failed) < maxRetries config ∧
     Forall (λ e, shouldRetryError e = true) failed ∧
     (∀ i e, failed !! i = Some e →
        (operation (worldBefore config operation delay w i)).1 = inr e) ∧
     operation (worldBefore config operation delay w (length failed)) =
       (last, run.1.2) ∧
     run.2 = logFrom config 0 failed last ∧
     results run.2 = (inr <$> failed) ++ [last] ∧
     waits run.2 =
       (λ k : nat,
          Z.min (baseDelay config * 2 ^ (Z.of_nat k - 1)) (maxDelay config))
       <$> seq 1 (length failed) ∧
     Forall (λ ms, ms ≤ maxDelay config) (waits run.2) ∧
     match last with
     | inl r => run.1.1 = Returned r
     | inr e =>
         run.1.1 = Thrown (Some e) ∧
         (shouldRetryError e = false ∨
          Z.of_nat (length failed) = maxRetries config - 1)
     end).
Proof.
  cbv zeta. split.
  - intros Hm. unfold retryWithBackoff.
    by replace (Z.to_nat (maxRetries config)) with 0%nat by lia.
  - intros Hm.
    destruct (retryWithBackoff_run config operation delay w Hm)
      as (failed & last & Hlen & Hall & Hfailed & Hend & Hrun & Hlast).
    exists failed, last. rewrite Hrun. cbn [fst snd].
    assert (waits (logFrom config 0 failed last) =
            (λ k : nat,
               Z.min (baseDelay config * 2 ^ (Z.of_nat k - 1)) (maxDelay config))
            <$> seq 1 (length failed)) as Hwaits.
    { rewrite waits_logFrom, <- fmap_S_seq, <- list_fmap_compose.
      apply list_fmap_ext. intros _ i _. cbn. unfold backoffFor.
      do 3 f_equal. lia. }
    split; [done|]. split; [done|]. split; [done|]. split.
    { rewrite <- Hlast. by destruct (operation _). }
    split; [done|]. split; [apply results_logFrom|]. split; [done|]. split.
    + rewrite Hwaits. apply Forall_fmap, Forall_forall. intros k _. cbn. lia.
    + destruct last as [r|e]; [done|]. by split.
Qed.
End AnyConfiguration.

(** An operation that counts its invocations and is throttled twice. *)
Definition throttledTwice (calls : nat) : (string + Error) * nat :=
  (if decide (calls < 2)%nat then inr throttled else inl "arn", S calls).

Example throttled_twice_run :
  retryWithBackoff (mkRetryConfig 5 100 250) throttledTwice
                   (λ ms calls, calls) 0%nat =
  (Returned "arn", 3%nat,
   [Attempt 1 (inr throttled); Wait 100;
    Attempt 2 (inr throttled); Wait 200;
    Attempt 3 (inl "arn")]).
Proof. reflexivity. Qed.
End RetryMore.

Module RegionResourcesMore.
Import ProxyManager RegionResources.

(** *** The global lock *)

(** The creation behind promise [p] has not ended. *)
Definition pending (w : World) (p : nat) : Prop :=
  ∃ region, promises w !! p = Some (mkPromise region Pending).

(** A creation that has not ended holds the global lock. *)
Definition lockHeld (w : World) : Prop :=
  ∀ p, pending w p → globalTaskDefinitionLock w = Some p.

Section Lock.
Variable registerTaskDefinition : string → nat → string + Error.
Variable newGroupId : string → string.

Lemma enterCreation_lockHeld region w :
  lockHeld w → lockHeld (enterCreation region w).2.
Proof.
  intros Hw. unfold enterCreation.
  destruct (globalTaskDefinitionLock w) as [q|] eqn:Hlock; [done|].
  intros p [r Hp]. cbn [snd promises globalTaskDefinitionLock] in *.
  apply lookup_app_Some in Hp as [Hp | [Hlen Hp]].
  - assert (pending w p) as Hpending by by exists r.
    apply Hw in Hpending. congruence.
  - f_equal. apply list_lookup_singleton_Some in Hp as [Hp _]. lia.
Qed.

Lemma releaseMutexes_lockHeld region p w :
  lockHeld w → settled w p ≠ None → lockHeld (releaseMutexes region p w).
Proof.
  intros Hw Hsettled q [r Hq].
  cbn [releaseMutexes promises globalTaskDefinitionLock] in *.
  assert (pending w q) as Hpending by by exists r.
  apply Hw in Hpending. case_decide as Hlock; [|done].
  assert (q = p) as -> by congruence.
  unfold settled in Hsettled. by rewrite Hq in Hsettled.
Qed.

Lemma callerStep_lockHeld c w c' w' :
  lockHeld w →
  callerStep newGroupId c w = Some (c', w') →
  lockHeld w'.
Proof.
  intros Hw Hstep.
  assert (∀ region, enterCreation region w = (c', w') → lockHeld w') as Henter.
  { intros region Heq. pose proof (enterCreation_lockHeld region w Hw) as H.
    by rewrite Heq in H. }
  destruct c; cbn [callerStep] in Hstep;
    repeat match type of Hstep with
           | context [match ?x with _ => _ end] => destruct x eqn:?
           end;
    try discriminate Hstep; apply (inj Some) in Hstep.
  all: try (by eapply Henter).
  all: injection Hstep as <- <-.
  all: try exact Hw.
  all: try (by apply releaseMutexes_lockHeld; [done|congruence]).
  all: by intros q Hq; apply Hw.
Qed.

Lemma complete_lockHeld p w w' :
  lockHeld w → complete registerTaskDefinition p w = Some w' → lockHeld w'.
Proof.
  intros Hw Hc. unfold complete in Hc.
  destruct (promises w !! p) as [[region [|arn|e]]|] eqn:Hp; try done.
  assert (p < length (promises w))%nat as Hlt by by eapply lookup_lt_Some.
  assert (∀ state q,
            state ≠ Pending →
            (∃ r, <[p := mkPromise region state]> (promises w) !! q =
                  Some (mkPromise r Pending)) →
            pending w q) as Hrest.
  { intros state q Hstate [r Hq]. destruct (decide (q = p)) as [-> | Hne].
    - rewrite list_lookup_insert_eq in Hq by done. congruence.
    - rewrite list_lookup_insert_ne in Hq by done. by exists r. }
  destruct (registerTaskDefinition region p) as [arn|e]; injection Hc as <-;
    intros q Hq; cbn [globalTaskDefinitionLock]; apply Hw.
  - by apply (Hrest (Fulfilled arn) q).
  - by apply (Hrest (Rejected e) q).
Qed.

Lemma step_lockHeld cfg m :
  lockHeld cfg.1 →
  lockHeld (step registerTaskDefinition newGroupId cfg m).1.
Proof.
  intros Hw. destruct m as [i|p]; cbn [step].
  - destruct (cfg.2 !! i) as [c|]; [|done].
    destruct (callerStep _ c cfg.1) as [[c' w']|] eqn:Hstep; [|done].
    cbn [fst]. by eapply callerStep_lockHeld.
  - destruct (complete _ p cfg.1) as [w'|] eqn:Hc; [|done].
    cbn [fst]. by eapply complete_lockHeld.
Qed.

Lemma exec_lockHeld schedule cfg :
  lockHeld cfg.1 →
  lockHeld (exec registerTaskDefinition newGroupId schedule cfg).1.
Proof.
  revert cfg. induction schedule as [|m schedule IH]; intros cfg Hw; [done|].
  cbn [exec foldl]. apply IH. by apply step_lockHeld.
Qed.

(** X28.  The global lock does what it is there for: whatever the
    callers, their regions and the order of their steps, and whether the
    registrations succeed or fail, no two creations of a task definition
    are under way at the same time, and the one that is under way is the
    one the lock holds. *)
Theorem one_registration_at_a_time (schedule : list Move)
    (callers : list Caller) (w0 : World) :
  lockHeld w0 →
  let w := (exec registerTaskDefinition newGroupId schedule (w0, callers)).1 in
  (∀ p, pending w p → globalTaskDefinitionLock w = Some p) ∧
  (∀ p q, pending w p → pending w q → p = q).
Proof.
  intros Hw0. cbv zeta.
  pose proof (exec_lockHeld schedule (w0, callers) Hw0) as Hw.
  split; [exact Hw|]. intros p q Hp Hq.
  apply Hw in Hp. apply Hw in Hq. congruence.
Qed.
End Lock.

Lemma one_registration_at_a_time_witness :
  let w :=
    (exec RegionResourcesFacts.registerOk RegionResourcesFacts.groupIdOf
       [Run 0; Run 1; Run 1; Complete 0; Run 0; Run 1]
       (fresh, [TdStart "us-east-1"; TdStart "us-east-2"])).1 in
  (∀ p, pending w p → globalTaskDefinitionLock w = Some p) ∧
  (∀ p q, pending w p → pending w q → p = q).
Proof.
  apply (one_registration_at_a_time RegionResourcesFacts.registerOk
           RegionResourcesFacts.groupIdOf).
  intros p [region Hp]. cbn [fresh promises] in Hp.
  by rewrite lookup_nil in Hp.
Defined.

(** *** The security group of a region *)

Section Group.
Variable registerTaskDefinition : string → nat → string + Error.
Variable newGroupId : string → string.
Variable region : string.

(** The cache of the manager holds the group that the cloud has. *)
Definition cacheAgrees (w : World) : Prop :=
  ∀ groupId, securityGroupCache w !! region = Some groupId →
             cloudGroups w !! region = Some groupId.

(** A caller of [ensureSecurityGroup(region)] on its way; one that has
    seen or returned a group has the group of the cloud. *)
Definition groupCaller (w : World) (c : Caller) : Prop :=
  match c with
  | SgStart r | SgAwaitFind r | SgAwaitCreate r => r = region
  | SgAwaitUpdate r groupId =>
      r = region ∧ cloudGroups w !! region = Some groupId
  | Finished (inl groupId) => cloudGroups w !! region = Some groupId
  | _ => False
  end.

Definition finished (c : Caller) : nat :=
  match c with Finished _ => 1%nat | _ => 0%nat end.

Fixpoint finishedCount (callers : list Caller) : nat :=
  match callers with
  | [] => 0%nat
  | c :: rest => (finished c + finishedCount rest)%nat
  end.

Lemma finishedCount_app l1 l2 :
  finishedCount (l1 ++ l2) = (finishedCount l1 + finishedCount l2)%nat.
Proof. induction l1 as [|c l1 IH]; [done|]. cbn. rewrite IH. lia. Qed.

Definition agreement (calls0 : nat) (cfg : World * list Caller) : Prop :=
  cacheAgrees cfg.1 ∧ Forall (groupCaller cfg.1) cfg.2 ∧
  (length (createGroupCalls cfg.1) ≤ calls0 + finishedCount cfg.2)%nat.

Lemma finishedCount_insert callers i c c' :
  callers !! i = Some c →
  (finishedCount (<[i := c']> callers) + finished c =
   finishedCount callers + finished c')%nat.
Proof.
  intros Hi.
  rewrite insert_take_drop by by eapply lookup_lt_Some.
  rewrite <- (take_drop_middle callers i c Hi) at 3.
  rewrite !finishedCount_app. cbn [finishedCount]. lia.
Qed.

Lemma finishedCount_le callers : (finishedCount callers ≤ length callers)%nat.
Proof.
  induction callers as [|c callers IH]; [done|].
  cbn. destruct c; cbn; lia.
Qed.

Lemma groupCaller_same w w' c :
  cloudGroups w' = cloudGroups w → groupCaller w c → groupCaller w' c.
Proof. unfold groupCaller. by intros ->. Qed.

Lemma groupCaller_created w w' c groupId :
  cloudGroups w !! region = None →
  cloudGroups w' = <[region := groupId]> (cloudGroups w) →
  groupCaller w c → groupCaller w' c.
Proof.
  unfold groupCaller. intros Hnone ->.
  destruct c as [| | | | | |r g| |[g|e]]; try done.
  - intros [_ Hg]. congruence.
  - intros Hg. congruence.
Qed.

Lemma step_agreement calls0 cfg m :
  agreement calls0 cfg →
  agreement calls0 (step registerTaskDefinition newGroupId cfg m).
Proof.
  destruct cfg as [w callers]. intros (Hcache & Hcallers & Hcalls).
  cbn [fst snd] in *. destruct m as [i|p]; cbn [step fst snd].
  - destruct (callers !! i) as [c|] eqn:Hi; [|done].
    pose proof (Forall_lookup_1 _ _ _ _ Hcallers Hi) as Hc.
    pose proof (finishedCount_insert callers i c) as Hcount.
    destruct c as [| | | |r|r|r g|r|[g|e]]; try done; cbn [callerStep].
    + cbn in Hc. subst r.
      destruct (securityGroupCache w !! region) as [g|] eqn:Hg.
      * split; [done|]. cbn [fst snd]. split.
        -- apply Forall_insert; [done|]. by apply Hcache.
        -- specialize (Hcount (Finished (inl g)) Hi). cbn in Hcount. lia.
      * split; [done|]. cbn [fst snd]. split.
        -- by apply Forall_insert.
        -- specialize (Hcount (SgAwaitFind region) Hi). cbn in Hcount. lia.
    + cbn in Hc. subst r.
      destruct (cloudGroups w !! region) as [g|] eqn:Hg.
      * split; [done|]. cbn [fst snd]. split.
        -- by apply Forall_insert.
        -- specialize (Hcount (SgAwaitUpdate region g) Hi). cbn in Hcount. lia.
      * split; [done|]. cbn [fst snd]. split.
        -- by apply Forall_insert.
        -- specialize (Hcount (SgAwaitCreate region) Hi). cbn in Hcount. lia.
    + cbn in Hc. destruct Hc as [-> Hg].
      specialize (Hcount (Finished (inl g)) Hi). cbn in Hcount.
      split; [|split]; unfold cacheAgrees;
        cbn [fst snd cacheGroup securityGroupCache cloudGroups
             createGroupCalls].
      * intros g'. rewrite lookup_insert_eq. congruence.
      * apply Forall_insert; [|done].
        eapply Forall_impl; [exact Hcallers|]. intros c ?.
        by eapply groupCaller_same.
      * lia.
    + cbn in Hc. subst r.
      destruct (cloudGroups w !! region) as [g|] eqn:Hg.
      * specialize (Hcount (Finished (inl g)) Hi). cbn in Hcount.
        split; [|split]; unfold cacheAgrees;
          cbn [fst snd cacheGroup securityGroupCache cloudGroups
               createGroupCalls].
        -- intros g'. rewrite lookup_insert_eq. congruence.
        -- apply Forall_insert; [|done].
           eapply Forall_impl; [exact Hcallers|]. intros c ?.
           by eapply groupCaller_same.
        -- rewrite length_app. cbn [length]. lia.
      * specialize (Hcount (Finished (inl (newGroupId region))) Hi).
        cbn in Hcount.
        split; [|split]; unfold cacheAgrees;
          cbn [fst snd cacheGroup securityGroupCache cloudGroups
               createGroupCalls].
        -- intros g'. rewrite !lookup_insert_eq. congruence.
        -- apply Forall_insert; [|cbn; by rewrite lookup_insert_eq].
           eapply Forall_impl; [exact Hcallers|]. intros c ?.
           by eapply groupCaller_created.
        -- rewrite length_app. cbn [length]. lia.
  - unfold complete. destruct (promises w !! p) as [[r [|arn|e]]|]; try done.
    destruct (registerTaskDefinition r p); cbn [fst snd]; (split; [done|]);
      (split; [|done]); eapply Forall_impl; try exact Hcallers;
      intros c ?; by eapply groupCaller_same.
Qed.

Lemma exec_agreement calls0 schedule cfg :
  agreement calls0 cfg →
  agreement calls0 (exec registerTaskDefinition newGroupId schedule cfg).
Proof.
  revert cfg. induction schedule as [|m schedule IH]; intros cfg H; [done|].
  cbn [exec foldl]. apply IH. by apply step_agreement.
Qed.

Lemma exec_length schedule cfg :
  length (exec registerTaskDefinition newGroupId schedule cfg).2 =
  length cfg.2.
Proof.
  unfold exec. revert cfg.
  induction schedule as [|m schedule IH]; intros cfg; [done|].
  cbn [foldl]. rewrite IH. destruct m as [i|p]; cbn [step].
  - destruct (cfg.2 !! i) as [c|]; [|done].
    destruct (callerStep _ c cfg.1) as [[c' w']|]; [|done].
    cbn [snd]. by rewrite length_insert.
  - by destruct (complete _ p cfg.1).
Qed.

(** X29.  However the calls of [ensureSecurityGroup] for one region are
    interleaved, every call that has returned has returned the one group
    that the cloud holds for the region, the cache holds that group too,
    and the cloud was asked to create a group at most once per call. *)
Theorem security_group_agreement (n : nat) (schedule : list Move)
    (w0 : World) :
  cacheAgrees w0 →
  let cfg :=
    exec registerTaskDefinition newGroupId schedule
         (w0, replicate n (SgStart region)) in
  (∀ i result, cfg.2 !! i = Some (Finished result) →
     ∃ groupId, result = inl groupId ∧
                cloudGroups cfg.1 !! region = Some groupId) ∧
  cacheAgrees cfg.1 ∧
  (length (createGroupCalls cfg.1) ≤ length (createGroupCalls w0) + n)%nat.
Proof.
  intros Hw0. cbv zeta.
  assert (agreement (length (createGroupCalls w0))
                    (w0, replicate n (SgStart region))) as Hinit.
  { split; [done|]. split; cbn [fst snd].
    - apply Forall_replicate. done.
    - lia. }
  pose proof (exec_agreement _ schedule _ Hinit) as (Hcache & Hcallers & Hcalls).
  split; [|split; [done|]].
  - intros i result Hi.
    pose proof (Forall_lookup_1 _ _ _ _ Hcallers Hi) as Hc.
    destruct result as [g|e]; [|done]. by exists g.
  - pose proof (finishedCount_le
                  (exec registerTaskDefinition newGroupId schedule
                     (w0, replicate n (SgStart region))).2) as Hle.
    rewrite exec_length in Hle. cbn [snd] in Hle.
    rewrite length_replicate in Hle. lia.
Qed.
End Group.

Lemma security_group_agreement_witness :
  let cfg :=
    exec RegionResourcesFacts.registerOk RegionResourcesFacts.groupIdOf
         [Run 0; Run 1; Run 0; Run 1; Run 0; Run 1]
         (fresh, replicate 2 (SgStart "us-east-1")) in
  (∀ i result, cfg.2 !! i = Some (Finished result) →
     ∃ groupId, result = inl groupId ∧
                cloudGroups cfg.1 !! "us-east-1" = Some groupId) ∧
  cacheAgrees "us-east-1" cfg.1 ∧
  (length (createGroupCalls cfg.1) ≤ length (createGroupCalls fresh) + 2)%nat.
Proof.
  apply (security_group_agreement RegionResourcesFacts.registerOk
           RegionResourcesFacts.groupIdOf "us-east-1" 2).
  intros groupId Hcache. cbn [fresh securityGroupCache] in Hcache.
  by rewrite lookup_empty in Hcache.
Defined.
End RegionResourcesMore.

Module WebServerFacts.
Import WebServer.

(** * Properties of the web server *)

Section Clients.
Context {Client : Type} `{EqDecision Client}.
Implicit Types (clients : list Client) (client : Client).

Lemma elem_of_delete clients client c :
  c ∈ delete clients client ↔ c ∈ clients ∧ c ≠ client.
Proof. unfold delete. rewrite list_elem_of_filter. tauto. Qed.

Lemma NoDup_delete clients client : NoDup clients → NoDup (delete clients client).
Proof. apply NoDup_filter. Qed.

Lemma NoDup_add clients client : NoDup clients → NoDup (add clients client).
Proof.
  intros Hnd. unfold add. case_decide as Hin; [done|].
  apply NoDup_app. split; [done|]. split; [|apply NoDup_singleton].
  by intros c Hc ->%list_elem_of_singleton.
Qed.

Lemma elem_of_deletes clients removed c :
  c ∈ foldl delete clients removed ↔ c ∈ clients ∧ c ∉ removed.
Proof.
  revert clients. induction removed as [|r removed IH]; intros clients.
  - cbn. split; [intros ?; split; [done|apply not_elem_of_nil]|by intros [? _]].
  - cbn [foldl]. rewrite IH, elem_of_delete, not_elem_of_cons. tauto.
Qed.

Lemma NoDup_deletes clients removed :
  NoDup clients → NoDup (foldl delete clients removed).
Proof.
  revert clients. induction removed as [|r removed IH]; intros clients Hnd;
    [done|].
  cbn [foldl]. by apply IH, NoDup_delete.
Qed.

Lemma elem_of_List_filter (f : Client → bool) clients c :
  c ∈ List.filter f clients ↔ c ∈ clients ∧ f c = true.
Proof.
  induction clients as [|x clients IH]; cbn [List.filter].
  - split; [by intros ?%elem_of_nil|by intros [?%elem_of_nil _]].
  - destruct (f x) eqn:E; rewrite ?elem_of_cons, IH; [|split].
    + split; [intros [-> | [? ?]]; by auto|tauto].
    + tauto.
    + intros [[-> | ?] Hf]; [congruence|done].
Qed.

Lemma elem_of_broadcast (delivered : Client → bool) clients c :
  c ∈ (broadcastUpdate delivered clients).1 ↔ c ∈ clients ∧ delivered c = true.
Proof.
  unfold broadcastUpdate. cbn [fst]. rewrite elem_of_deletes.
  rewrite elem_of_List_filter. destruct (delivered c); cbn.
  - split; [by intros [? _]|]. intros [? _]. split; [done|]. by intros [_ ?].
  - split; [|by intros [_ ?]]. intros [Hc Hno]. destruct Hno. by split.
Qed.

Lemma step_NoDup clients op : NoDup clients → NoDup (step clients op).1.
Proof.
  intros Hnd. destruct op as [client|client|delivered]; cbn [step fst].
  - by apply NoDup_add.
  - by apply NoDup_delete.
  - by apply NoDup_deletes.
Qed.

(** The client is not connected again by the operations. *)
Definition staysAway (client : Client) (ops : list (Op (Client:=Client)))
    : Prop :=
  Forall (λ op, op ≠ Connect client) ops.

Lemma step_away clients op client :
  client ∉ clients → op ≠ Connect client → ¬ client ∈ (step clients op).1.
Proof.
  intros Hout Hop. destruct op as [c|c|delivered]; cbn [step fst].
  - unfold add. case_decide; [done|]. rewrite elem_of_app.
    intros [?| ->%list_elem_of_singleton]; [done|]. by apply Hop.
  - rewrite elem_of_delete. tauto.
  - rewrite elem_of_broadcast. tauto.
Qed.

Lemma run_writes clients ops client :
  client ∉ clients → staysAway client ops →
  ¬ client ∈ (run clients ops).1 ∧
  Forall (λ writes, client ∉ writes) (run clients ops).2.
Proof.
  revert clients. induction ops as [|op ops IH]; intros clients Hout Hops.
  - cbn. split; [done|apply Forall_nil_2].
  - apply Forall_cons in Hops as [Hop Hops]. cbn [run].
    pose proof (step_away clients op client Hout Hop) as Hstep.
    assert (¬ client ∈ (step clients op).2) as Hwrites.
    { destruct op; cbn [step snd]; try apply not_elem_of_nil. done. }
    destruct (step clients op) as [clients1 writes]. cbn [fst snd] in *.
    destruct (IH clients1 Hstep Hops) as [Hend Hlog].
    destruct (run clients1 ops) as [clients2 log]. cbn [fst snd] in *.
    split; [done|]. by apply Forall_cons.
Qed.

Lemma run_app clients ops1 ops2 :
  run clients (ops1 ++ ops2) =
  ((run (run clients ops1).1 ops2).1,
   (run clients ops1).2 ++ (run (run clients ops1).1 ops2).2).
Proof.
  revert clients. induction ops1 as [|op ops1 IH]; intros clients.
  - cbn. by destruct (run clients ops2).
  - cbn [run app]. destruct (step clients op) as [clients1 writes].
    rewrite IH. by destruct (run clients1 ops1).
Qed.

Lemma run_NoDup clients ops :
  NoDup clients →
  NoDup (run clients ops).1 ∧ Forall NoDup (run clients ops).2.
Proof.
  revert clients. induction ops as [|op ops IH]; intros clients Hnd.
  - cbn. split; [done|apply Forall_nil_2].
  - cbn [run]. pose proof (step_NoDup clients op Hnd) as Hstep.
    assert (NoDup (step clients op).2) as Hwrites.
    { destruct op; cbn [step snd]; try apply NoDup_nil_2. done. }
    destruct (step clients op) as [clients1 writes]. cbn [fst snd] in *.
    destruct (IH clients1 Hstep) as [Hend Hlog].
    destruct (run clients1 ops) as [clients2 log]. cbn [fst snd] in *.
    split; [done|]. by apply Forall_cons.
Qed.

(** X30.  On a server that starts without clients, a broadcast writes
    once to each client that is connected, and a client whose write threw
    during a broadcast is dropped: whatever happens afterwards, it is not
    written to again unless it is connected anew. *)
Theorem failed_client_is_dropped (before after : list Op)
    (delivered : Client → bool) (client : Client) :
  delivered client = false →
  staysAway client after →
  let result := run [] (before ++ BroadcastUpdate delivered :: after) in
  Forall NoDup result.2 ∧
  ¬ client ∈ result.1 ∧
  Forall (λ writes, client ∉ writes) (drop (S (length before)) result.2).
Proof.
  intros Hfailed Haway. cbv zeta.
  split; [by apply run_NoDup, NoDup_nil_2|].
  rewrite run_app. cbn [fst snd].
  set (clients := (run [] before).1).
  assert (length (run (Client:=Client) [] before).2 = length before) as Hlen.
  { generalize (@nil Client). induction before as [|op before IH]; intros cs;
      [done|].
    cbn [run]. destruct (step cs op) as [cs1 writes]. specialize (IH cs1).
    destruct (run cs1 before) as [cs2 log]. cbn [snd length] in *. by rewrite IH. }
  cbn [run step].
  assert (¬ client ∈ (broadcastUpdate delivered clients).1) as Hout.
  { rewrite elem_of_broadcast. intros [_ Hd]. congruence. }
  destruct (broadcastUpdate delivered clients) as [clients1 writes].
  cbn [fst] in Hout.
  destruct (run_writes clients1 after client Hout Haway) as [Hend Hlog].
  destruct (run clients1 after) as [clients2 log]. cbn [fst snd] in *.
  split; [done|].
  rewrite cons_middle, (assoc_L (++)).
  rewrite drop_app_length'; [done|]. rewrite length_app, Hlen. cbn. lia.
Qed.
End Clients.

Lemma failed_client_is_dropped_witness :
  let result :=
    run [] ([Connect 1%nat; Connect 2%nat] ++
            BroadcastUpdate (λ c, bool_decide (c ≠ 1%nat)) ::
            [BroadcastUpdate (λ _, true)]) in
  Forall NoDup result.2 ∧
  ¬ 1%nat ∈ result.1 ∧
  Forall (λ writes, 1%nat ∉ writes) (drop 3 result.2).
Proof.
  apply (failed_client_is_dropped [Connect 1%nat; Connect 2%nat]
           [BroadcastUpdate (λ _, true)]
           (λ c, bool_decide (c ≠ 1%nat)) 1%nat).
  - reflexivity.
  - apply Forall_singleton. done.
Defined.
End WebServerFacts.
